(** * MyTeenyTinyCompiler: the lexer, the parser and the driver, embedded

    The Python sources [lex.py], [parse.py] and [teenytiny.py] are embedded
    as executable definitions.  Source text is a [string] whose characters
    are the code points below 256; calls that can end the process
    ([sys.exit]) or raise are threaded through a state-and-outcome monad.
    Python [set]s are [gset string]; the order in which a [for] loop walks
    a set is a parameter of [program], because Python does not fix it. *)

From Stdlib Require Import ZArith NArith Ascii String List Bool Lia.
From stdpp Require Import base gmap strings list.
Import ListNotations.

(** ** Characters and Python string primitives *)

Definition chr (n : N) : ascii := ascii_of_N n.
Definition str (c : ascii) : string := String c EmptyString.

Definition NUL : ascii := chr 0.
Definition TAB : ascii := chr 9.
Definition LF : ascii := chr 10.
Definition CR : ascii := chr 13.
Definition QUOTE : ascii := chr 34.
Definition BACKSLASH : ascii := chr 92.

(** [len(s)] as a Python integer. *)
Definition len (s : string) : Z := Z.of_nat (String.length s).

(** [s[i]]: a negative index counts from the end; [None] is IndexError. *)
Definition py_getitem (s : string) (i : Z) : option ascii :=
  if (i <? 0)%Z
  then (if (i + len s <? 0)%Z then None else String.get (Z.to_nat (i + len s)) s)
  else String.get (Z.to_nat i) s.

(** Index adjustment of a slice bound. *)
Definition py_adjust (n i : Z) : Z :=
  if (i <? 0)%Z then Z.max 0 (i + n) else Z.min i n.

(** [s[a:b]]. *)
Definition py_slice (s : string) (a b : Z) : string :=
  let a' := py_adjust (len s) a in
  let b' := py_adjust (len s) b in
  String.substring (Z.to_nat a') (Z.to_nat (b' - a')) s.

Definition in_range (lo hi : N) (c : ascii) : bool :=
  let n := N_of_ascii c in (lo <=? n)%N && (n <=? hi)%N.

(** [str.isdigit], [str.isalpha] and [str.isalnum] on one character, for the
    code points below 256 (the digits include the superscripts 178, 179 and
    185; the vulgar fractions 188 to 190 are numeric, hence alphanumeric). *)
Definition isdigit (c : ascii) : bool :=
  in_range 48 57 c || in_range 178 179 c || in_range 185 185 c.

Definition isalpha (c : ascii) : bool :=
  in_range 65 90 c || in_range 97 122 c
  || in_range 170 170 c || in_range 181 181 c || in_range 186 186 c
  || in_range 192 214 c || in_range 216 246 c || in_range 248 255 c.

Definition isalnum (c : ascii) : bool :=
  isalpha c || isdigit c || in_range 188 190 c.

(** ** Outcomes of a call

    A call returns a value and the new state, ends the process through
    [sys.exit] with a message, raises an exception that nothing catches, or
    exhausts the iteration budget of a loop. *)

Inductive outcome (St A : Type) : Type :=
| Ret (a : A) (s : St)
| SysExit (msg : string)
| PyRaise (exn : string)
| OutOfFuel.

Arguments Ret {St A} a s.
Arguments SysExit {St A} msg.
Arguments PyRaise {St A} exn.
Arguments OutOfFuel {St A}.

Definition M (St A : Type) : Type := St -> outcome St A.

Definition ret {St A} (a : A) : M St A := fun s => Ret a s.

Definition bind {St A B} (m : M St A) (k : A -> M St B) : M St B :=
  fun s =>
    match m s with
    | Ret a s' => k a s'
    | SysExit msg => SysExit msg
    | PyRaise e => PyRaise e
    | OutOfFuel => OutOfFuel
    end.

Definition gets {St A} (f : St -> A) : M St A := fun s => Ret (f s) s.
Definition modify {St} (f : St -> St) : M St unit := fun s => Ret tt (f s).
Definition sys_exit {St A} (msg : string) : M St A := fun _ => SysExit msg.
Definition py_raise {St A} (exn : string) : M St A := fun _ => PyRaise exn.

Declare Scope py_scope.
Delimit Scope py_scope with py.
Notation "x <- m ;; k" := (bind m (fun x => k))
  (at level 100, m at next level, right associativity) : py_scope.
Notation "m ;; k" := (bind m (fun _ => k))
  (at level 100, right associativity) : py_scope.
Open Scope py_scope.

(** [while cond: body], run for at most [fuel] iterations. *)
Fixpoint while {St} (fuel : nat) (cond : M St bool) (body : M St unit)
  : M St unit :=
  b <- cond ;;
  if b then
    match fuel with
    | O => fun _ => OutOfFuel
    | S fuel' => body ;; while fuel' cond body
    end
  else ret tt.

(** A loop whose budget is read off the state in which it starts. *)
Definition while_within {St} (budget : St -> nat) (cond : M St bool)
  (body : M St unit) : M St unit :=
  fun s => while (budget s) cond body s.

(** ** lex.py: TokenType and Token *)

Module TokenType.

Inductive t : Type :=
| EOF | NEWLINE | NUMBER | IDENT | STRING
| LABEL | GOTO | PRINT | INPUT | LET | IF | THEN | ENDIF
| WHILE | REPEAT | ENDWHILE
| EQ | PLUS | MINUS | ASTERISK | SLASH | EQEQ | NOTEQ | LT | LTEQ | GT | GTEQ.

Global Instance eq_dec : EqDecision t.
Proof. solve_decision. Defined.

Definition value (k : t) : Z :=
  match k with
  | EOF => -1 | NEWLINE => 0 | NUMBER => 1 | IDENT => 2 | STRING => 3
  | LABEL => 101 | GOTO => 102 | PRINT => 103 | INPUT => 104 | LET => 105
  | IF => 106 | THEN => 107 | ENDIF => 108 | WHILE => 109 | REPEAT => 110
  | ENDWHILE => 111
  | EQ => 201 | PLUS => 202 | MINUS => 203 | ASTERISK => 204 | SLASH => 205
  | EQEQ => 206 | NOTEQ => 207 | LT => 208 | LTEQ => 209 | GT => 210
  | GTEQ => 211
  end%Z.

Definition name (k : t) : string :=
  match k with
  | EOF => "EOF" | NEWLINE => "NEWLINE" | NUMBER => "NUMBER"
  | IDENT => "IDENT" | STRING => "STRING"
  | LABEL => "LABEL" | GOTO => "GOTO" | PRINT => "PRINT" | INPUT => "INPUT"
  | LET => "LET" | IF => "IF" | THEN => "THEN" | ENDIF => "ENDIF"
  | WHILE => "WHILE" | REPEAT => "REPEAT" | ENDWHILE => "ENDWHILE"
  | EQ => "EQ" | PLUS => "PLUS" | MINUS => "MINUS" | ASTERISK => "ASTERISK"
  | SLASH => "SLASH" | EQEQ => "EQEQ" | NOTEQ => "NOTEQ" | LT => "LT"
  | LTEQ => "LTEQ" | GT => "GT" | GTEQ => "GTEQ"
  end.

(** The members in definition order, as [for kind in TokenType] visits them. *)
Definition members : list t :=
  [EOF; NEWLINE; NUMBER; IDENT; STRING;
   LABEL; GOTO; PRINT; INPUT; LET; IF; THEN; ENDIF; WHILE; REPEAT; ENDWHILE;
   EQ; PLUS; MINUS; ASTERISK; SLASH; EQEQ; NOTEQ; LT; LTEQ; GT; GTEQ].

End TokenType.

Record Token : Type := mkToken { text : string; kind : TokenType.t }.

(** The [for] loop of [Token.mapTextToKeywordType] over the members left. *)
Fixpoint mapTextToKeywordType_from (kinds : list TokenType.t)
  (tokenText : string) : option TokenType.t :=
  match kinds with
  | [] => None
  | kind :: rest =>
      if String.eqb (TokenType.name kind) tokenText
         && (TokenType.value kind >=? 100)%Z
         && (TokenType.value kind <? 200)%Z
      then Some kind
      else mapTextToKeywordType_from rest tokenText
  end.

Definition mapTextToKeywordType (tokenText : string) : option TokenType.t :=
  mapTextToKeywordType_from TokenType.members tokenText.

(** ** lex.py: Lexer *)

Record Lexer : Type := mkLexer {
  source : string;   (* the text to lex, newline appended *)
  curChar : ascii;   (* current character *)
  curPos : Z         (* current position *)
}.

Module Lexer.

Definition EOF : ascii := NUL.
Definition NEWLINE : ascii := LF.
Definition HASHMARK : ascii := "#"%char.
Definition WHITESPACE : list ascii := [" "%char; TAB; CR].
Definition DOUBLEQUOTE : ascii := QUOTE.

(** Iterations any scanning loop can need from this state on: one per
    position still ahead, and one more. *)
Definition ahead (l : Lexer) : nat := S (Z.to_nat (len (source l) - curPos l)).

Definition skipCurChar : M Lexer unit :=
  fun l =>
    let pos := (curPos l + 1)%Z in
    if (pos >=? len (source l))%Z
    then Ret tt (mkLexer (source l) EOF pos)
    else match py_getitem (source l) pos with
         | Some c => Ret tt (mkLexer (source l) c pos)
         | None => PyRaise "IndexError"
         end.

Definition peek : M Lexer ascii :=
  fun l =>
    if (curPos l + 1 >=? len (source l))%Z
    then Ret EOF l
    else match py_getitem (source l) (curPos l + 1) with
         | Some c => Ret c l
         | None => PyRaise "IndexError"
         end.

Definition abort {A} (message : string) : M Lexer A :=
  sys_exit ("Lexing error. " +:+ message).

Definition skipWhitespace : M Lexer unit :=
  while_within ahead
    (gets (fun l => bool_decide (curChar l ∈ WHITESPACE)))
    skipCurChar.

Definition skipComment : M Lexer unit :=
  c <- gets curChar ;;
  if Ascii.eqb c HASHMARK
  then while_within ahead
         (gets (fun l => negb (Ascii.eqb (curChar l) NEWLINE)))
         skipCurChar
  else ret tt.

(** The branches for [=], [>] and [<]: one token kind when [=] follows,
    another when it does not. *)
Definition op_or_op_eq (plain with_eq : TokenType.t) : M Lexer Token :=
  p <- peek ;;
  if Ascii.eqb p "="%char
  then lastChar <- gets curChar ;;
       skipCurChar ;;
       c <- gets curChar ;;
       ret (mkToken (str lastChar +:+ str c) with_eq)
  else c <- gets curChar ;;
       ret (mkToken (str c) plain).

Definition illegal_in_string (c : ascii) : bool :=
  Ascii.eqb c CR || Ascii.eqb c LF || Ascii.eqb c TAB
  || Ascii.eqb c BACKSLASH || Ascii.eqb c "%"%char.

(** The branch of [getToken] for [!]. *)
Definition bang_branch : M Lexer Token :=
  p <- peek ;;
  if Ascii.eqb p "="%char
  then lastChar <- gets curChar ;;
       skipCurChar ;;
       c <- gets curChar ;;
       ret (mkToken (str lastChar +:+ str c) TokenType.NOTEQ)
  else p' <- peek ;;
       abort ("Expected !=, got !" +:+ str p').

(** The branch of [getToken] for a double quote. *)
Definition string_branch : M Lexer Token :=
  skipCurChar ;;
  startPos <- gets curPos ;;
  while_within ahead
    (gets (fun l => negb (Ascii.eqb (curChar l) DOUBLEQUOTE)))
    (c <- gets curChar ;;
     (if illegal_in_string c
      then abort "Illegal character in string."
      else ret tt) ;;
     skipCurChar) ;;
  l <- gets id ;;
  ret (mkToken (py_slice (source l) startPos (curPos l)) TokenType.STRING).

(** The branch of [getToken] for a leading digit. *)
Definition number_branch : M Lexer Token :=
  startPos <- gets curPos ;;
  while_within ahead (p <- peek ;; ret (isdigit p)) skipCurChar ;;
  p <- peek ;;
  (if Ascii.eqb p "."%char
   then skipCurChar ;;
        p' <- peek ;;
        (if negb (isdigit p')
         then abort "Illegal character in number."
         else ret tt) ;;
        while_within ahead (p <- peek ;; ret (isdigit p)) skipCurChar
   else ret tt) ;;
  l <- gets id ;;
  ret (mkToken (py_slice (source l) startPos (curPos l + 1)) TokenType.NUMBER).

(** The branch of [getToken] for a leading letter. *)
Definition word_branch : M Lexer Token :=
  startPos <- gets curPos ;;
  while_within ahead (p <- peek ;; ret (isalnum p)) skipCurChar ;;
  l <- gets id ;;
  let tokenText := py_slice (source l) startPos (curPos l + 1) in
  match mapTextToKeywordType tokenText with
  | None => ret (mkToken tokenText TokenType.IDENT)
  | Some keywordType => ret (mkToken tokenText keywordType)
  end.

(** The token that starts at the current character: the [if]/[elif]
    chain of [getToken], before the closing [skipCurChar]. *)
Definition classify : M Lexer Token :=
  c <- gets curChar ;;
  if Ascii.eqb c "+"%char then ret (mkToken (str c) TokenType.PLUS)
  else if Ascii.eqb c "-"%char then ret (mkToken (str c) TokenType.MINUS)
  else if Ascii.eqb c "*"%char then ret (mkToken (str c) TokenType.ASTERISK)
  else if Ascii.eqb c "/"%char then ret (mkToken (str c) TokenType.SLASH)
  else if Ascii.eqb c NEWLINE then ret (mkToken (str c) TokenType.NEWLINE)
  else if Ascii.eqb c EOF then ret (mkToken (str c) TokenType.EOF)
  else if Ascii.eqb c "="%char then op_or_op_eq TokenType.EQ TokenType.EQEQ
  else if Ascii.eqb c ">"%char then op_or_op_eq TokenType.GT TokenType.GTEQ
  else if Ascii.eqb c "<"%char then op_or_op_eq TokenType.LT TokenType.LTEQ
  else if Ascii.eqb c "!"%char then bang_branch
  else if Ascii.eqb c DOUBLEQUOTE then string_branch
  else if isdigit c then number_branch
  else if isalpha c then word_branch
  else abort ("Unknow token: " +:+ str c).

Definition getToken : M Lexer Token :=
  skipWhitespace ;;
  skipComment ;;
  token <- classify ;;
  skipCurChar ;;
  ret token.

(** [Lexer(source)]: the empty initial [curChar] is overwritten by the
    constructor's own [skipCurChar] before anything reads it. *)
Definition init (src : string) : outcome Lexer unit :=
  skipCurChar (mkLexer (src +:+ str NEWLINE) EOF (-1)).

End Lexer.

(** ** emit.py: Emitter *)

(** Modelled from the spec: [emit.py] is not among the sources.  The state
    is two ordered sequences of text lines (header, body) and the output
    destination; [pending] is the body line that was started and is not
    terminated yet. *)
Record Emitter : Type := mkEmitter {
  fullPath : string;
  header : list string;
  body : list string;
  pending : string
}.

Module Emitter.

(** Modelled from the spec: the emitter is created empty. *)
Definition init (path : string) : Emitter := mkEmitter path [] [] "".

(** Modelled from the spec: [emit] appends the text to the tail of the
    most recently started body line without terminating it. *)
Definition emit (code : string) (e : Emitter) : Emitter :=
  mkEmitter (fullPath e) (header e) (body e) (pending e +:+ code).

(** Modelled from the spec: [emitLine] appends the text and terminates
    the line. *)
Definition emitLine (code : string) (e : Emitter) : Emitter :=
  mkEmitter (fullPath e) (header e) (body e ++ [pending e +:+ code]) "".

(** Modelled from the spec: [headerLine] appends a complete, terminated
    line to the header buffer, independent of the body-line state. *)
Definition headerLine (code : string) (e : Emitter) : Emitter :=
  mkEmitter (fullPath e) (header e ++ [code]) (body e) (pending e).

(** Each line followed by its terminator. *)
Fixpoint unlines (lines : list string) : string :=
  match lines with
  | [] => ""
  | line :: rest => line +:+ str LF +:+ unlines rest
  end.

(** Modelled from the spec: the text that is persisted is the header
    buffer followed by the body buffer. *)
Definition contents (e : Emitter) : string :=
  unlines (header e) +:+ unlines (body e) +:+ pending e.

(** Modelled from the spec: [writeFile] persists that text at the
    destination; the write is returned as the pair of the path and the
    text. *)
Definition writeFile (e : Emitter) : string * string :=
  (fullPath e, contents e).

End Emitter.

(** ** parse.py: Parser *)

Record Parser : Type := mkParser {
  lexer : Lexer;
  emitter : Emitter;
  symbolsDeclared : gset string;   (* variables declared so far *)
  labelsDeclared : gset string;    (* labels declared so far *)
  labelsGotoed : gset string;      (* labels goto'ed so far *)
  curToken : option Token;         (* [None] is Python's None *)
  peekToken : option Token
}.

Definition set_lexer (l : Lexer) (p : Parser) : Parser :=
  mkParser l (emitter p) (symbolsDeclared p) (labelsDeclared p)
    (labelsGotoed p) (curToken p) (peekToken p).
Definition set_emitter (e : Emitter) (p : Parser) : Parser :=
  mkParser (lexer p) e (symbolsDeclared p) (labelsDeclared p)
    (labelsGotoed p) (curToken p) (peekToken p).
Definition set_symbolsDeclared (x : gset string) (p : Parser) : Parser :=
  mkParser (lexer p) (emitter p) x (labelsDeclared p)
    (labelsGotoed p) (curToken p) (peekToken p).
Definition set_labelsDeclared (x : gset string) (p : Parser) : Parser :=
  mkParser (lexer p) (emitter p) (symbolsDeclared p) x
    (labelsGotoed p) (curToken p) (peekToken p).
Definition set_labelsGotoed (x : gset string) (p : Parser) : Parser :=
  mkParser (lexer p) (emitter p) (symbolsDeclared p) (labelsDeclared p)
    x (curToken p) (peekToken p).
Definition set_curToken (t : option Token) (p : Parser) : Parser :=
  mkParser (lexer p) (emitter p) (symbolsDeclared p) (labelsDeclared p)
    (labelsGotoed p) t (peekToken p).
Definition set_peekToken (t : option Token) (p : Parser) : Parser :=
  mkParser (lexer p) (emitter p) (symbolsDeclared p) (labelsDeclared p)
    (labelsGotoed p) (curToken p) t.

(** Short-circuit [or] of two conditions. *)
Definition or_else {St} (a b : M St bool) : M St bool :=
  x <- a ;; if x then ret true else b.

(** [for x in xs: body]. *)
Fixpoint for_each {St A} (xs : list A) (body : A -> M St unit) : M St unit :=
  match xs with
  | [] => ret tt
  | x :: rest => body x ;; for_each rest body
  end.

Module Parser.

(** A call into [self.lexer]. *)
Definition on_lexer {A} (m : M Lexer A) : M Parser A :=
  fun p =>
    match m (lexer p) with
    | Ret a l => Ret a (set_lexer l p)
    | SysExit msg => SysExit msg
    | PyRaise e => PyRaise e
    | OutOfFuel => OutOfFuel
    end.

(** A call into [self.emitter]. *)
Definition on_emitter (f : Emitter -> Emitter) : M Parser unit :=
  modify (fun p => set_emitter (f (emitter p)) p).

Definition emit (code : string) : M Parser unit :=
  on_emitter (Emitter.emit code).
Definition emitLine (code : string) : M Parser unit :=
  on_emitter (Emitter.emitLine code).
Definition headerLine (code : string) : M Parser unit :=
  on_emitter (Emitter.headerLine code).

(** Iterations a token loop, or the nesting of statements, can need: the
    tokens still to be lexed, and the two that are buffered. *)
Definition budget (p : Parser) : nat := S (S (Lexer.ahead (lexer p))).

Definition abort {A} (message : string) : M Parser A :=
  sys_exit ("Error. " +:+ message).

(** [self.curToken] where an attribute of it is read. *)
Definition cur : M Parser Token :=
  fun p =>
    match curToken p with
    | Some t => Ret t p
    | None => PyRaise "AttributeError"
    end.

Definition curTokeHasType (kind' : TokenType.t) : M Parser bool :=
  t <- cur ;; ret (bool_decide (kind' = kind t)).

Definition curTokenIsComparisonOperator : M Parser bool :=
  or_else (curTokeHasType TokenType.GT)
 (or_else (curTokeHasType TokenType.GTEQ)
 (or_else (curTokeHasType TokenType.LT)
 (or_else (curTokeHasType TokenType.LTEQ)
 (or_else (curTokeHasType TokenType.EQEQ)
          (curTokeHasType TokenType.NOTEQ))))).

Definition skipCurToken (requiredType : option TokenType.t) : M Parser unit :=
  match requiredType with
  | Some required =>
      b <- curTokeHasType required ;;
      if negb b
      then t <- cur ;;
           abort ("Expected " +:+ TokenType.name required +:+ ", got "
                  +:+ TokenType.name (kind t))
      else ret tt
  | None => ret tt
  end ;;
  modify (fun p => set_curToken (peekToken p) p) ;;
  token <- on_lexer Lexer.getToken ;;
  modify (set_peekToken (Some token)).

(** [Parser(lexer, emitter)]. *)
Definition init (lexer : Lexer) (emitter : Emitter) : outcome Parser unit :=
  (skipCurToken None ;; skipCurToken None)
    (mkParser lexer emitter ∅ ∅ ∅ None None).

Definition nl : M Parser unit :=
  skipCurToken (Some TokenType.NEWLINE) ;;
  while_within budget (curTokeHasType TokenType.NEWLINE) (skipCurToken None).

Definition primary : M Parser unit :=
  isNumber <- curTokeHasType TokenType.NUMBER ;;
  if isNumber then
    t <- cur ;; emit (text t) ;; skipCurToken None
  else
    isIdent <- curTokeHasType TokenType.IDENT ;;
    if isIdent then
      t <- cur ;;
      declared <- gets symbolsDeclared ;;
      (if bool_decide (text t ∈ declared)
       then ret tt
       else abort ("Referencing variable before assignment: " +:+ text t)) ;;
      emit (text t) ;;
      skipCurToken None
    else
      t <- cur ;; abort ("Unexpected token at " +:+ text t).

Definition unary : M Parser unit :=
  sign <- or_else (curTokeHasType TokenType.PLUS)
                  (curTokeHasType TokenType.MINUS) ;;
  (if sign then t <- cur ;; emit (text t) ;; skipCurToken None else ret tt) ;;
  primary.

Definition term : M Parser unit :=
  unary ;;
  while_within budget
    (or_else (curTokeHasType TokenType.ASTERISK)
             (curTokeHasType TokenType.SLASH))
    (t <- cur ;; emit (text t) ;; skipCurToken None ;; unary).

Definition expression : M Parser unit :=
  term ;;
  while_within budget
    (or_else (curTokeHasType TokenType.PLUS)
             (curTokeHasType TokenType.MINUS))
    (t <- cur ;; emit (text t) ;; skipCurToken None ;; term).

Definition comparison : M Parser unit :=
  expression ;;
  isOp <- curTokenIsComparisonOperator ;;
  (if isOp
   then t <- cur ;; emit (text t) ;; skipCurToken None ;; expression
   else t <- cur ;;
        abort ("Expected comparison operator at: " +:+ text t)) ;;
  while_within budget curTokenIsComparisonOperator
    (t <- cur ;; emit (text t) ;; skipCurToken None ;; expression).

(** The first-use declaration shared by the LET and INPUT branches. *)
Definition declare_on_first_use (ident : string) : M Parser unit :=
  declared <- gets symbolsDeclared ;;
  if bool_decide (ident ∈ declared)
  then ret tt
  else modify (fun p => set_symbolsDeclared ({[ident]} ∪ symbolsDeclared p) p) ;;
       headerLine ("float " +:+ ident +:+ ";").

(** The LET branch up to the point where the right-hand side is parsed. *)
Definition let_head : M Parser unit :=
  skipCurToken None ;;
  t <- cur ;;
  declare_on_first_use (text t) ;;
  emit (text t +:+ " = ") ;;
  skipCurToken (Some TokenType.IDENT) ;;
  skipCurToken (Some TokenType.EQ).

(** [statement]; [depth] bounds how deeply IF and WHILE blocks nest. *)
Fixpoint statement (depth : nat) : M Parser unit :=
  match depth with
  | O => fun _ => OutOfFuel
  | S depth' =>
    (isPrint <- curTokeHasType TokenType.PRINT ;;
     if isPrint then
       skipCurToken None ;;
       isString <- curTokeHasType TokenType.STRING ;;
       if isString then
         t <- cur ;;
         emitLine ("printf(" +:+ str QUOTE +:+ text t +:+ "\n" +:+ str QUOTE
                   +:+ ");") ;;
         skipCurToken None
       else
         emit ("printf(" +:+ str QUOTE +:+ "%.2f\n" +:+ str QUOTE
               +:+ ", (float)(") ;;
         expression ;;
         emitLine "));"
     else
     isIf <- curTokeHasType TokenType.IF ;;
     if isIf then
       skipCurToken None ;;
       emit "if(" ;;
       comparison ;;
       skipCurToken (Some TokenType.THEN) ;;
       nl ;;
       emitLine "){" ;;
       while_within budget
         (b <- curTokeHasType TokenType.ENDIF ;; ret (negb b))
         (statement depth') ;;
       skipCurToken (Some TokenType.ENDIF) ;;
       emitLine "}"
     else
     isWhile <- curTokeHasType TokenType.WHILE ;;
     if isWhile then
       skipCurToken None ;;
       emit "while(" ;;
       comparison ;;
       skipCurToken (Some TokenType.REPEAT) ;;
       nl ;;
       emitLine "){" ;;
       while_within budget
         (b <- curTokeHasType TokenType.ENDWHILE ;; ret (negb b))
         (statement depth') ;;
       skipCurToken (Some TokenType.ENDWHILE) ;;
       emitLine "}"
     else
     isLabel <- curTokeHasType TokenType.LABEL ;;
     if isLabel then
       skipCurToken None ;;
       t <- cur ;;
       declared <- gets labelsDeclared ;;
       (if bool_decide (text t ∈ declared)
        then abort ("Label already exists: " +:+ text t)
        else ret tt) ;;
       modify (fun p => set_labelsDeclared ({[text t]} ∪ labelsDeclared p) p) ;;
       emitLine (text t +:+ ":") ;;
       skipCurToken (Some TokenType.IDENT)
     else
     isGoto <- curTokeHasType TokenType.GOTO ;;
     if isGoto then
       skipCurToken None ;;
       t <- cur ;;
       modify (fun p => set_labelsGotoed ({[text t]} ∪ labelsGotoed p) p) ;;
       emitLine ("goto " +:+ text t +:+ ";") ;;
       skipCurToken (Some TokenType.IDENT)
     else
     isLet <- curTokeHasType TokenType.LET ;;
     if isLet then
       let_head ;;
       expression ;;
       emitLine ";"
     else
     isInput <- curTokeHasType TokenType.INPUT ;;
     if isInput then
       skipCurToken None ;;
       t <- cur ;;
       declare_on_first_use (text t) ;;
       emitLine ("if(0 == scanf(" +:+ str QUOTE +:+ "%f" +:+ str QUOTE
                 +:+ ", &" +:+ text t +:+ ")) {") ;;
       emitLine (text t +:+ " = 0;") ;;
       emit ("scanf(" +:+ str QUOTE +:+ "%") ;;
       emitLine ("*s" +:+ str QUOTE +:+ ");") ;;
       emitLine "}" ;;
       skipCurToken (Some TokenType.IDENT)
     else
       t <- cur ;;
       abort ("Invalid statement at " +:+ text t +:+ " ("
              +:+ TokenType.name (kind t) +:+ ")")) ;;
    nl
  end.

(** [program] up to the end of the statement loop. *)
Definition program_statements : M Parser unit :=
  headerLine "#include <stdio.h>" ;;
  headerLine "int main(void){" ;;
  while_within budget (curTokeHasType TokenType.NEWLINE) (skipCurToken None) ;;
  (fun p =>
     while (budget p)
       (b <- curTokeHasType TokenType.EOF ;; ret (negb b))
       (statement (budget p)) p).

(** The body of the loop that checks the GOTO targets. *)
Definition check_label (label : string) : M Parser unit :=
  declared <- gets labelsDeclared ;;
  if bool_decide (label ∈ declared)
  then ret tt
  else abort ("Attempting to GOTO to undeclared label: " +:+ label).

(** The check that each label referenced in a GOTO is declared.  Python
    does not fix the order in which a set is walked; [order] lists the
    members of a set in the order of this run. *)
Definition check_labels (order : gset string -> list string) : M Parser unit :=
  gotoed <- gets labelsGotoed ;;
  for_each (order gotoed) check_label.

Definition program (order : gset string -> list string) : M Parser unit :=
  program_statements ;;
  check_labels order ;;
  emitLine "return 0;" ;;
  emitLine "}".

End Parser.

(** ** teenytiny.py: the driver *)

(** Lines 16 to 20 of [main]: the lexer, the emitter and the parser are
    built and the parser is run. *)
Definition compile (order : gset string -> list string) (source : string)
  : outcome Parser unit :=
  match Lexer.init source with
  | Ret _ lexer =>
      match Parser.init lexer (Emitter.init "out.c") with
      | Ret _ parser => Parser.program order parser
      | SysExit msg => SysExit msg
      | PyRaise e => PyRaise e
      | OutOfFuel => OutOfFuel
      end
  | SysExit msg => SysExit msg
  | PyRaise e => PyRaise e
  | OutOfFuel => OutOfFuel
  end.

(** The text of the output artifact of a compilation that completed. *)
Definition output_text (r : outcome Parser unit) : option string :=
  match r with
  | Ret _ p => Some (Emitter.contents (emitter p))
  | _ => None
  end.

(** How a run of the process ends. *)
Inductive ending : Type :=
| Completed                      (* [main] returned *)
| Exited (msg : string)          (* [sys.exit(msg)] *)
| Uncaught (exn : string)        (* an exception reached the top *)
| Unfinished.                    (* a loop budget ran out *)

(** What a run leaves behind: how it ended, the writes to files in the
    order they were made (path and text), and the lines printed on standard
    output. *)
Record run : Type := mkRun {
  ended : ending;
  written : list (string * string);
  printed : list string
}.

(** [main()], given [sys.argv] and the files that can be read. *)
Definition main (order : gset string -> list string) (argv : list string)
  (files : gmap string string) : run :=
  let out := ["Teeny Tiny Compiler"] in
  match argv with
  | [_; path] =>
      match files !! path with
      | None => mkRun (Uncaught "FileNotFoundError") [] out
      | Some source =>
          match compile order source with
          | Ret _ parser =>
              mkRun Completed [Emitter.writeFile (emitter parser)]
                (out ++ ["Compiling completed."])
          | SysExit msg => mkRun (Exited msg) [] out
          | PyRaise e => mkRun (Uncaught e) [] out
          | OutOfFuel => mkRun Unfinished [] out
          end
      end
  | _ => mkRun (Exited "Error: Compiler needs source file as argument.") [] out
  end.

(** ** Notions the statements are phrased in *)

(** The character at index [n], the end-of-input sentinel past the end. *)
Definition char_or_eof (s : string) (n : nat) : ascii :=
  match String.get n s with
  | Some c => c
  | None => Lexer.EOF
  end.

(** The lexer state that stands at index [n] of [s]. *)
Definition at_pos (s : string) (n : nat) : Lexer :=
  mkLexer s (char_or_eof s n) (Z.of_nat n).

(** The current character is the one the position designates. *)
Definition consistent (l : Lexer) : Prop :=
  (0 <= curPos l)%Z /\ curChar l = char_or_eof (source l) (Z.to_nat (curPos l)).

(** The text from index [n] on. *)
Fixpoint text_from (n : nat) (s : string) : string :=
  match n, s with
  | O, _ => s
  | S n', String _ r => text_from n' r
  | S _, EmptyString => EmptyString
  end.

(** The longest prefix whose characters all satisfy [f], and what follows. *)
Fixpoint run_of (f : ascii -> bool) (s : string) : string :=
  match s with
  | String c r => if f c then String c (run_of f r) else EmptyString
  | EmptyString => EmptyString
  end.

Fixpoint after_run (f : ascii -> bool) (s : string) : string :=
  match s with
  | String c r => if f c then after_run f r else s
  | EmptyString => EmptyString
  end.

(** The tokens of the first [n] calls of [getToken]; the stream stops
    where a call does not return. *)
Fixpoint pull (n : nat) (l : Lexer) : list Token :=
  match n with
  | O => []
  | S n' =>
      match Lexer.getToken l with
      | Ret t l' => t :: pull n' l'
      | _ => []
      end
  end.

(** [order] walks a set: it lists exactly the members. *)
Definition walks (order : gset string -> list string) : Prop :=
  forall (X : gset string) (x : string), x ∈ order X <-> x ∈ X.

(** The declaration line of a variable. *)
Definition declaration (x : string) : string := "float " +:+ x +:+ ";".

(** Every returning call of [m] takes a state to an [R]-related one. *)
Definition steps {St A} (R : St -> St -> Prop) (m : M St A) : Prop :=
  forall s a s', m s = Ret a s' -> R s s'.

(** Whether the character [c] occurs in [s]. *)
Fixpoint has_char (c : ascii) (s : string) : bool :=
  match s with
  | String c' r => Ascii.eqb c' c || has_char c r
  | EmptyString => false
  end.

(** The scan went on in the same text and did not move back. *)
Definition advances (l l' : Lexer) : Prop :=
  source l' = source l /\ (curPos l <= curPos l')%Z.

(** The scan went on, and a consistent state stayed consistent. *)
Definition proceeds (l l' : Lexer) : Prop :=
  advances l l' /\ (consistent l -> consistent l').

(** The parser's tables and the header only grow, and the output
    destination stays. *)
Definition grows (p p' : Parser) : Prop :=
  symbolsDeclared p ⊆ symbolsDeclared p'
  /\ labelsDeclared p ⊆ labelsDeclared p'
  /\ labelsGotoed p ⊆ labelsGotoed p'
  /\ (forall line : string,
        line ∈ header (emitter p) -> line ∈ header (emitter p'))
  /\ fullPath (emitter p') = fullPath (emitter p).

(** The header holds the declaration of a variable at most once, and only
    of a variable that is in the declared set. *)
Definition declared_once (p : Parser) : Prop :=
  forall x : string,
    count_occ String.string_dec (header (emitter p)) (declaration x)
    <= (if bool_decide (x ∈ symbolsDeclared p) then 1 else 0).

(** A property of the state that holds after when it held before. *)
Definition keeps {St} (I : St -> Prop) (s s' : St) : Prop := I s -> I s'.

(** The kinds of the comparison operators. *)
Definition comparison_operators : list TokenType.t :=
  [TokenType.EQEQ; TokenType.NOTEQ; TokenType.GT; TokenType.GTEQ;
   TokenType.LT; TokenType.LTEQ].

(** The call does not raise and does not run out of budget, and when it
    returns, [Q] holds of the value and the state. *)
Definition wp {St A} (r : outcome St A) (Q : A -> St -> Prop) : Prop :=
  match r with
  | Ret a s => Q a s
  | SysExit _ => True
  | PyRaise _ => False
  | OutOfFuel => False
  end.

(** The text ends with a newline, as the text of every lexer does. *)
Definition ends_nl (s : string) : Prop := exists pre, s = pre +:+ str LF.

(** A newline stands at index [n] or later. *)
Definition nl_ahead (s : string) (n : nat) : Prop :=
  exists j, n <= j /\ String.get j s = Some LF.

(** The parser states that [Parser.init] and the productions build: the
    lexer is consistent on a text that ends with a newline, both token
    slots are filled, and a buffered token that is not EOF was lexed
    before the end of the text. *)
Definition wfp (p : Parser) : Prop :=
  exists s n t t',
    lexer p = at_pos s n /\ ends_nl s
    /\ curToken p = Some t /\ peekToken p = Some t'
    /\ (kind t' <> TokenType.EOF -> n <= String.length s)
    /\ (kind t <> TokenType.EOF -> n <= S (String.length s)).

(** A bound on the tokens that are not EOF and still to be consumed. *)
Definition tokens_left (p : Parser) : nat :=
  Z.to_nat (len (source (lexer p)) + 2 - curPos (lexer p)).

(** The current token is not EOF. *)
Definition cur_not_eof (p : Parser) : Prop :=
  exists t, curToken p = Some t /\ kind t <> TokenType.EOF.

(** The updates of the emitter and of the tables leave these alone. *)
Definition same_tokens (p p' : Parser) : Prop :=
  lexer p' = lexer p /\ curToken p' = curToken p
  /\ peekToken p' = peekToken p.

(** What [classify] leaves: the position did not go back, and a token that
    is not EOF ends inside the text. *)
Definition classified (s : string) (n : nat) (t : Token) (l' : Lexer) : Prop :=
  exists n',
    l' = at_pos s n' /\ n <= n'
    /\ ((kind t = TokenType.EOF /\ n' = n)
        \/ (kind t <> TokenType.EOF /\ n' < String.length s)).

(** The parser's lexer went on in the same text and did not move back;
    or moved forward. *)
Definition padvances (p p' : Parser) : Prop := advances (lexer p) (lexer p').

Definition pmoves (p p' : Parser) : Prop :=
  source (lexer p') = source (lexer p)
  /\ (curPos (lexer p) < curPos (lexer p'))%Z.

(** From a well-formed state the call neither raises nor exhausts its
    budget, and it returns a well-formed state. *)
Definition safe {A} (m : M Parser A) : Prop :=
  forall p, wfp p -> wp (m p) (fun _ p' => wfp p').

(** A condition that only reads the state. *)
Definition reads (c : M Parser bool) : Prop :=
  forall p, wfp p -> exists b, c p = Ret b p.

(** The three tables of the parser are the same. *)
Definition same_tables (p p' : Parser) : Prop :=
  symbolsDeclared p' = symbolsDeclared p
  /\ labelsDeclared p' = labelsDeclared p
  /\ labelsGotoed p' = labelsGotoed p.

(** The end-of-input token. *)
Definition eof_token : Token := mkToken (str Lexer.EOF) TokenType.EOF.

(** * Properties *)

(** ** The monad *)

Lemma bind_Ret {St A B} (m : M St A) (k : A -> M St B) s b s' :
  bind m k s = Ret b s' ->
  exists a s1, m s = Ret a s1 /\ k a s1 = Ret b s'.
Proof.
  unfold bind. destruct (m s) as [a s1| | |]; try discriminate.
  intros H. exists a, s1. split; [reflexivity | exact H].
Qed.

Lemma bind_of_Ret {St A B} (m : M St A) (k : A -> M St B) s a s1 :
  m s = Ret a s1 -> bind m k s = k a s1.
Proof. unfold bind. intros ->. reflexivity. Qed.

Section Steps.

Context {St : Type} (R : St -> St -> Prop).
Hypothesis R_refl : forall s, R s s.
Hypothesis R_trans : forall s1 s2 s3, R s1 s2 -> R s2 s3 -> R s1 s3.

Lemma steps_ret {A} (a : A) : steps R (ret a).
Proof using R_refl. intros s a' s' [= _ <-]. apply R_refl. Qed.

Lemma steps_gets {A} (f : St -> A) : steps R (gets f).
Proof using R_refl. intros s a' s' [= _ <-]. apply R_refl. Qed.

Lemma steps_sys_exit {A} msg : steps R (@sys_exit St A msg).
Proof. intros s a s' [=]. Qed.

Lemma steps_py_raise {A} e : steps R (@py_raise St A e).
Proof. intros s a s' [=]. Qed.

Lemma steps_out_of_fuel {A} : steps R (fun _ : St => @OutOfFuel St A).
Proof. intros s a s' [=]. Qed.

Lemma steps_modify (f : St -> St) : (forall s, R s (f s)) -> steps R (modify f).
Proof. intros Hf s a s' [= _ <-]. apply Hf. Qed.

Lemma steps_bind {A B} (m : M St A) (k : A -> M St B) :
  steps R m -> (forall a, steps R (k a)) -> steps R (bind m k).
Proof using R_trans.
  intros Hm Hk s b s' H.
  apply bind_Ret in H as (a & s1 & H1 & H2).
  eapply R_trans; [eapply Hm, H1 | eapply Hk, H2].
Qed.

Lemma steps_while fuel (cond : M St bool) (body : M St unit) :
  steps R cond -> steps R body -> steps R (while fuel cond body).
Proof using R_refl R_trans.
  intros Hc Hb. induction fuel as [|fuel IH]; simpl.
  - apply steps_bind; [exact Hc|]. intros [|]; [apply steps_out_of_fuel | apply steps_ret].
  - apply steps_bind; [exact Hc|]. intros [|]; [|apply steps_ret].
    apply steps_bind; [exact Hb | intros _; exact IH].
Qed.

Lemma steps_while_within budget (cond : M St bool) (body : M St unit) :
  steps R cond -> steps R body -> steps R (while_within budget cond body).
Proof using R_refl R_trans.
  intros Hc Hb s a s' H. unfold while_within in H.
  eapply steps_while; eauto.
Qed.

Lemma steps_or_else (a b : M St bool) :
  steps R a -> steps R b -> steps R (or_else a b).
Proof using R_refl R_trans.
  intros Ha Hb. unfold or_else. apply steps_bind; [exact Ha|].
  intros [|]; [apply steps_ret | exact Hb].
Qed.

Lemma steps_for_each {A} (xs : list A) (body : A -> M St unit) :
  (forall x, steps R (body x)) -> steps R (for_each xs body).
Proof using R_refl R_trans.
  intros Hb. induction xs as [|x xs IH]; simpl.
  - apply steps_ret.
  - apply steps_bind; [apply Hb | intros _; exact IH].
Qed.

End Steps.

Create HintDb steps.

(** Breaks a goal [steps R m] down along the structure of [m]. *)
Ltac steps_go :=
  repeat first
    [ solve [eauto with steps]
    | apply steps_ret; solve [eauto with steps]
    | apply steps_gets; solve [eauto with steps]
    | apply steps_sys_exit
    | apply steps_py_raise
    | apply steps_out_of_fuel
    | apply steps_bind; [solve [eauto with steps] | | intro]
    | apply steps_while_within;
      [solve [eauto with steps] | solve [eauto with steps] | | ]
    | apply steps_or_else;
      [solve [eauto with steps] | solve [eauto with steps] | | ]
    | apply steps_for_each;
      [solve [eauto with steps] | solve [eauto with steps] | intro]
    | match goal with
      | |- steps _ (let _ := _ in _) => cbv zeta
      | |- steps _ (if ?b then _ else _) => destruct b
      | |- steps _ (match ?x with _ => _ end) => destruct x
      end ].

(** ** Keyword lookup *)

Lemma mapTextToKeywordType_from_sound kinds tokenText K :
  mapTextToKeywordType_from kinds tokenText = Some K ->
  TokenType.name K = tokenText /\ (100 <= TokenType.value K < 200)%Z.
Proof.
  induction kinds as [|k kinds IH]; simpl; [discriminate|].
  destruct (String.eqb (TokenType.name k) tokenText) eqn:En; simpl; [|exact IH].
  destruct (TokenType.value k >=? 100)%Z eqn:E1; simpl; [|exact IH].
  destruct (TokenType.value k <? 200)%Z eqn:E2; simpl; [|exact IH].
  intros [= <-]. apply String.eqb_eq in En. split; [exact En | lia].
Qed.

Lemma mapTextToKeywordType_complete K :
  (100 <= TokenType.value K < 200)%Z ->
  mapTextToKeywordType (TokenType.name K) = Some K.
Proof. destruct K; simpl; intros H; try lia; reflexivity. Qed.

Lemma keyword_kind_not_EOF tokenText :
  mapTextToKeywordType tokenText <> Some TokenType.EOF.
Proof.
  intros H. apply mapTextToKeywordType_from_sound in H as [_ H].
  simpl in H. lia.
Qed.

(** C6. The keyword lookup is a total function without effects: it returns
    the kind [K] exactly when [K]'s enumeration name is the text and [K]'s
    value lies in the keyword band from 100 up to, not including, 200; for
    every other text, the names of kinds outside the band such as EOF and EQ
    among them, it returns the not-a-keyword result. *)
Theorem mapTextToKeywordType_spec (tokenText : string) :
  (forall K, mapTextToKeywordType tokenText = Some K <->
             TokenType.name K = tokenText /\
             (100 <= TokenType.value K < 200)%Z)
  /\ (mapTextToKeywordType tokenText = None <->
      ~ exists K, TokenType.name K = tokenText /\
                  (100 <= TokenType.value K < 200)%Z)
  /\ mapTextToKeywordType "EOF" = None
  /\ mapTextToKeywordType "EQ" = None.
Proof.
  assert (Hiff : forall K, mapTextToKeywordType tokenText = Some K <->
             TokenType.name K = tokenText /\
             (100 <= TokenType.value K < 200)%Z).
  { intros K. split.
    - apply mapTextToKeywordType_from_sound.
    - intros [<- Hv]. apply mapTextToKeywordType_complete, Hv. }
  split; [exact Hiff|]. split; [|split; reflexivity].
  split.
  - intros HN [K HK]. apply Hiff in HK. congruence.
  - intros Hno. destruct (mapTextToKeywordType tokenText) as [K|] eqn:E;
      [|reflexivity].
    exfalso. apply Hno. exists K.
    apply (mapTextToKeywordType_from_sound _ _ _ E).
Qed.

(** ** Strings *)

Lemma get_text_from n s :
  String.get n s =
  match text_from n s with String c _ => Some c | EmptyString => None end.
Proof.
  revert s. induction n as [|n IH]; intros [|c r]; simpl; try reflexivity.
  apply IH.
Qed.

Lemma text_from_S n s c r :
  text_from n s = String c r -> text_from (S n) s = r.
Proof.
  revert s. induction n as [|n IH]; intros [|c' r']; simpl; try discriminate.
  - intros [= _ <-]. reflexivity.
  - intros H. apply (IH _ H).
Qed.

Lemma text_from_empty n s :
  text_from n s = EmptyString -> text_from (S n) s = EmptyString.
Proof.
  revert s. induction n as [|n IH]; intros [|c' r']; simpl; try discriminate;
    try reflexivity.
  intros H. apply (IH _ H).
Qed.

Lemma length_text_from n s :
  String.length (text_from n s) = String.length s - n.
Proof.
  revert s. induction n as [|n IH]; intros [|c r]; simpl; try reflexivity.
  apply IH.
Qed.

Lemma get_None n s : String.length s <= n -> String.get n s = None.
Proof.
  intros H. rewrite get_text_from.
  pose proof (length_text_from n s) as HL.
  destruct (text_from n s); [reflexivity | simpl in HL; lia].
Qed.

Lemma get_Some n s : n < String.length s -> exists c, String.get n s = Some c.
Proof.
  intros H. rewrite get_text_from.
  pose proof (length_text_from n s) as HL.
  destruct (text_from n s) as [|c r]; [simpl in HL; lia | eauto].
Qed.

Lemma char_or_eof_text_from n s c r :
  text_from n s = String c r -> char_or_eof s n = c.
Proof. intros H. unfold char_or_eof. rewrite get_text_from, H. reflexivity. Qed.

Lemma char_or_eof_past n s :
  text_from n s = EmptyString -> char_or_eof s n = Lexer.EOF.
Proof. intros H. unfold char_or_eof. rewrite get_text_from, H. reflexivity. Qed.

Lemma substring_prefix a b : String.substring 0 (String.length a) (a +:+ b) = a.
Proof.
  induction a as [|c a IH]; simpl.
  - destruct b; reflexivity.
  - rewrite IH. reflexivity.
Qed.

Lemma substring_text_from n s a b :
  text_from n s = a +:+ b -> String.substring n (String.length a) s = a.
Proof.
  revert s. induction n as [|n IH]; intros s H.
  - simpl in H. subst s. apply substring_prefix.
  - destruct s as [|c r]; simpl in H.
    + destruct a; [reflexivity | discriminate].
    + simpl. apply IH, H.
Qed.

Lemma append_String c a b : String c a +:+ b = String c (a +:+ b).
Proof. reflexivity. Qed.

Lemma run_of_after_run f s : run_of f s +:+ after_run f s = s.
Proof.
  induction s as [|c r IH]; simpl; [reflexivity|].
  destruct (f c); [|reflexivity].
  rewrite append_String, IH. reflexivity.
Qed.

Lemma text_from_add n m s : text_from (n + m) s = text_from m (text_from n s).
Proof.
  revert s. induction n as [|n IH]; intros s; simpl; [reflexivity|].
  destruct s as [|c r]; [destruct m; reflexivity | apply IH].
Qed.

Lemma text_from_length_app a b :
  text_from (String.length a) (a +:+ b) = b.
Proof. induction a as [|c a IH]; simpl; [reflexivity | exact IH]. Qed.

(** ** The lexer: single steps *)

Lemma skipCurChar_at l :
  (-1 <= curPos l)%Z ->
  Lexer.skipCurChar l = Ret tt (at_pos (source l) (Z.to_nat (curPos l + 1))).
Proof.
  intros H. unfold Lexer.skipCurChar, at_pos, len.
  rewrite Z2Nat.id by lia.
  destruct (curPos l + 1 >=? Z.of_nat (String.length (source l)))%Z eqn:E.
  - f_equal. f_equal. unfold char_or_eof. rewrite get_None; [reflexivity | lia].
  - unfold py_getitem. destruct (curPos l + 1 <? 0)%Z eqn:E0; [lia|].
    destruct (get_Some (Z.to_nat (curPos l + 1)) (source l)) as [c Hc]; [lia|].
    unfold char_or_eof. rewrite Hc. reflexivity.
Qed.

Lemma peek_at l :
  (-1 <= curPos l)%Z ->
  Lexer.peek l = Ret (char_or_eof (source l) (Z.to_nat (curPos l + 1))) l.
Proof.
  intros H. unfold Lexer.peek, len.
  destruct (curPos l + 1 >=? Z.of_nat (String.length (source l)))%Z eqn:E.
  - f_equal. unfold char_or_eof. rewrite get_None; [reflexivity | lia].
  - unfold py_getitem. destruct (curPos l + 1 <? 0)%Z eqn:E0; [lia|].
    destruct (get_Some (Z.to_nat (curPos l + 1)) (source l)) as [c Hc]; [lia|].
    unfold char_or_eof. rewrite Hc. reflexivity.
Qed.

Lemma skipCurChar_at_pos s n :
  Lexer.skipCurChar (at_pos s n) = Ret tt (at_pos s (S n)).
Proof.
  rewrite skipCurChar_at by (simpl; lia). simpl. do 2 f_equal. lia.
Qed.

Lemma peek_at_pos s n :
  Lexer.peek (at_pos s n) = Ret (char_or_eof s (S n)) (at_pos s n).
Proof.
  rewrite peek_at by (simpl; lia). simpl. do 3 f_equal. lia.
Qed.

Lemma consistent_at_pos l :
  consistent l -> l = at_pos (source l) (Z.to_nat (curPos l)).
Proof.
  intros [H0 Hc]. destruct l as [s c p]; simpl in *. unfold at_pos.
  rewrite <- Hc. rewrite Z2Nat.id by lia. reflexivity.
Qed.

Lemma at_pos_consistent s n : consistent (at_pos s n).
Proof. split; simpl; [lia | rewrite Nat2Z.id; reflexivity]. Qed.

(** ** The lexer: the position only advances *)

Lemma advances_refl l : advances l l.
Proof. split; [reflexivity | lia]. Qed.

Lemma advances_trans l1 l2 l3 : advances l1 l2 -> advances l2 l3 -> advances l1 l3.
Proof. intros [S1 P1] [S2 P2]. split; [congruence | lia]. Qed.

#[export] Hint Resolve advances_refl advances_trans : steps.

Lemma skipCurChar_Ret l u l' :
  Lexer.skipCurChar l = Ret u l' ->
  source l' = source l /\ curPos l' = (curPos l + 1)%Z.
Proof.
  unfold Lexer.skipCurChar.
  destruct (curPos l + 1 >=? len (source l))%Z.
  - intros [= _ <-]. split; reflexivity.
  - destruct (py_getitem (source l) (curPos l + 1)); [|discriminate].
    intros [= _ <-]. split; reflexivity.
Qed.

Lemma peek_Ret l c l' : Lexer.peek l = Ret c l' -> l' = l.
Proof.
  unfold Lexer.peek.
  destruct (curPos l + 1 >=? len (source l))%Z.
  - intros [= _ <-]. reflexivity.
  - destruct (py_getitem (source l) (curPos l + 1)); [|discriminate].
    intros [= _ <-]. reflexivity.
Qed.

Lemma skipCurChar_advances : steps advances Lexer.skipCurChar.
Proof.
  intros l u l' H. apply skipCurChar_Ret in H as [Hs Hp].
  split; [exact Hs | lia].
Qed.

Lemma peek_advances : steps advances Lexer.peek.
Proof. intros l c l' H. apply peek_Ret in H as ->. apply advances_refl. Qed.

#[export] Hint Resolve skipCurChar_advances peek_advances : steps.

Lemma skipWhitespace_advances : steps advances Lexer.skipWhitespace.
Proof. unfold Lexer.skipWhitespace. steps_go. Qed.

Lemma skipComment_advances : steps advances Lexer.skipComment.
Proof. unfold Lexer.skipComment. steps_go. Qed.

Lemma classify_advances : steps advances Lexer.classify.
Proof.
  unfold Lexer.classify, Lexer.op_or_op_eq, Lexer.bang_branch,
    Lexer.string_branch, Lexer.number_branch, Lexer.word_branch, Lexer.abort.
  steps_go.
Qed.

#[export] Hint Resolve skipWhitespace_advances skipComment_advances
  classify_advances : steps.

Lemma getToken_moves l t l' :
  Lexer.getToken l = Ret t l' ->
  source l' = source l /\ (curPos l < curPos l')%Z.
Proof.
  unfold Lexer.getToken. intros H.
  apply bind_Ret in H as (u1 & l1 & H1 & H).
  apply bind_Ret in H as (u2 & l2 & H2 & H).
  apply bind_Ret in H as (tok & l3 & H3 & H).
  apply bind_Ret in H as (u4 & l4 & H4 & H).
  injection H as _ <-.
  apply skipWhitespace_advances in H1 as [S1 P1].
  apply skipComment_advances in H2 as [S2 P2].
  apply classify_advances in H3 as [S3 P3].
  apply skipCurChar_Ret in H4 as [S4 P4].
  split; [congruence | lia].
Qed.

Lemma getToken_advances : steps advances Lexer.getToken.
Proof.
  intros l t l' H. apply getToken_moves in H as [Hs Hp].
  split; [exact Hs | lia].
Qed.

#[export] Hint Resolve getToken_advances : steps.

(** C8. The one-character lookahead does not change the lexer state: on a
    state whose position is at least -1 (every state the constructor and
    the operations build), [peek] returns the character at position + 1, or
    the end-of-input sentinel when position + 1 is past the buffer, and
    leaves the state as it was; and across every lexer operation that
    returns, the position never decreases ([skipCurChar] adds one,
    [getToken] strictly advances). *)
Theorem peek_is_pure_and_position_only_advances (l : Lexer) :
  (-1 <= curPos l)%Z ->
  (exists c, Lexer.peek l = Ret c l /\
     if (curPos l + 1 >=? len (source l))%Z then c = Lexer.EOF
     else String.get (Z.to_nat (curPos l + 1)) (source l) = Some c)
  /\ (forall u l', Lexer.skipCurChar l = Ret u l' ->
        curPos l' = (curPos l + 1)%Z)
  /\ (forall u l', Lexer.skipWhitespace l = Ret u l' ->
        (curPos l <= curPos l')%Z)
  /\ (forall u l', Lexer.skipComment l = Ret u l' ->
        (curPos l <= curPos l')%Z)
  /\ (forall t l', Lexer.getToken l = Ret t l' -> (curPos l < curPos l')%Z).
Proof.
  intros Hpos. repeat split.
  - unfold Lexer.peek.
    destruct (curPos l + 1 >=? len (source l))%Z eqn:E.
    + exists Lexer.EOF. split; reflexivity.
    + unfold py_getitem. destruct (curPos l + 1 <? 0)%Z eqn:E0; [lia|].
      destruct (get_Some (Z.to_nat (curPos l + 1)) (source l)) as [c Hc].
      { unfold len in E. lia. }
      exists c. rewrite Hc. split; reflexivity.
  - intros u l' H. apply skipCurChar_Ret in H as [_ H]. exact H.
  - intros u l' H. apply skipWhitespace_advances in H as [_ H]. exact H.
  - intros u l' H. apply skipComment_advances in H as [_ H]. exact H.
  - intros t l' H. apply getToken_moves in H as [_ H]. exact H.
Qed.

Lemma peek_is_pure_and_position_only_advances_witness :
  let l := at_pos "LET a = 1" 4 in
  (exists c, Lexer.peek l = Ret c l /\
     if (curPos l + 1 >=? len (source l))%Z then c = Lexer.EOF
     else String.get (Z.to_nat (curPos l + 1)) (source l) = Some c)
  /\ (forall u l', Lexer.skipCurChar l = Ret u l' ->
        curPos l' = (curPos l + 1)%Z)
  /\ (forall u l', Lexer.skipWhitespace l = Ret u l' ->
        (curPos l <= curPos l')%Z)
  /\ (forall u l', Lexer.skipComment l = Ret u l' ->
        (curPos l <= curPos l')%Z)
  /\ (forall t l', Lexer.getToken l = Ret t l' -> (curPos l < curPos l')%Z).
Proof.
  apply (peek_is_pure_and_position_only_advances (at_pos "LET a = 1" 4)).
  simpl. lia.
Defined.

(** ** The lexer: consistency is kept *)

Lemma proceeds_refl l : proceeds l l.
Proof. split; [apply advances_refl | auto]. Qed.

Lemma proceeds_trans l1 l2 l3 : proceeds l1 l2 -> proceeds l2 l3 -> proceeds l1 l3.
Proof. intros [A1 C1] [A2 C2]. split; [eapply advances_trans; eauto | auto]. Qed.

#[export] Hint Resolve proceeds_refl proceeds_trans : steps.

Lemma skipCurChar_proceeds : steps proceeds Lexer.skipCurChar.
Proof.
  intros l u l' H. split; [eapply skipCurChar_advances, H|].
  intros [H0 _]. rewrite skipCurChar_at in H by lia.
  injection H as H. subst l'. apply at_pos_consistent.
Qed.

Lemma peek_proceeds : steps proceeds Lexer.peek.
Proof. intros l c l' H. apply peek_Ret in H as ->. apply proceeds_refl. Qed.

#[export] Hint Resolve skipCurChar_proceeds peek_proceeds : steps.

Lemma skipWhitespace_proceeds : steps proceeds Lexer.skipWhitespace.
Proof. unfold Lexer.skipWhitespace. steps_go. Qed.

Lemma skipComment_proceeds : steps proceeds Lexer.skipComment.
Proof. unfold Lexer.skipComment. steps_go. Qed.

Lemma classify_proceeds : steps proceeds Lexer.classify.
Proof.
  unfold Lexer.classify, Lexer.op_or_op_eq, Lexer.bang_branch,
    Lexer.string_branch, Lexer.number_branch, Lexer.word_branch, Lexer.abort.
  steps_go.
Qed.

#[export] Hint Resolve skipWhitespace_proceeds skipComment_proceeds
  classify_proceeds : steps.

Lemma getToken_proceeds : steps proceeds Lexer.getToken.
Proof. unfold Lexer.getToken. steps_go. Qed.

#[export] Hint Resolve getToken_proceeds : steps.

Lemma init_at_pos src :
  Lexer.init src = Ret tt (at_pos (src +:+ str Lexer.NEWLINE) 0).
Proof. unfold Lexer.init. rewrite skipCurChar_at by (simpl; lia). reflexivity. Qed.

Lemma getToken_consistent l t l' :
  consistent l -> Lexer.getToken l = Ret t l' ->
  consistent l' /\ source l' = source l.
Proof.
  intros Hc H. apply getToken_proceeds in H as [[Hs _] Hk]. auto.
Qed.

(** ** The lexer: end of input *)

Lemma char_or_eof_end s n : String.length s <= n -> char_or_eof s n = Lexer.EOF.
Proof. intros H. unfold char_or_eof. rewrite get_None by exact H. reflexivity. Qed.

Lemma getToken_at_end s n :
  String.length s <= n ->
  Lexer.getToken (at_pos s n) = Ret eof_token (at_pos s (S n)).
Proof.
  intros H. unfold Lexer.getToken.
  assert (E : at_pos s n = mkLexer s Lexer.EOF (Z.of_nat n)).
  { unfold at_pos. rewrite char_or_eof_end by exact H. reflexivity. }
  assert (H1 : Lexer.skipWhitespace (at_pos s n) = Ret tt (at_pos s n)).
  { rewrite E. unfold Lexer.skipWhitespace, while_within, Lexer.ahead.
    simpl. reflexivity. }
  assert (H2 : Lexer.skipComment (at_pos s n) = Ret tt (at_pos s n)).
  { rewrite E. reflexivity. }
  assert (H3 : Lexer.classify (at_pos s n) = Ret eof_token (at_pos s n)).
  { rewrite E. reflexivity. }
  rewrite (bind_of_Ret _ _ _ _ _ H1), (bind_of_Ret _ _ _ _ _ H2),
    (bind_of_Ret _ _ _ _ _ H3), (bind_of_Ret _ _ _ _ _ (skipCurChar_at_pos s n)).
  reflexivity.
Qed.

Lemma pull_at_end s n k :
  String.length s <= n -> pull k (at_pos s n) = repeat eof_token k.
Proof.
  revert n. induction k as [|k IH]; intros n H; simpl; [reflexivity|].
  rewrite getToken_at_end by exact H. f_equal. apply IH. lia.
Qed.

Lemma has_char_get c s n : has_char c s = false -> String.get n s <> Some c.
Proof.
  revert n. induction s as [|c' r IH]; intros n H; simpl in *.
  - destruct n; discriminate.
  - apply orb_false_iff in H as [Hc Hr]. destruct n as [|n].
    + intros [= ->]. rewrite Ascii.eqb_refl in Hc. discriminate.
    + apply IH, Hr.
Qed.

Lemma has_char_app c a b :
  has_char c (a +:+ b) = has_char c a || has_char c b.
Proof.
  induction a as [|c' a IH]; simpl; [reflexivity|].
  rewrite IH. apply orb_assoc.
Qed.

(** Without a NUL in the text, the sentinel is the current character
    only at or past the end. *)
Lemma sentinel_means_end l :
  consistent l -> has_char NUL (source l) = false ->
  curChar l = Lexer.EOF -> (len (source l) <= curPos l)%Z.
Proof.
  intros [H0 Hc] Hn He. unfold len.
  destruct (Z_lt_le_dec (curPos l) (Z.of_nat (String.length (source l))))
    as [Hlt|Hge]; [exfalso | exact Hge].
  destruct (get_Some (Z.to_nat (curPos l)) (source l)) as [c Hg]; [lia|].
  unfold char_or_eof in Hc. rewrite Hg in Hc.
  apply (has_char_get _ _ (Z.to_nat (curPos l)) Hn).
  rewrite Hg. f_equal. unfold Lexer.EOF in He. congruence.
Qed.

(** Takes apart a hypothesis that says a composed call returned. *)
Ltac outcome_inv :=
  repeat match goal with
  | H : bind _ _ _ = Ret _ _ |- _ =>
      let a := fresh "a" in
      let s := fresh "s" in
      let H1 := fresh "H" in
      apply bind_Ret in H as (a & s & H1 & H)
  | H : ret _ _ = Ret _ _ |- _ => unfold ret in H; injection H as ? ?; subst
  | H : gets _ _ = Ret _ _ |- _ => unfold gets in H; injection H as ? ?; subst
  | H : modify _ _ = Ret _ _ |- _ =>
      unfold modify in H; injection H as ? ?; subst
  | H : sys_exit _ _ = Ret _ _ |- _ => discriminate H
  | H : Lexer.abort _ _ = Ret _ _ |- _ => discriminate H
  | H : (let _ := _ in _) _ = Ret _ _ |- _ => cbv zeta in H
  | H : (if ?b then _ else _) _ = Ret _ _ |- _ => destruct b eqn:?
  | H : (match ?x with _ => _ end) _ = Ret _ _ |- _ => destruct x eqn:?
  end.

Lemma classify_EOF l t l' :
  Lexer.classify l = Ret t l' -> kind t = TokenType.EOF ->
  curChar l = Lexer.EOF /\ l' = l /\ t = eof_token.
Proof.
  intros H Hk.
  unfold Lexer.classify, Lexer.op_or_op_eq, Lexer.bang_branch,
    Lexer.string_branch, Lexer.number_branch, Lexer.word_branch in H.
  outcome_inv; simpl in Hk; try discriminate Hk.
  - match goal with E : Ascii.eqb _ Lexer.EOF = true |- _ =>
      apply Ascii.eqb_eq in E; rewrite E end.
    repeat split; reflexivity.
  - subst. exfalso. eapply keyword_kind_not_EOF. eassumption.
Qed.

Lemma getToken_EOF l t l' :
  consistent l -> has_char NUL (source l) = false ->
  Lexer.getToken l = Ret t l' -> kind t = TokenType.EOF ->
  exists n, l' = at_pos (source l) n /\ String.length (source l) <= n.
Proof.
  intros Hc Hn H Hk. unfold Lexer.getToken in H.
  apply bind_Ret in H as (u1 & l1 & H1 & H).
  apply bind_Ret in H as (u2 & l2 & H2 & H).
  apply bind_Ret in H as (tok & l3 & H3 & H).
  apply bind_Ret in H as (u4 & l4 & H4 & H).
  injection H as -> <-.
  apply skipWhitespace_proceeds in H1 as [[S1 _] C1].
  apply skipComment_proceeds in H2 as [[S2 _] C2].
  apply classify_EOF in H3 as (He & -> & _); [|exact Hk].
  assert (Hc2 : consistent l2) by auto.
  assert (Hs : source l2 = source l) by congruence.
  pose proof (sentinel_means_end l2 Hc2) as Hend.
  rewrite Hs in Hend. specialize (Hend Hn He).
  destruct Hc2 as [H0 _].
  rewrite skipCurChar_at in H4 by lia. injection H4 as _ <-.
  rewrite Hs. eexists. split; [reflexivity|]. unfold len in Hend. lia.
Qed.

(** C9 as it holds.  Past the end of the buffer the current character is
    the sentinel and every call of [getToken] returns an EOF token; and
    when the source text holds no NUL character, the token stream holds no
    other token after its first EOF token. *)
Theorem end_of_input_is_absorbing (l : Lexer) :
  consistent l ->
  ((len (source l) <= curPos l)%Z ->
     curChar l = Lexer.EOF /\ forall n, pull n l = repeat eof_token n)
  /\ (has_char NUL (source l) = false ->
      forall n i j ti tj,
        pull n l !! i = Some ti -> kind ti = TokenType.EOF -> i <= j ->
        pull n l !! j = Some tj -> kind tj = TokenType.EOF).
Proof.
  intros Hc. split.
  - intros Hend. pose proof (consistent_at_pos l Hc) as E.
    assert (HL : String.length (source l) <= Z.to_nat (curPos l)).
    { unfold len in Hend. lia. }
    split.
    + destruct Hc as [_ ->]. apply char_or_eof_end, HL.
    + intros n. rewrite E. apply pull_at_end. exact HL.
  - intros Hn n. revert l Hc Hn.
    induction n as [|n IH]; intros l Hc Hn i j ti tj Hi Hk Hij Hj;
      [discriminate Hi|].
    simpl in Hi, Hj.
    destruct (Lexer.getToken l) as [t l'| | |] eqn:Hg; try discriminate Hi.
    destruct (getToken_consistent _ _ _ Hc Hg) as [Hc' Hs'].
    destruct i as [|i].
    + injection Hi as ->.
      destruct j as [|j]; [injection Hj as <-; exact Hk|].
      destruct (getToken_EOF _ _ _ Hc Hn Hg Hk) as (k & -> & Hlen).
      simpl in Hj. rewrite pull_at_end in Hj by exact Hlen.
      apply list_elem_of_lookup_2, list_elem_of_In, repeat_spec in Hj.
      subst tj. reflexivity.
    + destruct j as [|j]; [lia|]. simpl in Hi, Hj.
      apply (IH l' Hc' ltac:(rewrite Hs'; exact Hn) i j ti tj); auto. lia.
Qed.

Lemma end_of_input_is_absorbing_witness :
  let l := at_pos ("GOTO a" +:+ str LF) 7 in
  (curChar l = Lexer.EOF /\ forall n, pull n l = repeat eof_token n)
  /\ (forall n i j ti tj,
        pull n l !! i = Some ti -> kind ti = TokenType.EOF -> i <= j ->
        pull n l !! j = Some tj -> kind tj = TokenType.EOF).
Proof.
  destruct (end_of_input_is_absorbing (at_pos ("GOTO a" +:+ str LF) 7))
    as [Hend Hstream].
  - split; simpl; [lia | reflexivity].
  - split; [apply Hend; vm_compute; discriminate | apply Hstream; reflexivity].
Defined.

(** C9 as stated fails: the lexer takes a NUL character inside the text
    for the end of input, returns an EOF token for it and goes on; the
    source made of a NUL and a plus sign yields EOF and then PLUS. *)
Lemma token_after_eof_token :
  ~ (forall (src : string) (l : Lexer) n i j ti tj,
       Lexer.init src = Ret tt l ->
       pull n l !! i = Some ti -> kind ti = TokenType.EOF -> i <= j ->
       pull n l !! j = Some tj -> kind tj = TokenType.EOF).
Proof.
  intros H.
  specialize (H (str NUL +:+ "+") _ 2 0 1 _ _ eq_refl eq_refl eq_refl
                (le_S _ _ (le_n 0)) eq_refl).
  discriminate H.
Qed.

(** ** The lexer: scanning a run of characters *)

Lemma length_run_of_le f x : String.length (run_of f x) <= String.length x.
Proof.
  induction x as [|c r IH]; simpl; [lia|].
  destruct (f c); simpl; lia.
Qed.

Lemma bind_gets {St A B} (f : St -> A) (k : A -> M St B) s :
  bind (gets f) k s = k (f s) s.
Proof. reflexivity. Qed.

Lemma peek_text_from s n :
  Lexer.peek (at_pos s n) =
  Ret (match text_from (S n) s with String c _ => c | EmptyString => Lexer.EOF end)
      (at_pos s n).
Proof.
  rewrite peek_at_pos. unfold char_or_eof. rewrite get_text_from.
  destruct (text_from (S n) s); reflexivity.
Qed.

Lemma scan_while f s :
  f Lexer.EOF = false ->
  forall fuel n,
    String.length (run_of f (text_from (S n) s)) <= fuel ->
    while fuel (p <- Lexer.peek ;; ret (f p)) Lexer.skipCurChar (at_pos s n)
    = Ret tt (at_pos s (n + String.length (run_of f (text_from (S n) s)))).
Proof.
  intros Hf fuel. induction fuel as [|fuel IH]; intros n Hlen.
  - cbn [while]. unfold bind at 1 2. rewrite peek_text_from.
    remember (text_from (S n) s) as x eqn:E.
    destruct x as [|c r]; cbn [run_of String.length] in *.
    + rewrite Hf. unfold ret. do 2 f_equal. lia.
    + destruct (f c); cbn [String.length] in *; [lia|].
      unfold ret. do 2 f_equal. lia.
  - cbn [while]. unfold bind at 1 2. rewrite peek_text_from.
    remember (text_from (S n) s) as x eqn:E.
    destruct x as [|c r]; cbn [run_of String.length] in *.
    + rewrite Hf. unfold ret. do 2 f_equal. lia.
    + destruct (f c) eqn:Ec; cbn [String.length] in *;
        [|unfold ret; do 2 f_equal; lia].
      unfold ret at 1. cbv beta iota.
      rewrite (bind_of_Ret _ _ _ _ _ (skipCurChar_at_pos s n)).
      symmetry in E. pose proof (text_from_S _ _ _ _ E) as E'.
      specialize (IH (S n)). rewrite E' in IH. rewrite IH by lia.
      do 2 f_equal. lia.
Qed.

Lemma scan_within f s n :
  f Lexer.EOF = false ->
  while_within Lexer.ahead (p <- Lexer.peek ;; ret (f p)) Lexer.skipCurChar
    (at_pos s n)
  = Ret tt (at_pos s (n + String.length (run_of f (text_from (S n) s)))).
Proof.
  intros Hf. unfold while_within. apply scan_while; [exact Hf|].
  pose proof (length_run_of_le f (text_from (S n) s)) as H1.
  pose proof (length_text_from (S n) s) as H2.
  unfold Lexer.ahead, len, at_pos. cbn [source curPos]. lia.
Qed.

(** ** The lexer: numeric literals *)

Lemma length_append a b :
  String.length (a +:+ b) = String.length a + String.length b.
Proof. induction a as [|c a IH]; simpl; [reflexivity | rewrite IH; reflexivity]. Qed.

Lemma append_assoc a b c : (a +:+ b) +:+ c = a +:+ (b +:+ c).
Proof.
  induction a as [|x a IH]; [reflexivity|].
  rewrite !append_String, IH. reflexivity.
Qed.

Lemma py_slice_text_from s n a b :
  text_from n s = a +:+ b -> a <> EmptyString ->
  py_slice s (Z.of_nat n) (Z.of_nat (n + String.length a)) = a.
Proof.
  intros E Ha.
  pose proof (length_text_from n s) as HL. rewrite E, length_append in HL.
  assert (0 < String.length a) by (destruct a; [congruence | simpl; lia]).
  unfold py_slice, py_adjust, len.
  destruct (Z.ltb_spec (Z.of_nat n) 0); [lia|].
  destruct (Z.ltb_spec (Z.of_nat (n + String.length a)) 0); [lia|].
  rewrite !Z.min_l by lia.
  replace (Z.to_nat (Z.of_nat (n + String.length a) - Z.of_nat n))
    with (String.length a) by lia.
  rewrite Nat2Z.id. eapply substring_text_from, E.
Qed.

Lemma digit_char c :
  isdigit c = true ->
  bool_decide (c ∈ Lexer.WHITESPACE) = false
  /\ Ascii.eqb c Lexer.HASHMARK = false
  /\ Ascii.eqb c "+" = false /\ Ascii.eqb c "-" = false
  /\ Ascii.eqb c "*" = false /\ Ascii.eqb c "/" = false
  /\ Ascii.eqb c Lexer.NEWLINE = false /\ Ascii.eqb c Lexer.EOF = false
  /\ Ascii.eqb c "=" = false /\ Ascii.eqb c ">" = false
  /\ Ascii.eqb c "<" = false /\ Ascii.eqb c "!" = false
  /\ Ascii.eqb c Lexer.DOUBLEQUOTE = false.
Proof.
  destruct c as [[] [] [] [] [] [] [] []]; intros H; vm_compute in H;
    try discriminate H; vm_compute; repeat split; reflexivity.
Qed.

Lemma digit_skipWhitespace l :
  isdigit (curChar l) = true -> Lexer.skipWhitespace l = Ret tt l.
Proof.
  intros H. apply digit_char in H as (Hw & _).
  unfold Lexer.skipWhitespace, while_within, Lexer.ahead. cbn [while].
  rewrite bind_gets, Hw. reflexivity.
Qed.

Lemma digit_skipComment l :
  isdigit (curChar l) = true -> Lexer.skipComment l = Ret tt l.
Proof.
  intros H. apply digit_char in H as (_ & Hh & _).
  unfold Lexer.skipComment. rewrite bind_gets, Hh. reflexivity.
Qed.

Lemma digit_classify l :
  isdigit (curChar l) = true -> Lexer.classify l = Lexer.number_branch l.
Proof.
  intros H. pose proof (digit_char _ H)
    as (_ & _ & H1 & H2 & H3 & H4 & H5 & H6 & H7 & H8 & H9 & H10 & H11).
  unfold Lexer.classify. rewrite bind_gets.
  rewrite H1, H2, H3, H4, H5, H6, H7, H8, H9, H10, H11, H. reflexivity.
Qed.

Lemma text_from_after_run f n s r0 :
  text_from (S n) s = r0 ->
  text_from (S (n + String.length (run_of f r0))) s = after_run f r0.
Proof.
  intros E.
  replace (S (n + String.length (run_of f r0)))
    with (S n + String.length (run_of f r0)) by lia.
  rewrite text_from_add, E.
  rewrite <- (run_of_after_run f r0) at 2.
  apply text_from_length_app.
Qed.

Lemma number_branch_at s n c r0 :
  text_from n s = String c r0 ->
  Lexer.number_branch (at_pos s n) =
  let digits := String c (run_of isdigit r0) in
  let plain :=
    Ret (mkToken digits TokenType.NUMBER)
        (at_pos s (n + String.length (run_of isdigit r0))) in
  match after_run isdigit r0 with
  | String d r1 =>
      if Ascii.eqb d "."
      then match run_of isdigit r1 with
           | EmptyString =>
               SysExit "Lexing error. Illegal character in number."
           | frac =>
               Ret (mkToken (digits +:+ "." +:+ frac) TokenType.NUMBER)
                   (at_pos s (n + String.length (run_of isdigit r0) + 1
                              + String.length frac))
           end
      else plain
  | EmptyString => plain
  end.
Proof.
  intros E. pose proof (text_from_S _ _ _ _ E) as E1.
  pose proof (text_from_after_run isdigit n s r0 E1) as E2.
  pose proof (run_of_after_run isdigit r0) as Er0.
  set (k1 := String.length (run_of isdigit r0)) in *.
  assert (Hplain :
    forall p, Ascii.eqb p "." = false ->
      Lexer.peek (at_pos s (n + k1)) = Ret p (at_pos s (n + k1)) ->
      Lexer.number_branch (at_pos s n) =
      Ret (mkToken (String c (run_of isdigit r0)) TokenType.NUMBER)
          (at_pos s (n + k1))).
  { intros p Hp Hpeek. unfold Lexer.number_branch. rewrite bind_gets.
    rewrite (bind_of_Ret _ _ _ _ _ (scan_within isdigit s n eq_refl)).
    rewrite E1. fold k1.
    rewrite (bind_of_Ret _ _ _ _ _ Hpeek), Hp.
    unfold bind, ret, gets, id. cbn [curPos source at_pos].
    do 2 f_equal.
    replace (Z.of_nat (n + k1) + 1)%Z
      with (Z.of_nat (n + String.length (String c (run_of isdigit r0))))
      by (cbn [String.length]; lia).
    apply py_slice_text_from with (b := after_run isdigit r0);
      [|discriminate].
    rewrite E, append_String, Er0. reflexivity. }
  pose proof (peek_text_from s (n + k1)) as Hpeek. rewrite E2 in Hpeek.
  cbv zeta.
  destruct (after_run isdigit r0) as [|d r1] eqn:EA.
  - apply (Hplain Lexer.EOF eq_refl Hpeek).
  - destruct (Ascii.eqb d ".") eqn:Ed; [|apply (Hplain _ Ed Hpeek)].
    apply Ascii.eqb_eq in Ed. subst d.
    pose proof (text_from_S _ _ _ _ E2) as E3.
    unfold Lexer.number_branch. rewrite bind_gets.
    rewrite (bind_of_Ret _ _ _ _ _ (scan_within isdigit s n eq_refl)).
    rewrite E1. fold k1.
    rewrite (bind_of_Ret _ _ _ _ _ Hpeek).
    cbn [Ascii.eqb Bool.eqb].
    assert (Hinner :
      (Lexer.skipCurChar ;;
       p' <- Lexer.peek ;;
       (if negb (isdigit p')
        then Lexer.abort "Illegal character in number."
        else ret tt) ;;
       while_within Lexer.ahead (p <- Lexer.peek ;; ret (isdigit p))
         Lexer.skipCurChar) (at_pos s (n + k1)) =
      match run_of isdigit r1 with
      | EmptyString => SysExit "Lexing error. Illegal character in number."
      | frac => Ret tt (at_pos s (S (n + k1) + String.length frac))
      end).
    { rewrite (bind_of_Ret _ _ _ _ _ (skipCurChar_at_pos s (n + k1))).
      rewrite (bind_of_Ret _ _ _ _ _ (peek_text_from s (S (n + k1)))).
      rewrite E3. destruct r1 as [|c2 r2]; [reflexivity|].
      cbn [run_of]. destruct (isdigit c2) eqn:Ec2; [|reflexivity].
      cbn [negb]. unfold bind at 1, ret at 1.
      rewrite scan_within by reflexivity. rewrite E3.
      cbn [run_of]. rewrite Ec2. reflexivity. }
    unfold bind at 1. rewrite Hinner.
    destruct (run_of isdigit r1) as [|c2 frac] eqn:Ef; [reflexivity|].
    unfold bind, ret, gets, id. cbn [curPos source at_pos].
    f_equal; [|f_equal; lia]. f_equal.
    set (a := String c (run_of isdigit r0) +:+ "." +:+ String c2 frac).
    replace (Z.of_nat (S (n + k1) + String.length (String c2 frac)) + 1)%Z
      with (Z.of_nat (n + String.length a)).
    2:{ subst a. rewrite append_String. cbn [String.length].
        rewrite !length_append. cbn [String.length]. fold k1. lia. }
    apply py_slice_text_from with (b := after_run isdigit r1);
      [|subst a; discriminate].
    subst a. rewrite E, !append_assoc, append_String. f_equal.
    rewrite <- Er0 at 1. f_equal.
    change ("." +:+ String c2 frac +:+ after_run isdigit r1)
      with (String "." (String c2 frac +:+ after_run isdigit r1)).
    f_equal. rewrite <- Ef. symmetry. apply run_of_after_run.
Qed.

Lemma consistent_text_from l :
  consistent l -> curChar l <> Lexer.EOF ->
  exists r,
    text_from (Z.to_nat (curPos l)) (source l) = String (curChar l) r.
Proof.
  intros [H0 Hc] Hne. unfold char_or_eof in Hc. rewrite get_text_from in Hc.
  destruct (text_from (Z.to_nat (curPos l)) (source l)) as [|c r].
  - contradiction.
  - exists r. rewrite Hc. reflexivity.
Qed.

(** C5. When the current character is a digit, [getToken] returns a NUMBER
    token whose text is the longest run of digits from the current
    position; when a decimal point follows that run, the text goes on with
    the point and the longest run of digits after it, which must not be
    empty: if no digit follows the point the lexer exits with a lexical
    error.  The program [LET x = 5.] therefore never compiles. *)
Theorem getToken_number (l : Lexer) :
  consistent l -> isdigit (curChar l) = true ->
  let n := Z.to_nat (curPos l) in
  let rest := text_from n (source l) in
  let digits := run_of isdigit rest in
  let plain :=
    Lexer.getToken l =
    Ret (mkToken digits TokenType.NUMBER)
        (at_pos (source l) (n + String.length digits)) in
  match after_run isdigit rest with
  | String d r =>
      if Ascii.eqb d "."
      then match run_of isdigit r with
           | EmptyString =>
               Lexer.getToken l =
               SysExit "Lexing error. Illegal character in number."
           | frac =>
               Lexer.getToken l =
               Ret (mkToken (digits +:+ "." +:+ frac) TokenType.NUMBER)
                   (at_pos (source l)
                      (n + String.length digits + 1 + String.length frac))
           end
      else plain
  | EmptyString => plain
  end
  /\ forall order,
       compile order "LET x = 5." =
       SysExit "Lexing error. Illegal character in number.".
Proof.
  intros Hc Hd. cbv zeta. split; [|intros order; reflexivity].
  assert (Hne : curChar l <> Lexer.EOF).
  { intros He. rewrite He in Hd. discriminate Hd. }
  destruct (consistent_text_from l Hc Hne) as [r0 E].
  pose proof (consistent_at_pos l Hc) as El.
  set (n := Z.to_nat (curPos l)) in *. set (s := source l) in *.
  rewrite E. cbn [run_of after_run]. rewrite Hd.
  assert (Hget : Lexer.getToken l =
    match Lexer.number_branch (at_pos s n) with
    | Ret t l' => Ret t (at_pos s (S (Z.to_nat (curPos l'))))
    | SysExit msg => SysExit msg
    | PyRaise e => PyRaise e
    | OutOfFuel => OutOfFuel
    end).
  { unfold Lexer.getToken.
    rewrite (bind_of_Ret _ _ _ _ _ (digit_skipWhitespace l Hd)).
    rewrite (bind_of_Ret _ _ _ _ _ (digit_skipComment l Hd)).
    unfold bind at 1. rewrite (digit_classify l Hd). rewrite El at 1.
    pose proof (number_branch_at s n _ r0 E) as Hnb. cbv zeta in Hnb.
    destruct (Lexer.number_branch (at_pos s n)) as [t l'| | |] eqn:Eb;
      try reflexivity.
    assert (Hl' : exists k, l' = at_pos s k).
    { destruct (after_run isdigit r0) as [|d r1];
        [injection Hnb as _ ->; eauto|].
      destruct (Ascii.eqb d "."); [|injection Hnb as _ ->; eauto].
      destruct (run_of isdigit r1); [discriminate Hnb|].
      injection Hnb as _ ->; eauto. }
    destruct Hl' as [k ->].
    rewrite (bind_of_Ret _ _ _ _ _ (skipCurChar_at_pos s k)).
    cbn [curPos at_pos]. rewrite Nat2Z.id. reflexivity. }
  rewrite Hget, (number_branch_at s n _ r0 E). cbv zeta.
  destruct (after_run isdigit r0) as [|d r1].
  - cbn [curPos at_pos String.length]. rewrite Nat2Z.id.
    do 2 f_equal. lia.
  - destruct (Ascii.eqb d ".").
    + destruct (run_of isdigit r1) as [|c2 frac]; [reflexivity|].
      cbn [curPos at_pos String.length]. rewrite Nat2Z.id.
      do 2 f_equal. lia.
    + cbn [curPos at_pos String.length]. rewrite Nat2Z.id.
      do 2 f_equal. lia.
Qed.

Lemma getToken_number_witness :
  Lexer.getToken (at_pos "12.50+3" 0) =
  Ret (mkToken "12.50" TokenType.NUMBER) (at_pos "12.50+3" 5)
  /\ forall order,
       compile order "LET x = 5." =
       SysExit "Lexing error. Illegal character in number.".
Proof.
  exact (getToken_number (at_pos "12.50+3" 0)
           (at_pos_consistent "12.50+3" 0) eq_refl).
Defined.

(** ** The parser: what every production keeps

    A relation on parser states that is kept by the elementary updates is
    kept by every production. *)

Lemma on_lexer_steps {A} (R : Parser -> Parser -> Prop) (m : M Lexer A) :
  (forall p l, R p (set_lexer l p)) -> steps R (Parser.on_lexer m).
Proof.
  intros HR p a p' H. unfold Parser.on_lexer in H.
  destruct (m (lexer p)); try discriminate H.
  injection H as _ <-. apply HR.
Qed.

Section ParserSteps.

Variable R : Parser -> Parser -> Prop.
Hypothesis R_refl : forall p, R p p.
Hypothesis R_trans : forall p1 p2 p3, R p1 p2 -> R p2 p3 -> R p1 p3.
Hypothesis R_getToken : steps R (Parser.on_lexer Lexer.getToken).
Hypothesis R_curToken : forall p t, R p (set_curToken t p).
Hypothesis R_peekToken : forall p t, R p (set_peekToken t p).
Hypothesis R_emit :
  forall p code, R p (set_emitter (Emitter.emit code (emitter p)) p).
Hypothesis R_emitLine :
  forall p code, R p (set_emitter (Emitter.emitLine code (emitter p)) p).
Hypothesis R_declare :
  forall ident, steps R (Parser.declare_on_first_use ident).
Hypothesis R_label :
  forall p x, R p (set_labelsDeclared ({[x]} ∪ labelsDeclared p) p).
Hypothesis R_goto :
  forall p x, R p (set_labelsGotoed ({[x]} ∪ labelsGotoed p) p).

Local Hint Resolve R_refl R_trans R_declare R_getToken : steps.

Lemma cur_steps : steps R Parser.cur.
Proof using R_refl.
  intros p t p' H. unfold Parser.cur in H.
  destruct (curToken p); try discriminate H.
  injection H as _ <-. apply R_refl.
Qed.

Lemma emit_steps code : steps R (Parser.emit code).
Proof using R_emit. apply steps_modify. intros p. apply R_emit. Qed.

Lemma emitLine_steps code : steps R (Parser.emitLine code).
Proof using R_emitLine. apply steps_modify. intros p. apply R_emitLine. Qed.

Lemma set_curToken_steps :
  steps R (modify (fun p => set_curToken (peekToken p) p)).
Proof using R_curToken. apply steps_modify. intros p. apply R_curToken. Qed.

Lemma set_peekToken_steps t : steps R (modify (set_peekToken t)).
Proof using R_peekToken. apply steps_modify. intros p. apply R_peekToken. Qed.

Lemma add_label_steps x :
  steps R (modify (fun p => set_labelsDeclared ({[x]} ∪ labelsDeclared p) p)).
Proof using R_label. apply steps_modify. intros p. apply R_label. Qed.

Lemma add_goto_steps x :
  steps R (modify (fun p => set_labelsGotoed ({[x]} ∪ labelsGotoed p) p)).
Proof using R_goto. apply steps_modify. intros p. apply R_goto. Qed.

Local Hint Resolve cur_steps emit_steps emitLine_steps
  set_curToken_steps set_peekToken_steps add_label_steps add_goto_steps
  : steps.

Lemma curTokeHasType_steps k : steps R (Parser.curTokeHasType k).
Proof using R_refl R_trans. unfold Parser.curTokeHasType. steps_go. Qed.

Local Hint Resolve curTokeHasType_steps : steps.

Lemma curTokenIsComparisonOperator_steps :
  steps R Parser.curTokenIsComparisonOperator.
Proof using R_refl R_trans.
  unfold Parser.curTokenIsComparisonOperator. steps_go.
Qed.

Lemma skipCurToken_steps rt : steps R (Parser.skipCurToken rt).
Proof using R_refl R_trans R_getToken R_curToken R_peekToken.
  unfold Parser.skipCurToken, Parser.abort. steps_go.
Qed.

Local Hint Resolve curTokenIsComparisonOperator_steps skipCurToken_steps
  : steps.

Lemma nl_steps : steps R Parser.nl.
Proof using R_refl R_trans R_getToken R_curToken R_peekToken.
  unfold Parser.nl. steps_go.
Qed.

Lemma primary_steps : steps R Parser.primary.
Proof using R_refl R_trans R_getToken R_curToken R_peekToken R_emit.
  unfold Parser.primary, Parser.abort. steps_go.
Qed.

Local Hint Resolve nl_steps primary_steps : steps.

Lemma unary_steps : steps R Parser.unary.
Proof using R_refl R_trans R_getToken R_curToken R_peekToken R_emit.
  unfold Parser.unary. steps_go.
Qed.

Local Hint Resolve unary_steps : steps.

Lemma term_steps : steps R Parser.term.
Proof using R_refl R_trans R_getToken R_curToken R_peekToken R_emit.
  unfold Parser.term. steps_go.
Qed.

Local Hint Resolve term_steps : steps.

Lemma expression_steps : steps R Parser.expression.
Proof using R_refl R_trans R_getToken R_curToken R_peekToken R_emit.
  unfold Parser.expression. steps_go.
Qed.

Local Hint Resolve expression_steps : steps.

Lemma comparison_steps : steps R Parser.comparison.
Proof using R_refl R_trans R_getToken R_curToken R_peekToken R_emit.
  unfold Parser.comparison, Parser.abort. steps_go.
Qed.

Lemma let_head_steps : steps R Parser.let_head.
Proof using R_refl R_trans R_getToken R_curToken R_peekToken R_emit R_declare.
  unfold Parser.let_head. steps_go.
Qed.

Local Hint Resolve comparison_steps let_head_steps : steps.

Lemma statement_steps depth : steps R (Parser.statement depth).
Proof using All.
  induction depth as [|depth IH]; cbn [Parser.statement].
  - apply steps_out_of_fuel.
  - unfold Parser.abort. steps_go.
Qed.

End ParserSteps.

(** ** The parser: the tables only grow *)

Lemma grows_refl p : grows p p.
Proof. unfold grows. repeat split; auto. Qed.

Lemma grows_trans p1 p2 p3 : grows p1 p2 -> grows p2 p3 -> grows p1 p3.
Proof.
  intros (A1 & B1 & C1 & D1 & E1) (A2 & B2 & C2 & D2 & E2).
  unfold grows. repeat split; try set_solver. congruence.
Qed.

Lemma grows_lexer p l : grows p (set_lexer l p).
Proof. unfold grows. simpl. repeat split; auto. Qed.

Lemma grows_curToken p t : grows p (set_curToken t p).
Proof. unfold grows. simpl. repeat split; auto. Qed.

Lemma grows_peekToken p t : grows p (set_peekToken t p).
Proof. unfold grows. simpl. repeat split; auto. Qed.

Lemma grows_emit p code : grows p (set_emitter (Emitter.emit code (emitter p)) p).
Proof. unfold grows. simpl. repeat split; auto. Qed.

Lemma grows_emitLine p code :
  grows p (set_emitter (Emitter.emitLine code (emitter p)) p).
Proof. unfold grows. simpl. repeat split; auto. Qed.

Lemma grows_headerLine p code :
  grows p (set_emitter (Emitter.headerLine code (emitter p)) p).
Proof.
  unfold grows. simpl. repeat split; auto.
  intros line H. apply elem_of_app. left. exact H.
Qed.

Lemma grows_symbol p x : grows p (set_symbolsDeclared ({[x]} ∪ symbolsDeclared p) p).
Proof. unfold grows. simpl. repeat split; auto. set_solver. Qed.

Lemma grows_label p x : grows p (set_labelsDeclared ({[x]} ∪ labelsDeclared p) p).
Proof. unfold grows. simpl. repeat split; auto. set_solver. Qed.

Lemma grows_goto p x : grows p (set_labelsGotoed ({[x]} ∪ labelsGotoed p) p).
Proof. unfold grows. simpl. repeat split; auto. set_solver. Qed.

#[export] Hint Resolve grows_refl grows_trans : steps.

Lemma getToken_grows : steps grows (Parser.on_lexer Lexer.getToken).
Proof. apply on_lexer_steps. exact grows_lexer. Qed.

Ltac grows_side :=
  first [ exact grows_refl | exact grows_trans | exact getToken_grows
        | exact grows_curToken | exact grows_peekToken | exact grows_emit
        | exact grows_emitLine | exact grows_label | exact grows_goto ].

Lemma headerLine_grows code : steps grows (Parser.headerLine code).
Proof. apply steps_modify. intros p. apply grows_headerLine. Qed.

Lemma declare_grows ident : steps grows (Parser.declare_on_first_use ident).
Proof.
  unfold Parser.declare_on_first_use. steps_go.
  - apply steps_modify. intros p. apply grows_symbol.
  - apply headerLine_grows.
Qed.

Lemma skipCurToken_grows rt : steps grows (Parser.skipCurToken rt).
Proof.
  apply skipCurToken_steps; grows_side.
Qed.

Lemma expression_grows : steps grows Parser.expression.
Proof.
  apply expression_steps; grows_side.
Qed.

Lemma let_head_grows : steps grows Parser.let_head.
Proof.
  apply let_head_steps; first [grows_side | exact declare_grows].
Qed.

Lemma statement_grows depth : steps grows (Parser.statement depth).
Proof.
  apply statement_steps; first [grows_side | exact declare_grows].
Qed.

Lemma emitLine_grows code : steps grows (Parser.emitLine code).
Proof. apply steps_modify. intros p. apply grows_emitLine. Qed.

Lemma curTokeHasType_grows k : steps grows (Parser.curTokeHasType k).
Proof. apply curTokeHasType_steps; grows_side. Qed.

#[export] Hint Resolve headerLine_grows skipCurToken_grows statement_grows
  emitLine_grows curTokeHasType_grows : steps.

Lemma program_statements_grows : steps grows Parser.program_statements.
Proof.
  unfold Parser.program_statements. steps_go.
  intros p u p' H. eapply steps_while in H; eauto with steps.
  steps_go.
Qed.

Lemma check_labels_same order p u p' :
  Parser.check_labels order p = Ret u p' -> p' = p.
Proof.
  unfold Parser.check_labels. rewrite bind_gets.
  generalize (order (labelsGotoed p)) as labels.
  induction labels as [|x labels IH]; cbn [for_each].
  - intros [= _ <-]. reflexivity.
  - intros H. apply bind_Ret in H as (u1 & p1 & H1 & H).
    unfold Parser.check_label in H1. rewrite bind_gets in H1.
    destruct (bool_decide (x ∈ labelsDeclared p)); [|discriminate H1].
    injection H1 as _ <-. apply IH, H.
Qed.

Lemma check_labels_grows order : steps grows (Parser.check_labels order).
Proof.
  intros p u p' H. apply check_labels_same in H as ->. apply grows_refl.
Qed.

#[export] Hint Resolve program_statements_grows check_labels_grows : steps.

Lemma program_grows order : steps grows (Parser.program order).
Proof. unfold Parser.program. steps_go. Qed.

(** ** The deferred check of the GOTO targets *)

Lemma walks_elements : walks elements.
Proof. intros X x. apply elem_of_elements. Qed.

(** The loop of [check_labels] over a list of labels: either every label
    is declared and the loop returns, or it exits at the first label of
    the list that is not. *)
Lemma check_label_outcome x p :
  Parser.check_label x p =
  if bool_decide (x ∈ labelsDeclared p)
  then Ret tt p
  else SysExit ("Error. Attempting to GOTO to undeclared label: " +:+ x).
Proof.
  unfold Parser.check_label. rewrite bind_gets.
  destruct (bool_decide (x ∈ labelsDeclared p)); reflexivity.
Qed.

Lemma check_loop labels p :
  (Forall (fun x => x ∈ labelsDeclared p) labels
   /\ for_each labels Parser.check_label p = Ret tt p)
  \/ (exists label,
        (label ∈ labels) /\ (label ∉ labelsDeclared p)
        /\ for_each labels Parser.check_label p
           = SysExit ("Error. Attempting to GOTO to undeclared label: "
                      +:+ label)).
Proof.
  induction labels as [|x labels IH]; cbn [for_each].
  - left. split; [constructor | reflexivity].
  - unfold bind. rewrite check_label_outcome.
    destruct (bool_decide (x ∈ labelsDeclared p)) eqn:Ex.
    + apply bool_decide_eq_true in Ex.
      destruct IH as [[Hall Hret] | (label & Hin & Hnot & Hexit)].
      * left. split; [constructor; assumption | exact Hret].
      * right. exists label. split; [right; exact Hin|]. split; assumption.
    + apply bool_decide_eq_false in Ex. right. exists x.
      split; [left|split; [exact Ex | reflexivity]].
Qed.

Lemma check_labels_ok order p :
  walks order -> labelsGotoed p ⊆ labelsDeclared p ->
  Parser.check_labels order p = Ret tt p.
Proof.
  intros Hw Hsub. unfold Parser.check_labels. rewrite bind_gets.
  destruct (check_loop (order (labelsGotoed p)) p)
    as [[_ Hret] | (label & Hin & Hnot & _)]; [exact Hret|].
  exfalso. apply Hnot, Hsub, Hw, Hin.
Qed.

Lemma check_labels_Ret order p u p' :
  walks order -> Parser.check_labels order p = Ret u p' ->
  labelsGotoed p ⊆ labelsDeclared p.
Proof.
  intros Hw H. unfold Parser.check_labels in H. rewrite bind_gets in H.
  destruct (check_loop (order (labelsGotoed p)) p)
    as [[Hall _] | (label & _ & _ & Hexit)]; [|congruence].
  intros x Hx. rewrite Forall_forall in Hall. apply Hall, Hw, Hx.
Qed.

Lemma check_labels_exit order p :
  walks order -> ~ labelsGotoed p ⊆ labelsDeclared p ->
  exists label,
    (label ∈ labelsGotoed p) /\ (label ∉ labelsDeclared p)
    /\ Parser.check_labels order p
       = SysExit ("Error. Attempting to GOTO to undeclared label: " +:+ label).
Proof.
  intros Hw Hnsub. unfold Parser.check_labels. rewrite bind_gets.
  destruct (check_loop (order (labelsGotoed p)) p)
    as [[Hall _] | (label & Hin & Hnot & Hexit)].
  - exfalso. apply Hnsub. intros x Hx.
    rewrite Forall_forall in Hall. apply Hall, Hw, Hx.
  - exists label. split; [apply Hw, Hin|]. split; assumption.
Qed.

(** The outcome of [program] does not depend on the order in which the
    set of GOTO targets is walked, except for the label an exit names. *)
Lemma program_order_irrelevant order1 order2 p u p' :
  walks order1 -> walks order2 ->
  Parser.program order1 p = Ret u p' -> Parser.program order2 p = Ret u p'.
Proof.
  intros H1 H2 H. unfold Parser.program in *.
  apply bind_Ret in H as (u1 & p1 & Hs & H).
  rewrite (bind_of_Ret _ _ _ _ _ Hs).
  apply bind_Ret in H as (u2 & p2 & Hc & H).
  pose proof (check_labels_same _ _ _ _ Hc) as ->.
  apply (check_labels_Ret _ _ _ _ H1) in Hc.
  rewrite (bind_of_Ret _ _ _ _ _ (check_labels_ok order2 p1 H2 Hc)).
  exact H.
Qed.

Lemma compile_order_irrelevant order1 order2 src u p :
  walks order1 -> walks order2 ->
  compile order1 src = Ret u p -> compile order2 src = Ret u p.
Proof.
  intros H1 H2. unfold compile.
  destruct (Lexer.init src) as [u0 l| | |]; try discriminate.
  destruct (Parser.init l (Emitter.init "out.c")) as [u1 p0| | |];
    try discriminate.
  apply program_order_irrelevant; assumption.
Qed.

Lemma output_order_irrelevant order src out :
  walks order ->
  output_text (compile elements src) = Some out ->
  output_text (compile order src) = Some out.
Proof.
  intros Hw H.
  destruct (compile elements src) as [u p| | |] eqn:E; try discriminate H.
  rewrite (compile_order_irrelevant elements order src u p walks_elements Hw E).
  exact H.
Qed.

(** ** The parser: reading the current token *)

Lemma bind_cur {B} (k : Token -> M Parser B) p t :
  curToken p = Some t -> bind Parser.cur k p = k t p.
Proof. intros H. unfold bind, Parser.cur. rewrite H. reflexivity. Qed.

Lemma bind_curTokeHasType {B} (f : bool -> M Parser B) p t k :
  curToken p = Some t ->
  bind (Parser.curTokeHasType k) f p = f (bool_decide (k = kind t)) p.
Proof.
  intros H. unfold Parser.curTokeHasType, bind, Parser.cur. rewrite H.
  reflexivity.
Qed.

Lemma skipCurToken_Ret rt p u p' :
  Parser.skipCurToken rt p = Ret u p' ->
  curToken p' = peekToken p
  /\ symbolsDeclared p' = symbolsDeclared p
  /\ labelsDeclared p' = labelsDeclared p
  /\ labelsGotoed p' = labelsGotoed p
  /\ emitter p' = emitter p.
Proof.
  intros H. unfold Parser.skipCurToken in H.
  apply bind_Ret in H as (u1 & p1 & H1 & H).
  assert (p1 = p) as ->.
  { destruct rt as [k|]; [|injection H1 as _ <-; reflexivity].
    apply bind_Ret in H1 as (b & p2 & Hb & H1).
    unfold Parser.curTokeHasType in Hb.
    apply bind_Ret in Hb as (t & p3 & Ht & Hb).
    unfold Parser.cur in Ht. destruct (curToken p); [|discriminate Ht].
    injection Ht as _ <-. injection Hb as _ <-.
    destruct (negb b); [|injection H1 as _ <-; reflexivity].
    apply bind_Ret in H1 as (t' & p4 & _ & H1). discriminate H1. }
  apply bind_Ret in H as (u2 & p2 & H2 & H). injection H2 as _ <-.
  apply bind_Ret in H as (tok & p3 & H3 & H).
  unfold Parser.on_lexer in H3. cbn [lexer set_curToken] in H3.
  destruct (Lexer.getToken (lexer p)); try discriminate H3.
  injection H3 as _ <-. injection H as _ <-. cbn. auto.
Qed.

(** Decides the tests on the kind of the current token in [H]. *)
Ltac dispatch Hcur Hk H :=
  repeat (rewrite (bind_curTokeHasType _ _ _ _ Hcur), Hk in H;
          match type of H with
          | context [bool_decide (?a = ?b)] =>
              let v := eval vm_compute in (bool_decide (a = b)) in
              change (bool_decide (a = b)) with v in H
          end;
          cbv iota in H).

(** C1. When compilation succeeds every label recorded by a GOTO is among
    the labels declared by LABEL; when the statements have all been parsed
    and some recorded GOTO target is not declared, [program] exits with the
    undeclared-label error.  The tables never lose a name while the
    statements are parsed, a GOTO statement records its target, and the
    check comes after the last statement, so a GOTO may precede the LABEL it
    names. *)
Theorem goto_targets_are_declared (order : gset string -> list string)
  (p : Parser) :
  walks order ->
  (forall p', Parser.program order p = Ret tt p' ->
     labelsGotoed p' ⊆ labelsDeclared p')
  /\ (forall p1,
        Parser.program_statements p = Ret tt p1 ->
        ~ labelsGotoed p1 ⊆ labelsDeclared p1 ->
        exists label,
          (label ∈ labelsGotoed p1) /\ (label ∉ labelsDeclared p1)
          /\ Parser.program order p
             = SysExit ("Error. Attempting to GOTO to undeclared label: "
                        +:+ label))
  /\ (forall depth p',
        Parser.statement depth p = Ret tt p' ->
        labelsGotoed p ⊆ labelsGotoed p'
        /\ labelsDeclared p ⊆ labelsDeclared p')
  /\ (forall depth t target p',
        curToken p = Some t -> kind t = TokenType.GOTO ->
        peekToken p = Some target ->
        Parser.statement depth p = Ret tt p' ->
        text target ∈ labelsGotoed p')
  /\ output_text (compile order ("GOTO end" +:+ str LF +:+ "LABEL end"))
     = Some (Emitter.unlines
               ["#include <stdio.h>"; "int main(void){"; "goto end;";
                "end:"; "return 0;"; "}"]).
Proof.
  intros Hw. repeat split.
  - intros p' H. unfold Parser.program in H.
    apply bind_Ret in H as (u1 & p1 & Hs & H).
    apply bind_Ret in H as (u2 & p2 & Hc & H).
    pose proof (check_labels_same _ _ _ _ Hc) as ->.
    apply (check_labels_Ret _ _ _ _ Hw) in Hc.
    apply bind_Ret in H as (u3 & p3 & H3 & H).
    injection H3 as _ <-. injection H as <-. exact Hc.
  - intros p1 Hs Hn.
    destruct (check_labels_exit order p1 Hw Hn) as (label & Hi & Hd & He).
    exists label. split; [exact Hi|]. split; [exact Hd|].
    unfold Parser.program. rewrite (bind_of_Ret _ _ _ _ _ Hs).
    unfold bind. rewrite He. reflexivity.
  - apply statement_grows in H. apply H.
  - apply statement_grows in H. apply H.
  - intros depth t target p' Hcur Hk Hpeek H.
    destruct depth as [|depth]; [discriminate H|]. cbn [Parser.statement] in H.
    apply bind_Ret in H as (u1 & p1 & H1 & H).
    apply nl_steps with (R := grows) in H; try grows_side.
    apply H.
    dispatch Hcur Hk H1.
    apply bind_Ret in H1 as (u2 & p2 & H2 & H1).
    apply skipCurToken_Ret in H2 as (Hc2 & _ & _ & Hg2 & _).
    rewrite Hpeek in Hc2. rewrite (bind_cur _ _ _ Hc2) in H1.
    apply bind_Ret in H1 as (u3 & p3 & H3 & H1). injection H3 as _ <-.
    apply bind_Ret in H1 as (u4 & p4 & H4 & H1). injection H4 as _ <-.
    apply skipCurToken_Ret in H1 as (_ & _ & _ & Hg & _).
    rewrite Hg. cbn. apply elem_of_union. left. apply elem_of_singleton.
    reflexivity.
  - apply output_order_irrelevant; [exact Hw | vm_compute; reflexivity].
Qed.

Lemma goto_targets_are_declared_witness :
  let p0 := mkParser (at_pos (str LF) 2) (Emitter.init "out.c")
              ∅ ∅ {["a"]} (Some eof_token) (Some eof_token) in
  exists label,
    (label ∈ ({["a"]} : gset string)) /\ (label ∉ (∅ : gset string))
    /\ Parser.program elements p0
       = SysExit ("Error. Attempting to GOTO to undeclared label: " +:+ label).
Proof.
  intros p0.
  destruct (goto_targets_are_declared elements p0 walks_elements)
    as (_ & Hexit & _).
  apply (Hexit
           (set_emitter
              (Emitter.headerLine "int main(void){"
                 (Emitter.headerLine "#include <stdio.h>" (emitter p0))) p0)).
  - vm_compute. reflexivity.
  - intros Hsub. cbn in Hsub.
    apply (not_elem_of_empty (C := gset string) "a").
    apply Hsub. apply elem_of_singleton. reflexivity.
Defined.

(** ** Determinism and the output artifact *)

(** C7. Compilation is deterministic: the text of the output is the same
    for every order in which the run happens to walk the set of GOTO
    targets, the only thing in the compiler that the source does not
    fix; so two runs on the same source write the same text. *)
Theorem compilation_is_deterministic
  (order1 order2 : gset string -> list string) :
  walks order1 -> walks order2 ->
  (forall source,
     output_text (compile order1 source) = output_text (compile order2 source))
  /\ (forall argv files,
        written (main order1 argv files) = written (main order2 argv files)).
Proof.
  intros H1 H2.
  assert (Hout : forall source,
    match compile order1 source, compile order2 source with
    | Ret _ p1, Ret _ p2 => p1 = p2
    | Ret _ _, _ | _, Ret _ _ => False
    | _, _ => True
    end).
  { intros source.
    destruct (compile order1 source) as [u1 p1| | |] eqn:E1.
    - rewrite (compile_order_irrelevant _ _ _ _ _ H1 H2 E1). reflexivity.
    - destruct (compile order2 source) as [u2 p2| | |] eqn:E2; auto.
      rewrite (compile_order_irrelevant _ _ _ _ _ H2 H1 E2) in E1.
      discriminate E1.
    - destruct (compile order2 source) as [u2 p2| | |] eqn:E2; auto.
      rewrite (compile_order_irrelevant _ _ _ _ _ H2 H1 E2) in E1.
      discriminate E1.
    - destruct (compile order2 source) as [u2 p2| | |] eqn:E2; auto.
      rewrite (compile_order_irrelevant _ _ _ _ _ H2 H1 E2) in E1.
      discriminate E1. }
  split.
  - intros source. specialize (Hout source).
    destruct (compile order1 source), (compile order2 source);
      simpl; try contradiction; try reflexivity.
    subst. reflexivity.
  - intros argv files. unfold main.
    destruct argv as [|prog [|path [|x argv]]]; try reflexivity.
    destruct (files !! path) as [source|]; [|reflexivity].
    specialize (Hout source).
    destruct (compile order1 source), (compile order2 source);
      simpl; try contradiction; try reflexivity.
    subst. reflexivity.
Qed.

Lemma walks_reverse_elements :
  walks (fun X : gset string => reverse (elements X)).
Proof. intros X x. rewrite elem_of_reverse. apply elem_of_elements. Qed.

Lemma compilation_is_deterministic_witness :
  output_text (compile elements ("GOTO b" +:+ str LF +:+ "LABEL b"))
  = output_text
      (compile (fun X : gset string => reverse (elements X))
         ("GOTO b" +:+ str LF +:+ "LABEL b")).
Proof.
  apply (compilation_is_deterministic elements
           (fun X : gset string => reverse (elements X))
           walks_elements walks_reverse_elements).
Defined.

Lemma init_grows lexer e p :
  Parser.init lexer e = Ret tt p ->
  fullPath (emitter p) = fullPath e.
Proof.
  unfold Parser.init. intros H.
  assert (Hs : steps grows (Parser.skipCurToken None ;; Parser.skipCurToken None))
    by steps_go.
  apply Hs in H as (_ & _ & _ & _ & H). exact H.
Qed.

Lemma compile_fullPath order source p :
  compile order source = Ret tt p -> fullPath (emitter p) = "out.c".
Proof.
  unfold compile.
  destruct (Lexer.init source) as [u0 l| | |]; try discriminate.
  destruct (Parser.init l (Emitter.init "out.c")) as [[] p0| | |] eqn:E;
    try discriminate.
  intros H. apply program_grows in H as (_ & _ & _ & _ & H).
  rewrite H. apply init_grows in E. exact E.
Qed.

(** C4. The output file is written only when compilation succeeds: a run
    that does not complete (a fatal lexical, syntax or semantic error
    among the causes) writes no file, and a run that completes writes
    exactly one, the text of the emitter at [out.c], after [program] has
    returned.  The program [PRINT y] exits with the undeclared-variable
    error and writes nothing. *)
Theorem output_is_written_only_on_success
  (order : gset string -> list string) (argv : list string)
  (files : gmap string string) :
  (ended (main order argv files) <> Completed ->
     written (main order argv files) = [])
  /\ (ended (main order argv files) = Completed ->
      exists prog path source p,
        argv = [prog; path] /\ files !! path = Some source
        /\ compile order source = Ret tt p
        /\ written (main order argv files)
           = [("out.c", Emitter.contents (emitter p))])
  /\ (forall prog path,
        files !! path = Some "PRINT y" ->
        main order [prog; path] files
        = mkRun (Exited "Error. Referencing variable before assignment: y")
            [] ["Teeny Tiny Compiler"]).
Proof.
  split; [|split].
  - unfold main.
    destruct argv as [|prog [|path [|x argv]]]; try reflexivity.
    destruct (files !! path) as [source|]; [|reflexivity].
    destruct (compile order source); simpl; try reflexivity.
    intros H. contradiction H. reflexivity.
  - unfold main.
    destruct argv as [|prog [|path [|x argv]]]; try discriminate.
    destruct (files !! path) as [source|] eqn:Ef; [|discriminate].
    destruct (compile order source) as [[] p| | |] eqn:Ec; try discriminate.
    intros _. exists prog, path, source, p.
    split; [reflexivity|]. split; [exact Ef|]. split; [exact Ec|].
    simpl. unfold Emitter.writeFile.
    rewrite (compile_fullPath _ _ _ Ec). reflexivity.
  - intros prog path Hf. unfold main. rewrite Hf. reflexivity.
Qed.

(** ** The declaration of a variable appears once *)

Lemma append_inj_r a b c : a +:+ c = b +:+ c -> a = b.
Proof.
  revert b. induction a as [|x a IH]; intros [|y b] H.
  - reflexivity.
  - exfalso. change (c = String y (b +:+ c)) in H.
    apply (f_equal String.length) in H. cbn [String.length] in H.
    rewrite length_append in H. lia.
  - exfalso. change (String x (a +:+ c) = c) in H.
    apply (f_equal String.length) in H. cbn [String.length] in H.
    rewrite length_append in H. lia.
  - rewrite !append_String in H. injection H as -> H.
    f_equal. apply IH, H.
Qed.

Lemma declaration_inj x y : declaration x = declaration y -> x = y.
Proof.
  unfold declaration. intros H. apply String.app_inj in H.
  apply append_inj_r in H. exact H.
Qed.

Lemma keeps_refl {St} (I : St -> Prop) s : keeps I s s.
Proof. intros H. exact H. Qed.

Lemma keeps_trans {St} (I : St -> Prop) s1 s2 s3 :
  keeps I s1 s2 -> keeps I s2 s3 -> keeps I s1 s3.
Proof. unfold keeps. auto. Qed.

#[export] Hint Resolve keeps_refl keeps_trans : steps.

(** [declared_once] looks at the header and the declared set only. *)
Lemma declared_once_same p p' :
  header (emitter p') = header (emitter p) ->
  symbolsDeclared p' = symbolsDeclared p ->
  keeps declared_once p p'.
Proof. intros Hh Hs H x. rewrite Hh, Hs. apply H. Qed.

Lemma declare_keeps ident :
  steps (keeps declared_once) (Parser.declare_on_first_use ident).
Proof.
  intros p u p' H Inv. unfold Parser.declare_on_first_use in H.
  rewrite bind_gets in H.
  destruct (bool_decide (ident ∈ symbolsDeclared p)) eqn:Ei.
  - injection H as _ <-. exact Inv.
  - injection H as _ <-. apply bool_decide_eq_false in Ei.
    intros x. cbn. change ("float " +:+ ident +:+ ";") with (declaration ident).
    rewrite count_occ_app. cbn [count_occ].
    pose proof (Inv x) as Hx.
    destruct (String.string_dec (declaration ident) (declaration x)) as [E|E].
    + apply declaration_inj in E. subst x.
      rewrite bool_decide_eq_false_2 in Hx by exact Ei.
      rewrite bool_decide_eq_true_2 by set_solver. lia.
    + destruct (bool_decide (x ∈ symbolsDeclared p)) eqn:Ex.
      * apply bool_decide_eq_true in Ex.
        rewrite bool_decide_eq_true_2 by set_solver. lia.
      * apply bool_decide_eq_false in Ex.
        rewrite bool_decide_eq_false_2; [lia|].
        intros Hin. apply elem_of_union in Hin as [Hin|Hin]; [|auto].
        apply elem_of_singleton in Hin. subst x. auto.
Qed.

Lemma headerLine_keeps code :
  (forall x, code <> declaration x) ->
  steps (keeps declared_once) (Parser.headerLine code).
Proof.
  intros Hc p u p' H Inv. injection H as _ <-. intros x. cbn.
  rewrite count_occ_app. cbn [count_occ].
  destruct (String.string_dec code (declaration x)) as [E|E];
    [exfalso; apply (Hc x E)|].
  pose proof (Inv x). lia.
Qed.

Lemma getToken_keeps :
  steps (keeps declared_once) (Parser.on_lexer Lexer.getToken).
Proof.
  apply on_lexer_steps. intros. apply declared_once_same; reflexivity.
Qed.

Ltac keeps_side :=
  first [ exact getToken_keeps
        | exact (keeps_refl declared_once)
        | exact (keeps_trans declared_once)
        | exact declare_keeps
        | intros; apply declared_once_same; reflexivity ].

Lemma skipCurToken_keeps rt :
  steps (keeps declared_once) (Parser.skipCurToken rt).
Proof. apply skipCurToken_steps; keeps_side. Qed.

Lemma statement_keeps depth :
  steps (keeps declared_once) (Parser.statement depth).
Proof. apply statement_steps; keeps_side. Qed.

Lemma emitLine_keeps code : steps (keeps declared_once) (Parser.emitLine code).
Proof. apply emitLine_steps. keeps_side. Qed.

Lemma curTokeHasType_keeps k :
  steps (keeps declared_once) (Parser.curTokeHasType k).
Proof. apply curTokeHasType_steps; keeps_side. Qed.

Lemma check_labels_keeps order :
  steps (keeps declared_once) (Parser.check_labels order).
Proof.
  intros p u p' H. apply check_labels_same in H as ->. apply keeps_refl.
Qed.

#[export] Hint Resolve skipCurToken_keeps statement_keeps emitLine_keeps
  curTokeHasType_keeps check_labels_keeps : steps.

Lemma program_keeps order : steps (keeps declared_once) (Parser.program order).
Proof.
  unfold Parser.program, Parser.program_statements. steps_go.
  - apply headerLine_keeps. intros x. discriminate.
  - apply headerLine_keeps. intros x. discriminate.
  - intros p u p' H. eapply steps_while in H; eauto with steps. steps_go.
Qed.

Lemma compile_declared_once order source p :
  compile order source = Ret tt p -> declared_once p.
Proof.
  unfold compile.
  destruct (Lexer.init source) as [u0 l| | |]; try discriminate.
  destruct (Parser.init l (Emitter.init "out.c")) as [[] p0| | |] eqn:E;
    try discriminate.
  intros H. apply program_keeps in H. apply H.
  unfold Parser.init in E.
  assert (Hs : steps (keeps declared_once)
                 (Parser.skipCurToken None ;; Parser.skipCurToken None))
    by steps_go.
  apply Hs in E. apply E. intros x. cbn. lia.
Qed.

(** C2. The LET and INPUT branches declare a variable through one step
    that does nothing when the name is in the declared set and otherwise
    adds the name to the set and appends its declaration line to the
    header; so in the output of every compilation the declaration line of
    a name occurs at most once, and not at all for a name never
    declared. *)
Theorem declarations_are_unique (order : gset string -> list string)
  (source : string) (p : Parser) :
  compile order source = Ret tt p ->
  (forall x,
     count_occ String.string_dec (header (emitter p)) (declaration x) <= 1)
  /\ (forall x,
        x ∉ symbolsDeclared p ->
        count_occ String.string_dec (header (emitter p)) (declaration x) = 0)
  /\ (forall ident q,
        ident ∈ symbolsDeclared q ->
        Parser.declare_on_first_use ident q = Ret tt q)
  /\ (forall ident q,
        ident ∉ symbolsDeclared q ->
        Parser.declare_on_first_use ident q
        = Ret tt
            (set_emitter
               (Emitter.headerLine (declaration ident) (emitter q))
               (set_symbolsDeclared ({[ident]} ∪ symbolsDeclared q) q))).
Proof.
  intros H. apply compile_declared_once in H.
  split; [|split; [|split]].
  - intros x. specialize (H x).
    destruct (bool_decide (x ∈ symbolsDeclared p)); lia.
  - intros x Hx. specialize (H x).
    rewrite bool_decide_eq_false_2 in H by exact Hx. lia.
  - intros ident q Hin. unfold Parser.declare_on_first_use.
    rewrite bind_gets, bool_decide_eq_true_2 by exact Hin. reflexivity.
  - intros ident q Hin. unfold Parser.declare_on_first_use.
    rewrite bind_gets, bool_decide_eq_false_2 by exact Hin. reflexivity.
Qed.

Lemma declarations_are_unique_witness :
  exists p,
    compile elements
      ("LET x = 1" +:+ str LF +:+ "LET x = 2" +:+ str LF +:+ "INPUT x")
    = Ret tt p
    /\ forall x,
         count_occ String.string_dec (header (emitter p)) (declaration x) <= 1.
Proof.
  destruct (compile elements
              ("LET x = 1" +:+ str LF +:+ "LET x = 2" +:+ str LF +:+ "INPUT x"))
    as [[] p| | |] eqn:E.
  - exists p. split; [reflexivity|].
    apply (declarations_are_unique elements _ p E).
  - vm_compute in E. discriminate E.
  - vm_compute in E. discriminate E.
  - vm_compute in E. discriminate E.
Defined.

(** ** Comparisons *)

Lemma curTokeHasType_at p t k :
  curToken p = Some t ->
  Parser.curTokeHasType k p = Ret (bool_decide (k = kind t)) p.
Proof.
  intros H. unfold Parser.curTokeHasType, bind, Parser.cur. rewrite H.
  reflexivity.
Qed.

Lemma or_else_at (b : M Parser bool) p t k :
  curToken p = Some t ->
  or_else (Parser.curTokeHasType k) b p
  = if bool_decide (k = kind t) then Ret true p else b p.
Proof.
  intros H. unfold or_else. rewrite (bind_curTokeHasType _ _ _ _ H).
  destruct (bool_decide (k = kind t)); reflexivity.
Qed.

Lemma curTokenIsComparisonOperator_at p t :
  curToken p = Some t ->
  Parser.curTokenIsComparisonOperator p
  = Ret (bool_decide (kind t ∈ comparison_operators)) p.
Proof.
  intros H. unfold Parser.curTokenIsComparisonOperator.
  rewrite !(or_else_at _ _ _ _ H), (curTokeHasType_at _ _ _ H).
  destruct (kind t); reflexivity.
Qed.

(** C3. A comparison needs an operator after its first expression: when
    the token that follows the first expression is not one of [==], [!=],
    [>], [>=], [<], [<=], [comparison] exits with a fatal error, so a
    comparison that is accepted has one; after the first operator and its
    expression, the loop takes any number of further operator and
    expression pairs. *)
Theorem comparison_needs_an_operator (p p1 : Parser) (t : Token) :
  Parser.expression p = Ret tt p1 -> curToken p1 = Some t ->
  (kind t ∉ comparison_operators ->
     Parser.comparison p
     = SysExit ("Error. Expected comparison operator at: " +:+ text t))
  /\ (forall p', Parser.comparison p = Ret tt p' ->
        kind t ∈ comparison_operators)
  /\ (kind t ∈ comparison_operators ->
      Parser.comparison p
      = ((Parser.emit (text t) ;; Parser.skipCurToken None ;;
          Parser.expression) ;;
         while_within Parser.budget Parser.curTokenIsComparisonOperator
           (t' <- Parser.cur ;; Parser.emit (text t') ;;
            Parser.skipCurToken None ;; Parser.expression)) p1)
  /\ compile elements ("IF 1 THEN" +:+ str LF +:+ "ENDIF")
     = SysExit "Error. Expected comparison operator at: THEN"
  /\ output_text (compile elements ("IF 1 > 2 THEN" +:+ str LF +:+ "ENDIF"))
     = Some (Emitter.unlines
               ["#include <stdio.h>"; "int main(void){"; "if(1>2){"; "}";
                "return 0;"; "}"])
  /\ output_text
       (compile elements ("IF 1 < 2 == 3 != 4 THEN" +:+ str LF +:+ "ENDIF"))
     = Some (Emitter.unlines
               ["#include <stdio.h>"; "int main(void){"; "if(1<2==3!=4){";
                "}"; "return 0;"; "}"]).
Proof.
  intros He Hcur.
  assert (Hc : Parser.comparison p =
    (isOp <- Parser.curTokenIsComparisonOperator ;;
     (if isOp
      then t <- Parser.cur ;; Parser.emit (text t) ;;
           Parser.skipCurToken None ;; Parser.expression
      else t <- Parser.cur ;;
           Parser.abort ("Expected comparison operator at: " +:+ text t)) ;;
     while_within Parser.budget Parser.curTokenIsComparisonOperator
       (t <- Parser.cur ;; Parser.emit (text t) ;;
        Parser.skipCurToken None ;; Parser.expression)) p1).
  { unfold Parser.comparison. rewrite (bind_of_Ret _ _ _ _ _ He). reflexivity. }
  rewrite (bind_of_Ret _ _ _ _ _ (curTokenIsComparisonOperator_at p1 t Hcur))
    in Hc.
  split; [|split; [|split; [|split; [|split]]]].
  - intros Hn. rewrite Hc, bool_decide_eq_false_2 by exact Hn.
    unfold bind at 1. rewrite (bind_cur _ _ _ Hcur). reflexivity.
  - intros p' H. rewrite Hc in H.
    destruct (bool_decide (kind t ∈ comparison_operators)) eqn:E.
    + apply bool_decide_eq_true in E. exact E.
    + unfold bind at 1 in H. rewrite (bind_cur _ _ _ Hcur) in H.
      discriminate H.
  - intros Hin. rewrite Hc, bool_decide_eq_true_2 by exact Hin.
    unfold bind at 1 4. rewrite (bind_cur _ _ _ Hcur). reflexivity.
  - vm_compute. reflexivity.
  - vm_compute. reflexivity.
  - vm_compute. reflexivity.
Qed.

Lemma comparison_needs_an_operator_witness :
  let s := "1 THEN" +:+ str LF in
  let p0 := mkParser (at_pos s 6) (Emitter.init "out.c") ∅ ∅ ∅
              (Some (mkToken "1" TokenType.NUMBER))
              (Some (mkToken "THEN" TokenType.THEN)) in
  Parser.comparison p0
  = SysExit "Error. Expected comparison operator at: THEN".
Proof.
  intros s p0.
  apply (comparison_needs_an_operator p0
           (mkParser (at_pos s 7) (mkEmitter "out.c" [] [] "1") ∅ ∅ ∅
              (Some (mkToken "THEN" TokenType.THEN))
              (Some (mkToken (str LF) TokenType.NEWLINE)))
           (mkToken "THEN" TokenType.THEN));
    first [ apply bool_decide_eq_false; reflexivity
          | vm_compute; reflexivity ].
Defined.

(** ** LET declares before it parses the initializer *)

Lemma declare_on_first_use_Ret ident p u p' :
  Parser.declare_on_first_use ident p = Ret u p' ->
  (ident ∈ symbolsDeclared p')
  /\ (ident ∉ symbolsDeclared p ->
      declaration ident ∈ header (emitter p')).
Proof.
  unfold Parser.declare_on_first_use. rewrite bind_gets.
  destruct (bool_decide (ident ∈ symbolsDeclared p)) eqn:E.
  - apply bool_decide_eq_true in E. intros [= _ <-].
    split; [exact E | contradiction].
  - intros [= _ <-]. cbn. split.
    + apply elem_of_union. left. apply elem_of_singleton. reflexivity.
    + intros _. apply elem_of_app. right. apply list_elem_of_singleton.
      reflexivity.
Qed.

Lemma bind_at {St A B} (m m' : M St A) (k : A -> M St B) s :
  m s = m' s -> bind m k s = bind m' k s.
Proof. unfold bind. intros ->. reflexivity. Qed.

(** C10. In a LET statement the name is put in the declared set, and the
    declaration of a new name in the header, before the right-hand side is
    parsed: the part of the LET branch that runs before [expression] ends
    in a state that has them.  So [LET x = x + 1] with [x] not declared
    before is accepted and compiles. *)
Theorem let_declares_before_initializer (p p1 : Parser) :
  Parser.let_head p = Ret tt p1 ->
  (exists name,
     peekToken p = Some name
     /\ (text name ∈ symbolsDeclared p1)
     /\ (text name ∉ symbolsDeclared p ->
         declaration (text name) ∈ header (emitter p1)))
  /\ (forall depth t,
        curToken p = Some t -> kind t = TokenType.LET ->
        Parser.statement (S depth) p
        = ((Parser.let_head ;; Parser.expression ;; Parser.emitLine ";") ;;
           Parser.nl) p)
  /\ output_text (compile elements "LET x = x + 1")
     = Some (Emitter.unlines
               ["#include <stdio.h>"; "int main(void){"; "float x;";
                "x = x+1;"; "return 0;"; "}"]).
Proof.
  intros H. split; [|split].
  - unfold Parser.let_head in H.
    apply bind_Ret in H as (u1 & p2 & H1 & H).
    apply skipCurToken_Ret in H1 as (Hc & Hs & _ & _ & He).
    apply bind_Ret in H as (name & p3 & Hn & H).
    unfold Parser.cur in Hn. destruct (curToken p2) as [t|] eqn:Et;
      [|discriminate Hn].
    injection Hn as -> <-.
    apply bind_Ret in H as (u2 & p4 & Hd & H).
    apply declare_on_first_use_Ret in Hd as [Hin Hnew].
    assert (Hg : grows p4 p1).
    { revert H. generalize p4 tt p1.
      change (steps grows
                (Parser.emit (text name +:+ " = ") ;;
                 Parser.skipCurToken (Some TokenType.IDENT) ;;
                 Parser.skipCurToken (Some TokenType.EQ))).
      steps_go. apply emit_steps. exact grows_emit. }
    destruct Hg as (Gs & _ & _ & Gh & _).
    exists name. split; [congruence|]. split; [apply Gs, Hin|].
    intros Hnot. apply Gh, Hnew. rewrite Hs. exact Hnot.
  - intros depth t Hcur Hk. cbn [Parser.statement].
    apply bind_at.
    repeat (rewrite (bind_curTokeHasType _ _ _ _ Hcur), Hk;
            match goal with
            | |- context [bool_decide (?a = ?b)] =>
                let v := eval vm_compute in (bool_decide (a = b)) in
                change (bool_decide (a = b)) with v
            end;
            cbv iota).
    reflexivity.
  - vm_compute. reflexivity.
Qed.

Lemma let_declares_before_initializer_witness :
  let p0 := mkParser (at_pos ("LET x = x + 1" +:+ str LF) 5)
              (Emitter.init "out.c") ∅ ∅ ∅
              (Some (mkToken "LET" TokenType.LET))
              (Some (mkToken "x" TokenType.IDENT)) in
  exists p1,
    Parser.let_head p0 = Ret tt p1
    /\ exists name,
         peekToken p0 = Some name
         /\ (text name ∈ symbolsDeclared p1)
         /\ (text name ∉ symbolsDeclared p0 ->
             declaration (text name) ∈ header (emitter p1)).
Proof.
  intros p0.
  destruct (Parser.let_head p0) as [[] p1| | |] eqn:E.
  - exists p1. split; [reflexivity|].
    apply (let_declares_before_initializer p0 p1 E).
  - vm_compute in E. discriminate E.
  - vm_compute in E. discriminate E.
  - vm_compute in E. discriminate E.
Defined.

(** ** Totality: no call raises or exhausts its budget *)

Lemma wp_bind {St A B} (m : M St A) (k : A -> M St B) s Q :
  wp (m s) (fun a s1 => wp (k a s1) Q) -> wp (bind m k s) Q.
Proof. unfold bind. destruct (m s); simpl; auto. Qed.

Lemma wp_mono {St A} (r : outcome St A) (Q Q' : A -> St -> Prop) :
  wp r Q -> (forall a s, Q a s -> Q' a s) -> wp r Q'.
Proof. destruct r; simpl; auto. Qed.

Lemma wp_Ret {St A} (r : outcome St A) Q a s : r = Ret a s -> Q a s -> wp r Q.
Proof. intros ->. auto. Qed.

(** The loop rule: the condition only reads the state, and each turn of
    the body lowers a measure that the budget exceeds. *)
Lemma wp_while {St} (I : St -> Prop) (mu : St -> nat)
  (cond : M St bool) (body : M St unit) :
  (forall s, I s -> exists b, cond s = Ret b s) ->
  (forall s, I s -> cond s = Ret true s ->
     wp (body s) (fun _ s' => I s' /\ mu s' < mu s)) ->
  forall fuel s, I s -> mu s < fuel ->
    wp (while fuel cond body s)
       (fun _ s' => I s' /\ mu s' <= mu s /\ cond s' = Ret false s').
Proof.
  intros Hc Hb fuel. induction fuel as [|fuel IH]; intros s HI Hmu; [lia|].
  cbn [while]. unfold bind at 1. destruct (Hc s HI) as [b Eb]. rewrite Eb.
  destruct b.
  - apply wp_bind. eapply wp_mono; [apply (Hb s HI Eb)|].
    intros _ s1 [HI1 Hlt]. cbv beta.
    eapply wp_mono; [apply IH; [exact HI1 | lia]|].
    intros _ s2 (HI2 & Hle & Ec). repeat split; auto. lia.
  - simpl. repeat split; auto.
Qed.

Lemma wp_while_within {St} (I : St -> Prop) (mu : St -> nat)
  (budget : St -> nat) (cond : M St bool) (body : M St unit) s :
  (forall s, I s -> exists b, cond s = Ret b s) ->
  (forall s, I s -> cond s = Ret true s ->
     wp (body s) (fun _ s' => I s' /\ mu s' < mu s)) ->
  I s -> mu s < budget s ->
  wp (while_within budget cond body s)
     (fun _ s' => I s' /\ mu s' <= mu s /\ cond s' = Ret false s').
Proof. intros Hc Hb HI Hmu. unfold while_within. eapply wp_while; eauto. Qed.

(** *** The lexer *)

Lemma char_or_eof_not_eof s n :
  char_or_eof s n <> Lexer.EOF -> n < String.length s.
Proof.
  intros H. destruct (Nat.lt_ge_cases n (String.length s)) as [Hlt|Hge];
    [exact Hlt|].
  exfalso. apply H. apply char_or_eof_end. exact Hge.
Qed.

Lemma ends_nl_ahead s n :
  ends_nl s -> n < String.length s -> char_or_eof s n <> LF ->
  nl_ahead s (S n).
Proof.
  intros [pre ->] Hn Hc. exists (String.length pre).
  rewrite length_append in Hn. cbn in Hn.
  assert (Hg : String.get (String.length pre) (pre +:+ str LF) = Some LF).
  { rewrite get_text_from, text_from_length_app. reflexivity. }
  split; [|exact Hg].
  destruct (Nat.eq_dec n (String.length pre)) as [->|Hne]; [|lia].
  exfalso. apply Hc. unfold char_or_eof. rewrite Hg. reflexivity.
Qed.

Lemma nl_ahead_lt s n : nl_ahead s n -> n < String.length s.
Proof.
  intros (j & Hj & Hg).
  destruct (Nat.lt_ge_cases j (String.length s)) as [Hlt|Hge]; [lia|].
  rewrite get_None in Hg by exact Hge. discriminate Hg.
Qed.

Lemma nl_ahead_S s n :
  nl_ahead s n -> char_or_eof s n <> LF -> nl_ahead s (S n).
Proof.
  intros (j & Hj & Hg) Hc. exists j. split; [|exact Hg].
  destruct (Nat.eq_dec n j) as [->|Hne]; [|lia].
  exfalso. apply Hc. unfold char_or_eof. rewrite Hg. reflexivity.
Qed.

Lemma skipWhitespace_total s n :
  wp (Lexer.skipWhitespace (at_pos s n))
     (fun _ l' => exists n',
        l' = at_pos s n' /\ n <= n' /\ n' <= Nat.max n (String.length s)).
Proof.
  unfold Lexer.skipWhitespace.
  eapply wp_mono.
  - apply (wp_while_within
             (fun l => exists n',
                l = at_pos s n' /\ n <= n'
                /\ n' <= Nat.max n (String.length s))
             (fun l => Z.to_nat (len (source l) - curPos l))).
    + intros l _. eexists. reflexivity.
    + intros l (n' & -> & H1 & H2) Hc. injection Hc as Hc.
      apply bool_decide_eq_true in Hc.
      assert (Hlt : n' < String.length s).
      { apply char_or_eof_not_eof. intros E.
        assert (Hno : ~ (Lexer.EOF ∈ Lexer.WHITESPACE))
          by (apply (bool_decide_eq_false_1 (Lexer.EOF ∈ Lexer.WHITESPACE));
              reflexivity).
        apply Hno. rewrite <- E. exact Hc. }
      rewrite skipCurChar_at_pos. simpl. split.
      * exists (S n'). split; [reflexivity | lia].
      * unfold len. lia.
    + exists n. split; [reflexivity | lia].
    + unfold Lexer.ahead. lia.
  - intros _ l' (H & _ & _). exact H.
Qed.

Lemma skipComment_total s n :
  ends_nl s ->
  wp (Lexer.skipComment (at_pos s n))
     (fun _ l' => exists n',
        l' = at_pos s n' /\ n <= n' /\ n' <= Nat.max n (String.length s)).
Proof.
  intros Hs. unfold Lexer.skipComment. rewrite bind_gets.
  cbn [curChar at_pos].
  destruct (Ascii.eqb (char_or_eof s n) Lexer.HASHMARK) eqn:E.
  - apply Ascii.eqb_eq in E.
    assert (Hlt : n < String.length s).
    { apply char_or_eof_not_eof. rewrite E. discriminate. }
    pose proof (ends_nl_ahead s n Hs Hlt) as Hnl.
    eapply wp_mono.
    + apply (wp_while_within
               (fun l => exists n', l = at_pos s n' /\ n <= n' /\ nl_ahead s n')
               (fun l => Z.to_nat (len (source l) - curPos l))).
      * intros l _. eexists. reflexivity.
      * intros l (n' & -> & H1 & H2) Hc. injection Hc as Hc.
        apply negb_true_iff, Ascii.eqb_neq in Hc. cbn in Hc.
        pose proof (nl_ahead_lt _ _ H2).
        rewrite skipCurChar_at_pos. simpl. split.
        -- exists (S n'). split; [reflexivity|]. split; [lia|].
           apply nl_ahead_S; assumption.
        -- unfold len. lia.
      * exists n. split; [reflexivity|]. split; [lia|].
        exists (pred (String.length s)). destruct Hs as [pre ->].
        rewrite length_append. cbn.
        replace (pred (String.length pre + 1)) with (String.length pre) by lia.
        rewrite length_append in Hlt. cbn in Hlt. split; [lia|].
        rewrite get_text_from, text_from_length_app. reflexivity.
      * unfold Lexer.ahead. lia.
    + intros _ l' ((n' & -> & H1 & H2) & _ & _). exists n'.
      split; [reflexivity|]. pose proof (nl_ahead_lt _ _ H2). lia.
  - simpl. exists n. split; [reflexivity | lia].
Qed.

Lemma classified_here s n c k :
  char_or_eof s n <> Lexer.EOF -> k <> TokenType.EOF ->
  classified s n (mkToken c k) (at_pos s n).
Proof.
  intros Hc Hk. exists n. split; [reflexivity|]. split; [lia|].
  right. split; [exact Hk | apply char_or_eof_not_eof, Hc].
Qed.

Lemma classified_at s n n' c k :
  n <= n' -> n' < String.length s -> k <> TokenType.EOF ->
  classified s n (mkToken c k) (at_pos s n').
Proof.
  intros H1 H2 Hk. exists n'. split; [reflexivity|]. split; [exact H1|].
  right. split; assumption.
Qed.

Lemma scan_bound f s n :
  n < String.length s ->
  n + String.length (run_of f (text_from (S n) s)) < String.length s.
Proof.
  intros H. pose proof (length_run_of_le f (text_from (S n) s)).
  pose proof (length_text_from (S n) s). lia.
Qed.

Lemma op_or_op_eq_total s n plain with_eq :
  char_or_eof s n <> Lexer.EOF ->
  plain <> TokenType.EOF -> with_eq <> TokenType.EOF ->
  wp (Lexer.op_or_op_eq plain with_eq (at_pos s n)) (classified s n).
Proof.
  intros Hc Hp Hw. unfold Lexer.op_or_op_eq.
  rewrite (bind_of_Ret _ _ _ _ _ (peek_at_pos s n)).
  destruct (Ascii.eqb (char_or_eof s (S n)) "=") eqn:E.
  - apply Ascii.eqb_eq in E. rewrite bind_gets.
    rewrite (bind_of_Ret _ _ _ _ _ (skipCurChar_at_pos s n)).
    rewrite bind_gets. simpl. apply classified_at; [lia | | exact Hw].
    apply char_or_eof_not_eof. rewrite E. discriminate.
  - rewrite bind_gets. simpl. apply classified_here; assumption.
Qed.

Lemma bang_branch_total s n :
  wp (Lexer.bang_branch (at_pos s n)) (classified s n).
Proof.
  unfold Lexer.bang_branch.
  rewrite (bind_of_Ret _ _ _ _ _ (peek_at_pos s n)).
  destruct (Ascii.eqb (char_or_eof s (S n)) "=") eqn:E.
  - apply Ascii.eqb_eq in E. rewrite bind_gets.
    rewrite (bind_of_Ret _ _ _ _ _ (skipCurChar_at_pos s n)).
    rewrite bind_gets. simpl. apply classified_at; [lia | | discriminate].
    apply char_or_eof_not_eof. rewrite E. discriminate.
  - rewrite (bind_of_Ret _ _ _ _ _ (peek_at_pos s n)). exact I.
Qed.

Lemma string_branch_total s n :
  ends_nl s -> char_or_eof s n = Lexer.DOUBLEQUOTE ->
  wp (Lexer.string_branch (at_pos s n)) (classified s n).
Proof.
  intros Hs Hq. unfold Lexer.string_branch.
  assert (Hlt : n < String.length s).
  { apply char_or_eof_not_eof. rewrite Hq. discriminate. }
  assert (Hnl : nl_ahead s (S n)).
  { apply ends_nl_ahead; [exact Hs | exact Hlt |]. rewrite Hq. discriminate. }
  rewrite (bind_of_Ret _ _ _ _ _ (skipCurChar_at_pos s n)).
  rewrite bind_gets. apply wp_bind. eapply wp_mono.
  - apply (wp_while_within
             (fun l => exists n', l = at_pos s n' /\ n <= n' /\ nl_ahead s n')
             (fun l => Z.to_nat (len (source l) - curPos l))).
    + intros l _. eexists. reflexivity.
    + intros l (n' & -> & H1 & H2) _.
      pose proof (nl_ahead_lt _ _ H2).
      rewrite bind_gets. cbn [curChar at_pos].
      destruct (Lexer.illegal_in_string (char_or_eof s n')) eqn:Ei;
        [exact I|].
      apply wp_bind. simpl. rewrite skipCurChar_at_pos. simpl. split.
      * exists (S n'). split; [reflexivity|]. split; [lia|].
        apply nl_ahead_S; [exact H2|]. intros E. rewrite E in Ei.
        discriminate Ei.
      * unfold len. lia.
    + exists (S n). split; [reflexivity|]. split; [lia | exact Hnl].
    + unfold Lexer.ahead. lia.
  - intros _ l' ((n' & -> & H1 & H2) & _ & _). cbv beta.
    rewrite bind_gets. simpl.
    apply classified_at; [exact H1 | apply nl_ahead_lt, H2 | discriminate].
Qed.

Lemma number_branch_total s n :
  n < String.length s ->
  wp (Lexer.number_branch (at_pos s n)) (classified s n).
Proof.
  intros Hlt. unfold Lexer.number_branch. rewrite bind_gets.
  rewrite (bind_of_Ret _ _ _ _ _ (scan_within isdigit s n eq_refl)).
  pose proof (scan_bound isdigit s n Hlt) as Hb.
  set (n1 := n + String.length (run_of isdigit (text_from (S n) s))) in *.
  rewrite (bind_of_Ret _ _ _ _ _ (peek_at_pos s n1)).
  destruct (Ascii.eqb (char_or_eof s (S n1)) ".") eqn:E.
  - apply Ascii.eqb_eq in E.
    assert (Hlt1 : S n1 < String.length s).
    { apply char_or_eof_not_eof. rewrite E. discriminate. }
    unfold bind at 1.
    rewrite (bind_of_Ret _ _ _ _ _ (skipCurChar_at_pos s n1)).
    rewrite (bind_of_Ret _ _ _ _ _ (peek_at_pos s (S n1))).
    destruct (isdigit (char_or_eof s (S (S n1)))); [|exact I].
    cbn [negb]. unfold bind at 1, ret at 1.
    rewrite (scan_within isdigit s (S n1) eq_refl).
    pose proof (scan_bound isdigit s (S n1) Hlt1) as Hb2.
    rewrite bind_gets. simpl.
    apply classified_at; [lia | exact Hb2 | discriminate].
  - unfold bind at 1, ret at 1. rewrite bind_gets. simpl.
    apply classified_at; [lia | exact Hb | discriminate].
Qed.

Lemma word_branch_total s n :
  n < String.length s ->
  wp (Lexer.word_branch (at_pos s n)) (classified s n).
Proof.
  intros Hlt. unfold Lexer.word_branch. rewrite bind_gets.
  rewrite (bind_of_Ret _ _ _ _ _ (scan_within isalnum s n eq_refl)).
  pose proof (scan_bound isalnum s n Hlt) as Hb.
  rewrite bind_gets. cbv zeta.
  destruct (mapTextToKeywordType _) as [k|] eqn:Ek; simpl.
  - apply classified_at; [lia | exact Hb |].
    intros ->. apply (keyword_kind_not_EOF _ Ek).
  - apply classified_at; [lia | exact Hb | discriminate].
Qed.

Lemma classify_total s n :
  ends_nl s -> wp (Lexer.classify (at_pos s n)) (classified s n).
Proof.
  intros Hs. unfold Lexer.classify. rewrite bind_gets. cbn [curChar at_pos].
  assert (Hne : forall c, char_or_eof s n = c -> c <> Lexer.EOF ->
                          char_or_eof s n <> Lexer.EOF) by (intros; congruence).
  repeat match goal with
  | |- wp ((if Ascii.eqb ?c ?d then _ else _) _) _ =>
      let E := fresh "E" in
      destruct (Ascii.eqb c d) eqn:E;
      [apply Ascii.eqb_eq in E|]
  end.
  - simpl. apply classified_here; [rewrite E|]; discriminate.
  - simpl. apply classified_here; [rewrite E0|]; discriminate.
  - simpl. apply classified_here; [rewrite E1|]; discriminate.
  - simpl. apply classified_here; [rewrite E2|]; discriminate.
  - simpl. apply classified_here; [rewrite E3|]; discriminate.
  - simpl. exists n. split; [reflexivity|]. split; [lia|]. left. auto.
  - apply op_or_op_eq_total; try discriminate. rewrite E5. discriminate.
  - apply op_or_op_eq_total; try discriminate. rewrite E6. discriminate.
  - apply op_or_op_eq_total; try discriminate. rewrite E7. discriminate.
  - apply bang_branch_total.
  - apply string_branch_total; assumption.
  - apply Ascii.eqb_neq in E4.
    destruct (isdigit (char_or_eof s n)) eqn:Ed.
    + apply number_branch_total, char_or_eof_not_eof, E4.
    + destruct (isalpha (char_or_eof s n)) eqn:Ea.
      * apply word_branch_total, char_or_eof_not_eof, E4.
      * exact I.
Qed.

Lemma getToken_total s n :
  ends_nl s ->
  wp (Lexer.getToken (at_pos s n))
     (fun t l' => exists n',
        l' = at_pos s n' /\ n < n'
        /\ n' <= S (Nat.max n (String.length s))
        /\ (kind t <> TokenType.EOF -> n' <= String.length s)).
Proof.
  intros Hs. unfold Lexer.getToken.
  apply wp_bind. eapply wp_mono; [apply skipWhitespace_total|].
  intros _ l1 (n1 & -> & H1 & H1'). cbv beta.
  apply wp_bind. eapply wp_mono; [apply skipComment_total, Hs|].
  intros _ l2 (n2 & -> & H2 & H2'). cbv beta.
  apply wp_bind. eapply wp_mono; [apply classify_total, Hs|].
  intros t l3 (n3 & -> & H3 & H3'). cbv beta.
  rewrite (bind_of_Ret _ _ _ _ _ (skipCurChar_at_pos s n3)). simpl.
  exists (S n3). split; [reflexivity|]. split; [lia|].
  destruct H3' as [[Hk ->] | [Hk Hlt]].
  - split; [lia|]. intros Hne. contradiction.
  - split; [lia|]. intros _. lia.
Qed.

(** *** The parser never moves back, and every production moves on *)

Lemma padvances_refl p : padvances p p.
Proof. apply advances_refl. Qed.

Lemma padvances_trans p1 p2 p3 :
  padvances p1 p2 -> padvances p2 p3 -> padvances p1 p3.
Proof. apply advances_trans. Qed.

Lemma pmoves_padvances p1 p2 p3 : pmoves p1 p2 -> padvances p2 p3 -> pmoves p1 p3.
Proof. intros [S1 P1] [S2 P2]. split; [congruence | lia]. Qed.

Lemma padvances_pmoves p1 p2 p3 : padvances p1 p2 -> pmoves p2 p3 -> pmoves p1 p3.
Proof. intros [S1 P1] [S2 P2]. split; [congruence | lia]. Qed.

Lemma pmoves_weaken p p' : pmoves p p' -> padvances p p'.
Proof. intros [S1 P1]. split; [exact S1 | lia]. Qed.

#[export] Hint Resolve padvances_refl padvances_trans : steps.

Lemma padvances_same p p' : lexer p' = lexer p -> padvances p p'.
Proof. intros H. unfold padvances. rewrite H. apply advances_refl. Qed.

Lemma getToken_padvances : steps padvances (Parser.on_lexer Lexer.getToken).
Proof.
  intros p a p' H. unfold Parser.on_lexer in H.
  destruct (Lexer.getToken (lexer p)) as [t l| | |] eqn:E; try discriminate H.
  injection H as _ <-. apply getToken_advances in E. exact E.
Qed.

Lemma declare_padvances ident :
  steps padvances (Parser.declare_on_first_use ident).
Proof.
  unfold Parser.declare_on_first_use. steps_go;
    apply steps_modify; intros p; apply padvances_same; reflexivity.
Qed.

Ltac padvances_side :=
  first [ exact padvances_refl | exact padvances_trans
        | exact getToken_padvances | exact declare_padvances
        | intros; apply padvances_same; reflexivity ].

Lemma skipCurToken_padvances rt : steps padvances (Parser.skipCurToken rt).
Proof. apply skipCurToken_steps; padvances_side. Qed.

Lemma nl_padvances : steps padvances Parser.nl.
Proof. apply nl_steps; padvances_side. Qed.

Lemma primary_padvances : steps padvances Parser.primary.
Proof. apply primary_steps; padvances_side. Qed.

Lemma unary_padvances : steps padvances Parser.unary.
Proof. apply unary_steps; padvances_side. Qed.

Lemma term_padvances : steps padvances Parser.term.
Proof. apply term_steps; padvances_side. Qed.

Lemma expression_padvances : steps padvances Parser.expression.
Proof. apply expression_steps; padvances_side. Qed.

Lemma comparison_padvances : steps padvances Parser.comparison.
Proof. apply comparison_steps; padvances_side. Qed.

Lemma let_head_padvances : steps padvances Parser.let_head.
Proof. apply let_head_steps; padvances_side. Qed.

Lemma statement_padvances depth : steps padvances (Parser.statement depth).
Proof. apply statement_steps; padvances_side. Qed.

Lemma emit_padvances code : steps padvances (Parser.emit code).
Proof. apply emit_steps. padvances_side. Qed.

Lemma emitLine_padvances code : steps padvances (Parser.emitLine code).
Proof. apply emitLine_steps. padvances_side. Qed.

Lemma cur_padvances : steps padvances Parser.cur.
Proof. apply cur_steps. padvances_side. Qed.

Lemma curTokeHasType_padvances k : steps padvances (Parser.curTokeHasType k).
Proof. apply curTokeHasType_steps; padvances_side. Qed.

#[export] Hint Resolve skipCurToken_padvances nl_padvances primary_padvances
  unary_padvances term_padvances expression_padvances comparison_padvances
  let_head_padvances statement_padvances emit_padvances emitLine_padvances
  cur_padvances curTokeHasType_padvances : steps.

(** Composition of a step that moves with steps that do not move back. *)
Lemma steps_bind3 {St A B} (R1 R2 R : St -> St -> Prop)
  (m : M St A) (k : A -> M St B) :
  (forall s1 s2 s3, R1 s1 s2 -> R2 s2 s3 -> R s1 s3) ->
  steps R1 m -> (forall a, steps R2 (k a)) -> steps R (bind m k).
Proof.
  intros HR Hm Hk s b s' H. apply bind_Ret in H as (a & s1 & H1 & H2).
  eapply HR; [eapply Hm, H1 | eapply Hk, H2].
Qed.

Lemma skipCurToken_lexer rt p u p' :
  Parser.skipCurToken rt p = Ret u p' ->
  exists tok,
    Lexer.getToken (lexer p) = Ret tok (lexer p')
    /\ peekToken p' = Some tok /\ curToken p' = peekToken p
    /\ (forall k, rt = Some k ->
          exists t, curToken p = Some t /\ kind t = k).
Proof.
  intros H. unfold Parser.skipCurToken in H.
  apply bind_Ret in H as (u1 & p1 & H1 & H).
  assert (p1 = p /\ (forall k, rt = Some k ->
                       exists t, curToken p = Some t /\ kind t = k))
    as [-> Hreq].
  { destruct rt as [k|]; [|injection H1 as _ <-; split; [reflexivity|]; discriminate].
    apply bind_Ret in H1 as (b & p2 & Hb & H1).
    unfold Parser.curTokeHasType in Hb.
    apply bind_Ret in Hb as (t & p3 & Ht & Hb).
    unfold Parser.cur in Ht. destruct (curToken p) as [t0|]; [|discriminate Ht].
    injection Ht as -> <-. injection Hb as <- <-.
    destruct (bool_decide (k = kind t)) eqn:Ek; cbn [negb] in H1.
    - injection H1 as _ <-. apply bool_decide_eq_true in Ek.
      split; [reflexivity|]. intros k' [= <-]. exists t. auto.
    - apply bind_Ret in H1 as (t' & p4 & _ & H1). discriminate H1. }
  apply bind_Ret in H as (u2 & p2 & H2 & H). injection H2 as _ <-.
  apply bind_Ret in H as (tok & p3 & H3 & H).
  unfold Parser.on_lexer in H3. cbn [lexer set_curToken] in H3.
  destruct (Lexer.getToken (lexer p)) as [tok' l'| | |]; try discriminate H3.
  injection H3 as -> <-. injection H as _ <-. cbn.
  exists tok. auto.
Qed.

Lemma skipCurToken_pmoves rt : steps pmoves (Parser.skipCurToken rt).
Proof.
  intros p u p' H. apply skipCurToken_lexer in H as (tok & Hg & _).
  apply getToken_moves in Hg. exact Hg.
Qed.

(** A step that moves, followed by steps that do not move back. *)
Ltac moves_then :=
  eapply steps_bind3; [exact pmoves_padvances | | intro; steps_go].

(** Steps that do not move back, followed by a step that moves. *)
Ltac then_moves :=
  eapply steps_bind3; [exact padvances_pmoves | steps_go | intro].

Lemma nl_pmoves : steps pmoves Parser.nl.
Proof. unfold Parser.nl. moves_then. apply skipCurToken_pmoves. Qed.

Lemma primary_pmoves : steps pmoves Parser.primary.
Proof.
  unfold Parser.primary, Parser.abort.
  then_moves. destruct a.
  - then_moves. then_moves. apply skipCurToken_pmoves.
  - then_moves. destruct a.
    + then_moves. then_moves. then_moves. then_moves.
      apply skipCurToken_pmoves.
    + then_moves. apply steps_sys_exit.
Qed.

Lemma unary_pmoves : steps pmoves Parser.unary.
Proof.
  unfold Parser.unary. then_moves. then_moves. apply primary_pmoves.
Qed.

Lemma term_pmoves : steps pmoves Parser.term.
Proof. unfold Parser.term. moves_then. apply unary_pmoves. Qed.

Lemma expression_pmoves : steps pmoves Parser.expression.
Proof. unfold Parser.expression. moves_then. apply term_pmoves. Qed.

Lemma comparison_pmoves : steps pmoves Parser.comparison.
Proof. unfold Parser.comparison. moves_then. apply expression_pmoves. Qed.

Lemma add_label_padvances x :
  steps padvances
    (modify (fun p => set_labelsDeclared ({[x]} ∪ labelsDeclared p) p)).
Proof. apply add_label_steps. padvances_side. Qed.

Lemma add_goto_padvances x :
  steps padvances
    (modify (fun p => set_labelsGotoed ({[x]} ∪ labelsGotoed p) p)).
Proof. apply add_goto_steps. padvances_side. Qed.

#[export] Hint Resolve add_label_padvances add_goto_padvances
  declare_padvances : steps.

Lemma statement_pmoves depth : steps pmoves (Parser.statement depth).
Proof.
  destruct depth as [|depth]; cbn [Parser.statement].
  - apply steps_out_of_fuel.
  - unfold Parser.abort. then_moves. apply nl_pmoves.
Qed.

(** *** The parser stays well formed *)

Lemma wp_conj {St A} (r : outcome St A) (Q Q' : A -> St -> Prop) :
  wp r Q -> (forall a s, r = Ret a s -> Q' a s) ->
  wp r (fun a s => Q a s /\ Q' a s).
Proof. destruct r; simpl; auto. Qed.

Lemma wfp_frame p p' : same_tokens p p' -> wfp p -> wfp p'.
Proof.
  intros (Hl & Hc & Hp) (s & n & t & t' & H1 & H2 & H3 & H4 & H5 & H6).
  exists s, n, t, t'. rewrite Hl, Hc, Hp. auto 10.
Qed.

Lemma padvances_left p p' :
  padvances p p' -> tokens_left p' <= tokens_left p.
Proof. intros [Hs Hp]. unfold tokens_left. rewrite Hs. lia. Qed.

Lemma pmoves_left p p' :
  pmoves p p' -> wfp p -> cur_not_eof p -> tokens_left p' < tokens_left p.
Proof.
  intros [Hs Hp] (s & n & t & t' & H1 & _ & H3 & _ & _ & H6) (t0 & Ht0 & Hk).
  rewrite H3 in Ht0. injection Ht0 as <-. specialize (H6 Hk).
  unfold tokens_left. rewrite Hs. rewrite H1 in *. cbn [curPos source at_pos] in *.
  unfold len. lia.
Qed.

Lemma budget_gt p : tokens_left p < Parser.budget p.
Proof. unfold tokens_left, Parser.budget, Lexer.ahead. lia. Qed.

Lemma wfp_cur p : wfp p -> exists t, curToken p = Some t.
Proof. intros (s & n & t & t' & _ & _ & H & _). eauto. Qed.

Lemma safe_ret {A} (a : A) : safe (ret a).
Proof. intros p H. exact H. Qed.

Lemma safe_gets {A} (f : Parser -> A) : safe (gets f).
Proof. intros p H. exact H. Qed.

Lemma safe_sys_exit {A} msg : safe (@sys_exit Parser A msg).
Proof. intros p H. exact I. Qed.

Lemma safe_bind {A B} (m : M Parser A) (k : A -> M Parser B) :
  safe m -> (forall a, safe (k a)) -> safe (bind m k).
Proof.
  intros Hm Hk p H. apply wp_bind. eapply wp_mono; [apply Hm, H|].
  intros a p1 H1. apply Hk, H1.
Qed.

Lemma safe_modify (f : Parser -> Parser) :
  (forall p, same_tokens p (f p)) -> safe (modify f).
Proof. intros Hf p H. simpl. eapply wfp_frame; [apply Hf | exact H]. Qed.

Lemma safe_cur : safe Parser.cur.
Proof.
  intros p H. destruct (wfp_cur p H) as [t Ht]. unfold Parser.cur.
  rewrite Ht. exact H.
Qed.

Lemma safe_curTokeHasType k : safe (Parser.curTokeHasType k).
Proof.
  unfold Parser.curTokeHasType. apply safe_bind; [apply safe_cur|].
  intros t. apply safe_ret.
Qed.

Lemma safe_or_else (a b : M Parser bool) : safe a -> safe b -> safe (or_else a b).
Proof.
  intros Ha Hb. unfold or_else. apply safe_bind; [exact Ha|].
  intros [|]; [apply safe_ret | exact Hb].
Qed.

Lemma safe_emit code : safe (Parser.emit code).
Proof. apply safe_modify. intros p. repeat split. Qed.

Lemma safe_emitLine code : safe (Parser.emitLine code).
Proof. apply safe_modify. intros p. repeat split. Qed.

Lemma safe_headerLine code : safe (Parser.headerLine code).
Proof. apply safe_modify. intros p. repeat split. Qed.

Lemma safe_declare ident : safe (Parser.declare_on_first_use ident).
Proof.
  unfold Parser.declare_on_first_use. apply safe_bind; [apply safe_gets|].
  intros declared. destruct (bool_decide (ident ∈ declared)).
  - apply safe_ret.
  - apply safe_bind; [|intros _; apply safe_headerLine].
    apply safe_modify. intros p. repeat split.
Qed.

(** One token more is pulled: the step of [skipCurToken] after the test of
    the required kind. *)
Lemma pull_token_wp p s n :
  lexer p = at_pos s n -> ends_nl s ->
  wp ((modify (fun p => set_curToken (peekToken p) p) ;;
       token <- Parser.on_lexer Lexer.getToken ;;
       modify (set_peekToken (Some token))) p)
     (fun _ p' => exists n' tok,
        lexer p' = at_pos s n' /\ curToken p' = peekToken p
        /\ peekToken p' = Some tok /\ n < n'
        /\ n' <= S (Nat.max n (String.length s))
        /\ (kind tok <> TokenType.EOF -> n' <= String.length s)).
Proof.
  intros Hl Hs. unfold bind at 1. unfold modify at 1.
  apply wp_bind. unfold Parser.on_lexer. cbn [lexer set_curToken].
  rewrite Hl. pose proof (getToken_total s n Hs) as Hg.
  destruct (Lexer.getToken (at_pos s n)) as [tok l'| | |]; simpl in *; auto.
  destruct Hg as (n' & -> & H1 & H2 & H3).
  exists n', tok. auto 10.
Qed.

Lemma skipCurToken_None_init p s n :
  lexer p = at_pos s n -> ends_nl s ->
  wp (Parser.skipCurToken None p)
     (fun _ p' => exists n' tok,
        lexer p' = at_pos s n' /\ curToken p' = peekToken p
        /\ peekToken p' = Some tok /\ n < n'
        /\ n' <= S (Nat.max n (String.length s))
        /\ (kind tok <> TokenType.EOF -> n' <= String.length s)).
Proof.
  intros Hl Hs. unfold Parser.skipCurToken. unfold bind at 1, ret at 1.
  apply pull_token_wp; assumption.
Qed.

Lemma safe_skipCurToken rt : safe (Parser.skipCurToken rt).
Proof.
  intros p Hw.
  pose proof Hw as (s & n & t & t' & H1 & H2 & H3 & H4 & H5 & H6).
  assert (Hpull :
    wp ((modify (fun p => set_curToken (peekToken p) p) ;;
         token <- Parser.on_lexer Lexer.getToken ;;
         modify (set_peekToken (Some token))) p)
       (fun _ p' => wfp p')).
  { eapply wp_mono; [apply (pull_token_wp p s n H1 H2)|].
    intros _ p' (n' & tok & L1 & L2 & L3 & L4 & L5 & L6).
    exists s, n', t', tok. rewrite L2, H4.
    split; [exact L1|]. split; [exact H2|]. split; [reflexivity|].
    split; [exact L3|]. split; [exact L6|].
    intros Hk. specialize (H5 Hk). lia. }
  unfold Parser.skipCurToken. apply wp_bind.
  destruct rt as [k|]; [|exact Hpull].
  rewrite (bind_curTokeHasType _ _ _ _ H3).
  destruct (bool_decide (k = kind t)); cbn [negb].
  - exact Hpull.
  - rewrite (bind_cur _ _ _ H3). exact I.
Qed.


Lemma reads_curTokeHasType k : reads (Parser.curTokeHasType k).
Proof.
  intros p H. destruct (wfp_cur p H) as [t Ht].
  rewrite (curTokeHasType_at _ _ _ Ht). eauto.
Qed.

Lemma reads_not_curTokeHasType k :
  reads (b <- Parser.curTokeHasType k ;; ret (negb b)).
Proof.
  intros p H. destruct (wfp_cur p H) as [t Ht].
  rewrite (bind_curTokeHasType _ _ _ _ Ht). eexists. reflexivity.
Qed.

Lemma reads_or_else k1 k2 :
  reads (or_else (Parser.curTokeHasType k1) (Parser.curTokeHasType k2)).
Proof.
  intros p H. destruct (wfp_cur p H) as [t Ht].
  rewrite (or_else_at _ _ _ _ Ht), (curTokeHasType_at _ _ _ Ht).
  destruct (bool_decide (k1 = kind t)); eauto.
Qed.

Lemma reads_comparison_operator : reads Parser.curTokenIsComparisonOperator.
Proof.
  intros p H. destruct (wfp_cur p H) as [t Ht].
  rewrite (curTokenIsComparisonOperator_at _ _ Ht). eauto.
Qed.

Lemma curTokeHasType_true k p :
  k <> TokenType.EOF -> Parser.curTokeHasType k p = Ret true p ->
  cur_not_eof p.
Proof.
  intros Hk H. unfold Parser.curTokeHasType, bind, Parser.cur in H.
  destruct (curToken p) as [t|] eqn:Et; [|discriminate H].
  injection H as H. apply bool_decide_eq_true in H.
  exists t. split; [exact Et | congruence].
Qed.

Lemma or_else_true k1 k2 p :
  k1 <> TokenType.EOF -> k2 <> TokenType.EOF ->
  or_else (Parser.curTokeHasType k1) (Parser.curTokeHasType k2) p = Ret true p ->
  cur_not_eof p.
Proof.
  intros H1 H2 H.
  destruct (curToken p) as [t|] eqn:Et.
  - rewrite (or_else_at _ _ _ _ Et), (curTokeHasType_at _ _ _ Et) in H.
    exists t. split; [exact Et|].
    destruct (bool_decide (k1 = kind t)) eqn:E1.
    + apply bool_decide_eq_true in E1. congruence.
    + injection H as H. apply bool_decide_eq_true in H. congruence.
  - unfold or_else, Parser.curTokeHasType, bind, Parser.cur in H.
    rewrite Et in H. discriminate H.
Qed.

Lemma comparison_operator_true p :
  Parser.curTokenIsComparisonOperator p = Ret true p -> cur_not_eof p.
Proof.
  intros H.
  destruct (curToken p) as [t|] eqn:Et.
  - rewrite (curTokenIsComparisonOperator_at _ _ Et) in H.
    injection H as H. apply bool_decide_eq_true in H.
    exists t. split; [exact Et|]. intros E. rewrite E in H.
    revert H. apply (bool_decide_eq_false_1
                       (TokenType.EOF ∈ comparison_operators)). reflexivity.
  - unfold Parser.curTokenIsComparisonOperator, or_else,
      Parser.curTokeHasType, bind, Parser.cur in H.
    rewrite Et in H. discriminate H.
Qed.

(** The loop rule of the parser: the body is safe and moves on, and the
    condition holds only when the current token is not EOF. *)
Lemma safe_loop (cond : M Parser bool) (body : M Parser unit) :
  reads cond -> safe body -> steps pmoves body ->
  (forall p, cond p = Ret true p -> cur_not_eof p) ->
  safe (while_within Parser.budget cond body).
Proof.
  intros Hr Hs Hm Hc p Hw.
  eapply wp_mono.
  - apply (wp_while_within wfp tokens_left).
    + exact Hr.
    + intros q Hq Hcq. apply wp_conj; [apply Hs, Hq|].
      intros u q' Hb. apply (pmoves_left q q'); [eapply Hm, Hb | exact Hq|].
      apply Hc, Hcq.
    + exact Hw.
    + apply budget_gt.
  - intros _ p' (H & _). exact H.
Qed.

Lemma safe_nl : safe Parser.nl.
Proof.
  unfold Parser.nl. apply safe_bind; [apply safe_skipCurToken|]. intros _.
  apply safe_loop.
  - apply reads_curTokeHasType.
  - apply safe_skipCurToken.
  - apply skipCurToken_pmoves.
  - intros p. apply curTokeHasType_true. discriminate.
Qed.

Create HintDb safe.
#[export] Hint Resolve safe_ret safe_gets safe_sys_exit safe_cur
  safe_curTokeHasType safe_emit safe_emitLine safe_headerLine safe_declare
  safe_skipCurToken safe_nl : safe.

(** Breaks a goal [safe m] down along the structure of [m]. *)
Ltac safe_go :=
  repeat first
    [ solve [eauto with safe]
    | apply safe_bind; [ | intro]
    | apply safe_or_else
    | match goal with
      | |- safe (if ?b then _ else _) => destruct b
      | |- safe (match ?x with _ => _ end) => destruct x
      end ].

Lemma safe_primary : safe Parser.primary.
Proof. unfold Parser.primary, Parser.abort. safe_go. Qed.

#[export] Hint Resolve safe_primary : safe.

Lemma safe_unary : safe Parser.unary.
Proof. unfold Parser.unary. safe_go. Qed.

#[export] Hint Resolve safe_unary : safe.

Lemma safe_term : safe Parser.term.
Proof.
  unfold Parser.term. apply safe_bind; [apply safe_unary|]. intros _.
  apply safe_loop.
  - apply reads_or_else.
  - safe_go.
  - then_moves. then_moves. moves_then. apply skipCurToken_pmoves.
  - intros p. apply or_else_true; discriminate.
Qed.

#[export] Hint Resolve safe_term : safe.

Lemma safe_expression : safe Parser.expression.
Proof.
  unfold Parser.expression. apply safe_bind; [apply safe_term|]. intros _.
  apply safe_loop.
  - apply reads_or_else.
  - safe_go.
  - then_moves. then_moves. moves_then. apply skipCurToken_pmoves.
  - intros p. apply or_else_true; discriminate.
Qed.

#[export] Hint Resolve safe_expression : safe.

Lemma safe_comparison_operator : safe Parser.curTokenIsComparisonOperator.
Proof. unfold Parser.curTokenIsComparisonOperator. safe_go. Qed.

#[export] Hint Resolve safe_comparison_operator : safe.

Lemma safe_comparison : safe Parser.comparison.
Proof.
  unfold Parser.comparison, Parser.abort.
  apply safe_bind; [apply safe_expression|]. intros _.
  apply safe_bind; [apply safe_comparison_operator|]. intros isOp.
  apply safe_bind; [safe_go|]. intros _.
  apply safe_loop.
  - apply reads_comparison_operator.
  - safe_go.
  - then_moves. then_moves. moves_then. apply skipCurToken_pmoves.
  - apply comparison_operator_true.
Qed.

Lemma safe_let_head : safe Parser.let_head.
Proof. unfold Parser.let_head. safe_go. Qed.

#[export] Hint Resolve safe_comparison safe_let_head : safe.

(** *** Statements and the program *)

Lemma statement_returns_not_eof depth p u p' :
  Parser.statement depth p = Ret u p' -> cur_not_eof p.
Proof.
  intros H. destruct depth as [|depth]; [discriminate H|].
  cbn [Parser.statement] in H. apply bind_Ret in H as (u1 & p1 & H1 & _).
  destruct (curToken p) as [t|] eqn:Et.
  - exists t. split; [exact Et|]. intros Hk. dispatch Et Hk H1.
    rewrite (bind_cur _ _ _ Et) in H1. discriminate H1.
  - unfold bind at 1 in H1. unfold Parser.curTokeHasType in H1.
    unfold bind at 1 in H1. unfold Parser.cur in H1.
    rewrite Et in H1. discriminate H1.
Qed.

(** One step that is safe and does not move back. *)
Lemma wp_step {A B} (m : M Parser A) (k : A -> M Parser B) p n Q :
  safe m -> steps padvances m -> wfp p -> tokens_left p < n ->
  (forall a p1, wfp p1 -> tokens_left p1 < n -> wp (k a p1) Q) ->
  wp (bind m k p) Q.
Proof.
  intros Hs Ha Hw Hn Hk. apply wp_bind.
  eapply wp_mono; [apply wp_conj; [apply Hs, Hw | intros a p1 Hr; exact Hr]|].
  intros a p1 [Hw1 Hr]. cbv beta in *. apply Hk; [exact Hw1|].
  apply Ha, padvances_left in Hr. lia.
Qed.

(** The loop over the statements of a block or of the program. *)
Lemma statements_loop_wp depth fuel (cond : M Parser bool) p :
  (forall q, wfp q -> tokens_left q < depth ->
     wp (Parser.statement depth q) (fun _ q' => wfp q')) ->
  reads cond ->
  wfp p -> tokens_left p < depth -> tokens_left p < fuel ->
  wp (while fuel cond (Parser.statement depth) p)
     (fun _ p' => wfp p' /\ tokens_left p' < depth).
Proof.
  intros IH Hr Hw Hd Hf.
  eapply wp_mono.
  - apply (wp_while (fun q => wfp q /\ tokens_left q < depth) tokens_left).
    + intros q [Hq _]. apply Hr, Hq.
    + intros q [Hq Hqd] _.
      eapply wp_mono;
        [apply wp_conj; [apply IH; assumption | intros u q' Hret; exact Hret]|].
      intros u q' [Hq' Hret]. cbv beta in *.
      assert (tokens_left q' < tokens_left q).
      { apply pmoves_left; [eapply statement_pmoves, Hret | exact Hq |].
        eapply statement_returns_not_eof, Hret. }
      split; [split; [exact Hq' | lia] | assumption].
    + split; assumption.
    + exact Hf.
  - intros _ p' (H & _). exact H.
Qed.

Lemma block_safe depth open_text then_kind end_kind p :
  (forall q, wfp q -> tokens_left q < depth ->
     wp (Parser.statement depth q) (fun _ q' => wfp q')) ->
  wfp p -> cur_not_eof p -> tokens_left p < S depth ->
  wp ((Parser.skipCurToken None ;;
       Parser.emit open_text ;;
       Parser.comparison ;;
       Parser.skipCurToken (Some then_kind) ;;
       Parser.nl ;;
       Parser.emitLine "){" ;;
       while_within Parser.budget
         (b <- Parser.curTokeHasType end_kind ;; ret (negb b))
         (Parser.statement depth) ;;
       Parser.skipCurToken (Some end_kind) ;;
       Parser.emitLine "}") p)
     (fun _ p' => wfp p').
Proof.
  intros IH Hw Hcur Hd. apply wp_bind.
  eapply wp_mono;
    [apply wp_conj;
       [apply safe_skipCurToken, Hw | intros u p1 Hr; exact Hr]|].
  intros u p1 [Hw1 Hr]. cbv beta in *.
  assert (Hd1 : tokens_left p1 < depth).
  { apply skipCurToken_pmoves in Hr.
    pose proof (pmoves_left _ _ Hr Hw Hcur). lia. }
  clear Hr.
  apply (wp_step _ _ _ depth); auto with safe steps. intros _ p2 Hw2 Hd2.
  apply (wp_step _ _ _ depth); auto with safe steps. intros _ p3 Hw3 Hd3.
  apply (wp_step _ _ _ depth); auto with safe steps. intros _ p4 Hw4 Hd4.
  apply (wp_step _ _ _ depth); auto with safe steps. intros _ p5 Hw5 Hd5.
  apply (wp_step _ _ _ depth); auto with safe steps. intros _ p6 Hw6 Hd6.
  apply wp_bind. unfold while_within.
  eapply wp_mono;
    [apply (statements_loop_wp depth); auto using reads_not_curTokeHasType,
       budget_gt|].
  intros _ p7 [Hw7 _]. cbv beta.
  assert (Hs : safe (Parser.skipCurToken (Some end_kind) ;;
                     Parser.emitLine "}")) by safe_go.
  apply Hs, Hw7.
Qed.

Lemma statement_safe depth p :
  wfp p -> tokens_left p < depth ->
  wp (Parser.statement depth p) (fun _ p' => wfp p').
Proof.
  revert p. induction depth as [|depth IH]; intros p Hw Hd; [lia|].
  cbn [Parser.statement]. apply wp_bind.
  eapply wp_mono; [|intros u1 p1 H1; apply safe_nl, H1].
  destruct (wfp_cur p Hw) as [t Hc].
  assert (Hne : forall k, k <> TokenType.EOF ->
                  bool_decide (k = kind t) = true -> cur_not_eof p).
  { intros k Hk E. apply bool_decide_eq_true in E. exists t.
    split; [exact Hc | congruence]. }
  rewrite (bind_curTokeHasType _ _ _ _ Hc).
  destruct (bool_decide (TokenType.PRINT = kind t)).
  { match goal with
    | |- wp (?m p) _ => assert (Hs : safe m) by safe_go; apply Hs, Hw
    end. }
  rewrite (bind_curTokeHasType _ _ _ _ Hc).
  destruct (bool_decide (TokenType.IF = kind t)) eqn:EIf.
  { apply block_safe; auto. apply (Hne TokenType.IF); [discriminate | exact EIf]. }
  rewrite (bind_curTokeHasType _ _ _ _ Hc).
  destruct (bool_decide (TokenType.WHILE = kind t)) eqn:EWh.
  { apply block_safe; auto.
    apply (Hne TokenType.WHILE); [discriminate | exact EWh]. }
  match goal with
  | |- wp (?m p) _ =>
      assert (Hs : safe m)
        by (unfold Parser.abort; safe_go; apply safe_modify; intros q;
            repeat split);
      apply Hs, Hw
  end.
Qed.

Lemma safe_check_labels order : safe (Parser.check_labels order).
Proof.
  intros p Hw. unfold Parser.check_labels. rewrite bind_gets.
  destruct (check_loop (order (labelsGotoed p)) p)
    as [[_ Hret] | (label & _ & _ & Hexit)].
  - rewrite Hret. exact Hw.
  - rewrite Hexit. exact I.
Qed.

Lemma safe_program_statements : safe Parser.program_statements.
Proof.
  unfold Parser.program_statements.
  apply safe_bind; [apply safe_headerLine|]. intros _.
  apply safe_bind; [apply safe_headerLine|]. intros _.
  apply safe_bind.
  - apply safe_loop.
    + apply reads_curTokeHasType.
    + apply safe_skipCurToken.
    + apply skipCurToken_pmoves.
    + intros p. apply curTokeHasType_true. discriminate.
  - intros _ p Hw.
    eapply wp_mono.
    + apply (statements_loop_wp (Parser.budget p)).
      * intros q Hq Hd. apply statement_safe; assumption.
      * apply reads_not_curTokeHasType.
      * exact Hw.
      * apply budget_gt.
      * apply budget_gt.
    + intros _ p' [H _]. exact H.
Qed.

Lemma safe_program order : safe (Parser.program order).
Proof.
  unfold Parser.program.
  apply safe_bind; [apply safe_program_statements|]. intros _.
  apply safe_bind; [apply safe_check_labels|]. intros _.
  safe_go.
Qed.

Lemma ends_nl_init src : ends_nl (src +:+ str Lexer.NEWLINE).
Proof. exists src. reflexivity. Qed.

Lemma init_wfp s e :
  ends_nl s ->
  wp (Parser.init (at_pos s 0) e) (fun _ p => wfp p).
Proof.
  intros Hs. unfold Parser.init. apply wp_bind.
  eapply wp_mono; [apply (skipCurToken_None_init _ s 0); [reflexivity | exact Hs]|].
  intros _ p1 (n1 & tok1 & L1 & _ & P1 & _ & B1 & K1). cbv beta.
  eapply wp_mono; [apply (skipCurToken_None_init _ s n1 L1 Hs)|].
  intros _ p2 (n2 & tok2 & L2 & C2 & P2 & _ & B2 & K2). cbv beta.
  exists s, n2, tok1, tok2. rewrite C2, P1.
  split; [exact L2|]. split; [exact Hs|]. split; [reflexivity|].
  split; [exact P2|]. split; [exact K2|].
  intros Hk. specialize (K1 Hk). lia.
Qed.

(** A compilation either returns or ends the process by [sys.exit]: no
    exception escapes and no loop runs without end. *)
Lemma compile_total order src :
  wp (compile order src) (fun _ p => wfp p).
Proof.
  unfold compile. rewrite init_at_pos.
  pose proof (init_wfp (src +:+ str Lexer.NEWLINE) (Emitter.init "out.c")
                (ends_nl_init src)) as Hi.
  destruct (Parser.init _ _) as [u p| | |]; simpl in Hi; try contradiction;
    [|exact I].
  apply safe_program, Hi.
Qed.

(** * Further properties of the lexer, the parser and the driver *)

(** X1. On every consistent lexer state over a text that ends with a
    newline (the constructor appends one to every text), [getToken]
    terminates and raises nothing: it returns a token, having moved
    strictly forward in the same text and, unless the token is EOF, not
    past the end of the text; or it exits with a lexing error.  An
    unterminated string or a comment on the last line cannot run past the
    end of the text. *)
Theorem getToken_returns_or_exits (l : Lexer) :
  consistent l -> ends_nl (source l) ->
  (exists t l',
     Lexer.getToken l = Ret t l' /\ consistent l'
     /\ source l' = source l /\ (curPos l < curPos l')%Z
     /\ (kind t <> TokenType.EOF -> (curPos l' <= len (source l))%Z))
  \/ (exists msg, Lexer.getToken l = SysExit msg).
Proof.
  intros Hc Hs. pose proof (consistent_at_pos l Hc) as E.
  pose proof (getToken_total (source l) (Z.to_nat (curPos l)) Hs) as H.
  rewrite <- E in H.
  destruct (Lexer.getToken l) as [t l'|msg| |] eqn:Eg; simpl in H;
    try contradiction.
  - left. exists t, l'. destruct H as (n' & -> & H1 & H2 & H3).
    destruct Hc as [H0 _].
    split; [reflexivity|]. split; [apply at_pos_consistent|].
    split; [reflexivity|]. cbn [curPos at_pos]. split; [lia|].
    intros Hk. specialize (H3 Hk). unfold len. lia.
  - right. exists msg. reflexivity.
Qed.

Lemma getToken_returns_or_exits_witness :
  exists msg,
    Lexer.getToken (at_pos (str QUOTE +:+ "abc" +:+ str LF) 0) = SysExit msg.
Proof.
  destruct (getToken_returns_or_exits
              (at_pos (str QUOTE +:+ "abc" +:+ str LF) 0)) as [H|H].
  - apply at_pos_consistent.
  - exists (str QUOTE +:+ "abc"). reflexivity.
  - exfalso. destruct H as (t & l' & H & _). vm_compute in H. discriminate H.
  - exact H.
Defined.


(** ** Words, operators, strings, blanks and comments *)

Lemma getToken_direct l :
  bool_decide (curChar l ∈ Lexer.WHITESPACE) = false ->
  Ascii.eqb (curChar l) Lexer.HASHMARK = false ->
  Lexer.getToken l
  = (token <- Lexer.classify ;; Lexer.skipCurChar ;; ret token) l.
Proof.
  intros Hw Hh. unfold Lexer.getToken.
  assert (H1 : Lexer.skipWhitespace l = Ret tt l).
  { unfold Lexer.skipWhitespace, while_within, Lexer.ahead. cbn [while].
    rewrite bind_gets, Hw. reflexivity. }
  assert (H2 : Lexer.skipComment l = Ret tt l).
  { unfold Lexer.skipComment. rewrite bind_gets, Hh. reflexivity. }
  rewrite (bind_of_Ret _ _ _ _ _ H1), (bind_of_Ret _ _ _ _ _ H2).
  reflexivity.
Qed.

Lemma getToken_of_classify s n t m :
  bool_decide (char_or_eof s n ∈ Lexer.WHITESPACE) = false ->
  Ascii.eqb (char_or_eof s n) Lexer.HASHMARK = false ->
  Lexer.classify (at_pos s n) = Ret t (at_pos s m) ->
  Lexer.getToken (at_pos s n) = Ret t (at_pos s (S m)).
Proof.
  intros Hw Hh Hc. rewrite getToken_direct by assumption.
  rewrite (bind_of_Ret _ _ _ _ _ Hc).
  rewrite (bind_of_Ret _ _ _ _ _ (skipCurChar_at_pos s m)). reflexivity.
Qed.

Lemma getToken_of_classify_exit s n msg :
  bool_decide (char_or_eof s n ∈ Lexer.WHITESPACE) = false ->
  Ascii.eqb (char_or_eof s n) Lexer.HASHMARK = false ->
  Lexer.classify (at_pos s n) = SysExit msg ->
  Lexer.getToken (at_pos s n) = SysExit msg.
Proof.
  intros Hw Hh Hc. rewrite getToken_direct by assumption.
  unfold bind. rewrite Hc. reflexivity.
Qed.

Lemma alpha_char c :
  isalpha c = true ->
  bool_decide (c ∈ Lexer.WHITESPACE) = false
  /\ Ascii.eqb c Lexer.HASHMARK = false
  /\ Ascii.eqb c "+" = false /\ Ascii.eqb c "-" = false
  /\ Ascii.eqb c "*" = false /\ Ascii.eqb c "/" = false
  /\ Ascii.eqb c Lexer.NEWLINE = false /\ Ascii.eqb c Lexer.EOF = false
  /\ Ascii.eqb c "=" = false /\ Ascii.eqb c ">" = false
  /\ Ascii.eqb c "<" = false /\ Ascii.eqb c "!" = false
  /\ Ascii.eqb c Lexer.DOUBLEQUOTE = false
  /\ isdigit c = false /\ isalnum c = true.
Proof.
  destruct c as [[] [] [] [] [] [] [] []]; intros H; vm_compute in H;
    try discriminate H; vm_compute; repeat split; reflexivity.
Qed.

Lemma alpha_classify l :
  isalpha (curChar l) = true -> Lexer.classify l = Lexer.word_branch l.
Proof.
  intros H. pose proof (alpha_char _ H)
    as (_ & _ & H1 & H2 & H3 & H4 & H5 & H6 & H7 & H8 & H9 & H10 & H11
        & H12 & _).
  unfold Lexer.classify. rewrite bind_gets.
  rewrite H1, H2, H3, H4, H5, H6, H7, H8, H9, H10, H11, H12, H. reflexivity.
Qed.

(** X3. When the current character is a letter, [getToken] returns the
    longest run of letters and digits from the current position as one
    token: a keyword token when the run is exactly the name of a keyword
    kind, an IDENT token otherwise (names differ by case, and a keyword
    followed by a letter or digit is an identifier).  Lexing the name of a
    keyword kind gives back that kind. *)
Theorem getToken_word (l : Lexer) :
  consistent l -> isalpha (curChar l) = true ->
  let n := Z.to_nat (curPos l) in
  let word := run_of isalnum (text_from n (source l)) in
  Lexer.getToken l
  = Ret (mkToken word
           (match mapTextToKeywordType word with
            | Some keywordType => keywordType
            | None => TokenType.IDENT
            end))
        (at_pos (source l) (n + String.length word))
  /\ (forall K, (100 <= TokenType.value K < 200)%Z ->
        Lexer.getToken (at_pos (TokenType.name K +:+ str LF) 0)
        = Ret (mkToken (TokenType.name K) K)
              (at_pos (TokenType.name K +:+ str LF)
                 (String.length (TokenType.name K)))).
Proof.
  intros Hc Ha. cbv zeta. split.
  - assert (Hne : curChar l <> Lexer.EOF).
    { intros He. rewrite He in Ha. discriminate Ha. }
    destruct (consistent_text_from l Hc Hne) as [r0 E].
    pose proof (consistent_at_pos l Hc) as El.
    set (n := Z.to_nat (curPos l)) in *. set (s := source l) in *.
    pose proof (alpha_char _ Ha) as (Hw & Hh & Hrest).
    assert (Hal : isalnum (curChar l) = true) by (apply Hrest).
    rewrite E. cbn [run_of]. rewrite Hal.
    pose proof (text_from_S _ _ _ _ E) as E1.
    assert (Hcl : Lexer.classify (at_pos s n)
      = Ret (mkToken (String (curChar l) (run_of isalnum r0))
               (match mapTextToKeywordType
                        (String (curChar l) (run_of isalnum r0)) with
                | Some k => k
                | None => TokenType.IDENT
                end))
            (at_pos s (n + String.length (run_of isalnum r0)))).
    { rewrite <- El at 1. rewrite (alpha_classify l Ha). rewrite El at 1.
      unfold Lexer.word_branch. rewrite bind_gets.
      rewrite (bind_of_Ret _ _ _ _ _ (scan_within isalnum s n eq_refl)).
      rewrite E1, bind_gets. cbv zeta. unfold id. cbn [curPos source at_pos].
      assert (Hsl : py_slice s (Z.of_nat n)
                      (Z.of_nat (n + String.length (run_of isalnum r0)) + 1)
                    = String (curChar l) (run_of isalnum r0)).
      { replace (Z.of_nat (n + String.length (run_of isalnum r0)) + 1)%Z
          with (Z.of_nat
                  (n + String.length
                         (String (curChar l) (run_of isalnum r0))))
          by (cbn [String.length]; lia).
        apply py_slice_text_from with (b := after_run isalnum r0);
          [|discriminate].
        rewrite E, append_String, run_of_after_run. reflexivity. }
      rewrite Hsl.
      destruct (mapTextToKeywordType _); reflexivity. }
    assert (Hcs : curChar l = char_or_eof s n) by (destruct Hc as [_ Hc]; exact Hc).
    rewrite Hcs in Hw, Hh.
    pose proof (getToken_of_classify s n _ _ Hw Hh Hcl) as Hg.
    rewrite <- El in Hg. rewrite Hg.
    cbn [String.length]. do 2 f_equal. lia.
  - intros K HK. destruct K; simpl in HK; try lia; reflexivity.
Qed.

Lemma getToken_word_witness :
  Lexer.getToken (at_pos ("PRINTx1 y" +:+ str LF) 0)
  = Ret (mkToken "PRINTx1" TokenType.IDENT)
        (at_pos ("PRINTx1 y" +:+ str LF) 7).
Proof.
  exact (proj1 (getToken_word (at_pos ("PRINTx1 y" +:+ str LF) 0)
                  (at_pos_consistent _ 0) eq_refl)).
Defined.

Lemma op_or_op_eq_at s n plain with_eq :
  Lexer.op_or_op_eq plain with_eq (at_pos s n)
  = if Ascii.eqb (char_or_eof s (S n)) "="
    then Ret (mkToken (str (char_or_eof s n) +:+ "=") with_eq)
             (at_pos s (S n))
    else Ret (mkToken (str (char_or_eof s n)) plain) (at_pos s n).
Proof.
  unfold Lexer.op_or_op_eq.
  rewrite (bind_of_Ret _ _ _ _ _ (peek_at_pos s n)).
  destruct (Ascii.eqb (char_or_eof s (S n)) "=") eqn:E.
  - apply Ascii.eqb_eq in E. rewrite bind_gets.
    rewrite (bind_of_Ret _ _ _ _ _ (skipCurChar_at_pos s n)).
    rewrite bind_gets. cbn [curChar at_pos]. rewrite E. reflexivity.
  - rewrite bind_gets. reflexivity.
Qed.

Lemma bang_branch_at s n :
  Lexer.bang_branch (at_pos s n)
  = if Ascii.eqb (char_or_eof s (S n)) "="
    then Ret (mkToken (str (char_or_eof s n) +:+ "=") TokenType.NOTEQ)
             (at_pos s (S n))
    else SysExit ("Lexing error. Expected !=, got !"
                  +:+ str (char_or_eof s (S n))).
Proof.
  unfold Lexer.bang_branch.
  rewrite (bind_of_Ret _ _ _ _ _ (peek_at_pos s n)).
  destruct (Ascii.eqb (char_or_eof s (S n)) "=") eqn:E.
  - apply Ascii.eqb_eq in E. rewrite bind_gets.
    rewrite (bind_of_Ret _ _ _ _ _ (skipCurChar_at_pos s n)).
    rewrite bind_gets. cbn [curChar at_pos]. rewrite E. reflexivity.
  - rewrite (bind_of_Ret _ _ _ _ _ (peek_at_pos s n)). reflexivity.
Qed.

(** X4. The operator tokens.  A plus, minus, star, slash or newline as
    current character gives the token of that one character.  An equals,
    greater or less sign gives the two-character token when an equals sign
    follows and the one-character token otherwise.  An exclamation mark
    gives [!=] when an equals sign follows and otherwise makes the lexer
    exit, the message naming the character found.  In each case the lexer
    stops just after the token. *)
Theorem getToken_operator (l : Lexer) :
  consistent l ->
  let n := Z.to_nat (curPos l) in
  let s := source l in
  let next := char_or_eof s (S n) in
  (forall c k,
     (c, k) ∈ [("+"%char, TokenType.PLUS); ("-"%char, TokenType.MINUS);
               ("*"%char, TokenType.ASTERISK); ("/"%char, TokenType.SLASH);
               (LF, TokenType.NEWLINE)] ->
     curChar l = c ->
     Lexer.getToken l = Ret (mkToken (str c) k) (at_pos s (S n)))
  /\ (forall c plain with_eq,
        (c, plain, with_eq)
        ∈ [("="%char, TokenType.EQ, TokenType.EQEQ);
           (">"%char, TokenType.GT, TokenType.GTEQ);
           ("<"%char, TokenType.LT, TokenType.LTEQ)] ->
        curChar l = c ->
        Lexer.getToken l
        = if Ascii.eqb next "="
          then Ret (mkToken (str c +:+ "=") with_eq) (at_pos s (S (S n)))
          else Ret (mkToken (str c) plain) (at_pos s (S n)))
  /\ (curChar l = "!"%char ->
      Lexer.getToken l
      = if Ascii.eqb next "="
        then Ret (mkToken "!=" TokenType.NOTEQ) (at_pos s (S (S n)))
        else SysExit ("Lexing error. Expected !=, got !" +:+ str next)).
Proof.
  intros Hc. cbv zeta.
  pose proof (consistent_at_pos l Hc) as El.
  assert (Hcs : curChar l = char_or_eof (source l) (Z.to_nat (curPos l)))
    by (destruct Hc as [_ Hc]; exact Hc).
  set (n := Z.to_nat (curPos l)) in *. set (s := source l) in *.
  assert (Hgo : forall c t m,
    curChar l = c ->
    bool_decide (c ∈ Lexer.WHITESPACE) = false ->
    Ascii.eqb c Lexer.HASHMARK = false ->
    Lexer.classify (at_pos s n) = Ret t (at_pos s m) ->
    Lexer.getToken l = Ret t (at_pos s (S m))).
  { intros c t m Hcur Hw Hh Hcl. rewrite Hcs in Hcur. rewrite <- Hcur in Hw, Hh.
    pose proof (getToken_of_classify s n t m Hw Hh Hcl) as Hg.
    rewrite <- El in Hg. exact Hg. }
  assert (Hx : forall c, curChar l = c -> char_or_eof s n = c) by congruence.
  assert (Hcl : forall c, curChar l = c ->
    Lexer.classify (at_pos s n)
    = (c <- ret c ;;
       if Ascii.eqb c "+"%char then ret (mkToken (str c) TokenType.PLUS)
  else if Ascii.eqb c "-"%char then ret (mkToken (str c) TokenType.MINUS)
  else if Ascii.eqb c "*"%char then ret (mkToken (str c) TokenType.ASTERISK)
  else if Ascii.eqb c "/"%char then ret (mkToken (str c) TokenType.SLASH)
  else if Ascii.eqb c Lexer.NEWLINE then ret (mkToken (str c) TokenType.NEWLINE)
  else if Ascii.eqb c Lexer.EOF then ret (mkToken (str c) TokenType.EOF)
  else if Ascii.eqb c "="%char then Lexer.op_or_op_eq TokenType.EQ TokenType.EQEQ
  else if Ascii.eqb c ">"%char then Lexer.op_or_op_eq TokenType.GT TokenType.GTEQ
  else if Ascii.eqb c "<"%char then Lexer.op_or_op_eq TokenType.LT TokenType.LTEQ
  else if Ascii.eqb c "!"%char then Lexer.bang_branch
  else if Ascii.eqb c Lexer.DOUBLEQUOTE then Lexer.string_branch
  else if isdigit c then Lexer.number_branch
  else if isalpha c then Lexer.word_branch
  else Lexer.abort ("Unknow token: " +:+ str c)) (at_pos s n)).
  { intros c Hcur. unfold Lexer.classify. rewrite bind_gets.
    change (curChar (at_pos s n)) with (char_or_eof s n).
    rewrite (Hx c Hcur). reflexivity. }
  split; [|split].
  - intros c k Hin Hcur.
    repeat (apply elem_of_cons in Hin as [Hin|Hin];
            [injection Hin as -> ->;
             apply (Hgo _ _ n Hcur eq_refl eq_refl);
             rewrite (Hcl _ Hcur); reflexivity
            |]).
    inversion Hin.
  - intros c plain with_eq Hin Hcur.
    pose proof (Hx c Hcur) as Hxc.
    repeat (apply elem_of_cons in Hin as [Hin|Hin];
            [injection Hin as -> -> ->;
             destruct (Ascii.eqb (char_or_eof s (S n)) "=") eqn:E;
             [apply (Hgo _ _ (S n) Hcur eq_refl eq_refl)
             |apply (Hgo _ _ n Hcur eq_refl eq_refl)];
             (rewrite (Hcl _ Hcur);
              etransitivity; [apply op_or_op_eq_at|];
              rewrite E, Hxc; reflexivity)
            |]).
    inversion Hin.
  - intros Hcur.
    pose proof (Hx _ Hcur) as Hxc.
    assert (Hb : Lexer.classify (at_pos s n) = Lexer.bang_branch (at_pos s n))
      by (rewrite (Hcl _ Hcur); reflexivity).
    rewrite bang_branch_at, Hxc in Hb.
    destruct (Ascii.eqb (char_or_eof s (S n)) "=") eqn:E.
    + apply (Hgo _ _ (S n) Hcur eq_refl eq_refl). exact Hb.
    + rewrite El. apply getToken_of_classify_exit.
      * rewrite Hxc. reflexivity.
      * rewrite Hxc. reflexivity.
      * exact Hb.
Qed.

Lemma getToken_operator_witness :
  Lexer.getToken (at_pos ("<=" +:+ str LF) 0)
  = Ret (mkToken "<=" TokenType.LTEQ) (at_pos ("<=" +:+ str LF) 2)
  /\ Lexer.getToken (at_pos ("!a" +:+ str LF) 0)
     = SysExit "Lexing error. Expected !=, got !a".
Proof.
  split.
  - refine (proj1 (proj2 (getToken_operator (at_pos ("<=" +:+ str LF) 0) _))
                  "<"%char TokenType.LT TokenType.LTEQ _ eq_refl).
    + apply at_pos_consistent.
    + set_solver.
  - refine (proj2 (proj2 (getToken_operator (at_pos ("!a" +:+ str LF) 0) _))
                  eq_refl).
    apply at_pos_consistent.
Defined.

Lemma substring_none n s : String.substring n 0 s = EmptyString.
Proof.
  revert n. induction s as [|c r IH]; intros [|n]; simpl; try reflexivity.
  apply IH.
Qed.

Lemma py_slice_text_from_any s n a b :
  text_from n s = a +:+ b -> n <= String.length s ->
  py_slice s (Z.of_nat n) (Z.of_nat (n + String.length a)) = a.
Proof.
  intros E Hn.
  pose proof (length_text_from n s) as HL. rewrite E, length_append in HL.
  unfold py_slice, py_adjust, len.
  destruct (Z.ltb_spec (Z.of_nat n) 0); [lia|].
  destruct (Z.ltb_spec (Z.of_nat (n + String.length a)) 0); [lia|].
  rewrite !Z.min_l by lia.
  replace (Z.to_nat (Z.of_nat (n + String.length a) - Z.of_nat n))
    with (String.length a) by lia.
  rewrite Nat2Z.id. eapply substring_text_from, E.
Qed.

Lemma scan_string s d rest :
  (d = QUOTE \/ Lexer.illegal_in_string d = true) ->
  forall chars n fuel,
    text_from n s = chars +:+ String d rest ->
    Forall (fun c => c <> QUOTE /\ Lexer.illegal_in_string c = false)
           (list_ascii_of_string chars) ->
    String.length chars < fuel ->
    while fuel
      (gets (fun l => negb (Ascii.eqb (curChar l) Lexer.DOUBLEQUOTE)))
      (c <- gets curChar ;;
       (if Lexer.illegal_in_string c
        then Lexer.abort "Illegal character in string."
        else ret tt) ;;
       Lexer.skipCurChar) (at_pos s n)
    = if Ascii.eqb d QUOTE
      then Ret tt (at_pos s (n + String.length chars))
      else SysExit "Lexing error. Illegal character in string.".
Proof.
  intros Hd chars. induction chars as [|c chars IH]; intros n fuel E Hall Hfuel.
  - change (EmptyString +:+ String d rest) with (String d rest) in E.
    pose proof (char_or_eof_text_from _ _ _ _ E) as Hc.
    destruct fuel as [|fuel]; [simpl in Hfuel; lia|].
    cbn [while]. rewrite bind_gets.
    change (curChar (at_pos s n)) with (char_or_eof s n). rewrite Hc.
    change Lexer.DOUBLEQUOTE with QUOTE.
    destruct (Ascii.eqb d QUOTE) eqn:Eq; cbn [negb].
    + unfold ret. do 2 f_equal. simpl. lia.
    + destruct Hd as [->|Hd]; [rewrite Ascii.eqb_refl in Eq; discriminate|].
      unfold bind at 1. rewrite bind_gets.
      change (curChar (at_pos s n)) with (char_or_eof s n). rewrite Hc, Hd.
      reflexivity.
  - rewrite append_String in E.
    pose proof (char_or_eof_text_from _ _ _ _ E) as Hc.
    cbn [list_ascii_of_string] in Hall. apply Forall_cons in Hall as [[Hq Hi] Hall'].
    destruct fuel as [|fuel]; [simpl in Hfuel; lia|].
    cbn [while]. rewrite bind_gets.
    change (curChar (at_pos s n)) with (char_or_eof s n). rewrite Hc.
    apply Ascii.eqb_neq in Hq.
    change (Ascii.eqb c Lexer.DOUBLEQUOTE) with (Ascii.eqb c QUOTE).
    rewrite Hq. cbn [negb].
    assert (Hb : (c <- gets curChar ;;
       (if Lexer.illegal_in_string c
        then Lexer.abort "Illegal character in string."
        else ret tt) ;;
       Lexer.skipCurChar) (at_pos s n) = Ret tt (at_pos s (S n))).
    { rewrite bind_gets.
      change (curChar (at_pos s n)) with (char_or_eof s n). rewrite Hc, Hi.
      apply skipCurChar_at_pos. }
    rewrite (bind_of_Ret _ _ _ _ _ Hb).
    rewrite (IH (S n) fuel (text_from_S _ _ _ _ E) Hall')
      by (simpl in Hfuel; lia).
    destruct (Ascii.eqb d QUOTE); [|reflexivity].
    do 2 f_equal. simpl. lia.
Qed.

(** X5. String literals.  When the current character is a double quote and
    the characters after it up to [d] are neither a double quote nor one of
    the characters the lexer forbids in a string (carriage return, newline,
    tab, backslash, percent), then: if [d] is the closing double quote the
    token is a STRING whose text is exactly the characters between the
    quotes (possibly none), and the lexer stops after the closing quote; if
    [d] is a forbidden character the lexer exits. *)
Theorem getToken_string (pre chars : string) (d : ascii) (rest : string) :
  let s := pre +:+ String QUOTE (chars +:+ String d rest) in
  Forall (fun c => c <> QUOTE /\ Lexer.illegal_in_string c = false)
         (list_ascii_of_string chars) ->
  (d = QUOTE \/ Lexer.illegal_in_string d = true) ->
  Lexer.getToken (at_pos s (String.length pre))
  = if Ascii.eqb d QUOTE
    then Ret (mkToken chars TokenType.STRING)
             (at_pos s (String.length pre + String.length chars + 2))
    else SysExit "Lexing error. Illegal character in string.".
Proof.
  intros s Hall Hd.
  set (n := String.length pre).
  assert (E : text_from n s = String QUOTE (chars +:+ String d rest))
    by apply text_from_length_app.
  pose proof (char_or_eof_text_from _ _ _ _ E) as Hc.
  pose proof (text_from_S _ _ _ _ E) as E1.
  assert (Hn : S n <= String.length s).
  { pose proof (length_text_from n s) as HL. rewrite E in HL. simpl in HL. lia. }
  assert (Hcl : Lexer.classify (at_pos s n) = Lexer.string_branch (at_pos s n)).
  { unfold Lexer.classify. rewrite bind_gets.
    change (curChar (at_pos s n)) with (char_or_eof s n). rewrite Hc.
    reflexivity. }
  assert (Hsb : Lexer.string_branch (at_pos s n)
    = if Ascii.eqb d QUOTE
      then Ret (mkToken chars TokenType.STRING)
               (at_pos s (S n + String.length chars))
      else SysExit "Lexing error. Illegal character in string.").
  { unfold Lexer.string_branch.
    rewrite (bind_of_Ret _ _ _ _ _ (skipCurChar_at_pos s n)).
    rewrite bind_gets. unfold while_within.
    unfold bind at 1.
    rewrite (scan_string s d rest Hd chars (S n) _ E1 Hall).
    - destruct (Ascii.eqb d QUOTE); [|reflexivity].
      rewrite bind_gets. unfold ret, id. f_equal. f_equal.
      cbn [source curPos at_pos].
      apply (py_slice_text_from_any s (S n) chars (String d rest) E1 Hn).
    - pose proof (length_text_from (S n) s) as HL.
      rewrite E1, length_append in HL. simpl in HL.
      unfold Lexer.ahead, len, at_pos. cbn [source curPos]. lia. }
  rewrite Hsb in Hcl.
  destruct (Ascii.eqb d QUOTE).
  - replace (n + String.length chars + 2) with (S (S n + String.length chars))
      by lia.
    apply getToken_of_classify; [rewrite Hc; reflexivity .. | exact Hcl].
  - apply getToken_of_classify_exit; [rewrite Hc; reflexivity .. | exact Hcl].
Qed.

Lemma getToken_string_witness :
  Lexer.getToken (at_pos ("PRINT " +:+ String QUOTE ("hi" +:+ String QUOTE (str LF))) 6)
  = Ret (mkToken "hi" TokenType.STRING)
        (at_pos ("PRINT " +:+ String QUOTE ("hi" +:+ String QUOTE (str LF))) 10)
  /\ Lexer.getToken (at_pos (String QUOTE ("a" +:+ String LF EmptyString)) 0)
     = SysExit "Lexing error. Illegal character in string.".
Proof.
  split.
  - apply (getToken_string "PRINT " "hi" QUOTE (str LF)).
    + repeat constructor; discriminate.
    + left. reflexivity.
  - apply (getToken_string "" "a" LF "").
    + repeat constructor; discriminate.
    + right. reflexivity.
Defined.

Lemma scan_cur f s :
  forall fuel n,
    (f Lexer.EOF = false \/ after_run f (text_from n s) <> EmptyString) ->
    String.length (run_of f (text_from n s)) <= fuel ->
    while fuel (gets (fun l => f (curChar l))) Lexer.skipCurChar (at_pos s n)
    = Ret tt (at_pos s (n + String.length (run_of f (text_from n s)))).
Proof.
  intros fuel. induction fuel as [|fuel IH]; intros n Hstop Hlen.
  - cbn [while]. rewrite bind_gets.
    change (curChar (at_pos s n)) with (char_or_eof s n).
    destruct (text_from n s) as [|c r] eqn:E; cbn [run_of after_run] in *.
    + rewrite (char_or_eof_past _ _ E).
      destruct Hstop as [->|Hstop]; [|congruence].
      unfold ret. do 2 f_equal. simpl. lia.
    + rewrite (char_or_eof_text_from _ _ _ _ E).
      destruct (f c); [simpl in Hlen; lia|].
      unfold ret. do 2 f_equal. simpl. lia.
  - cbn [while]. rewrite bind_gets.
    change (curChar (at_pos s n)) with (char_or_eof s n).
    destruct (text_from n s) as [|c r] eqn:E; cbn [run_of after_run] in *.
    + rewrite (char_or_eof_past _ _ E).
      destruct Hstop as [->|Hstop]; [|congruence].
      unfold ret. do 2 f_equal. simpl. lia.
    + rewrite (char_or_eof_text_from _ _ _ _ E).
      destruct (f c) eqn:Ef.
      * rewrite (bind_of_Ret _ _ _ _ _ (skipCurChar_at_pos s n)).
        pose proof (text_from_S _ _ _ _ E) as E1.
        rewrite IH; rewrite E1.
        -- do 2 f_equal. simpl. lia.
        -- exact Hstop.
        -- simpl in Hlen. lia.
      * unfold ret. do 2 f_equal. simpl. lia.
Qed.

Lemma run_of_app f a b :
  Forall (fun c => f c = true) (list_ascii_of_string a) ->
  run_of f (a +:+ b) = a +:+ run_of f b.
Proof.
  induction a as [|c a IH]; intros H.
  - reflexivity.
  - cbn [list_ascii_of_string] in H. apply Forall_cons in H as [Hc H].
    rewrite !append_String. cbn [run_of]. rewrite Hc, (IH H). reflexivity.
Qed.

Lemma after_run_app f a b :
  Forall (fun c => f c = true) (list_ascii_of_string a) ->
  after_run f (a +:+ b) = after_run f b.
Proof.
  induction a as [|c a IH]; intros H.
  - reflexivity.
  - cbn [list_ascii_of_string] in H. apply Forall_cons in H as [Hc H].
    rewrite !append_String. cbn [after_run]. rewrite Hc. apply (IH H).
Qed.

Lemma skipWhitespace_at s n :
  Lexer.skipWhitespace (at_pos s n)
  = Ret tt (at_pos s (n + String.length
       (run_of (fun c : ascii => bool_decide (c ∈ Lexer.WHITESPACE)) (text_from n s)))).
Proof.
  unfold Lexer.skipWhitespace, while_within.
  set (ws := fun c : ascii => bool_decide (c ∈ Lexer.WHITESPACE)).
  change (gets (fun l : Lexer => bool_decide (curChar l ∈ Lexer.WHITESPACE)))
    with (gets (fun l : Lexer => ws (curChar l))).
  apply scan_cur.
  - left. reflexivity.
  - pose proof (length_run_of_le ws (text_from n s)) as H1.
    pose proof (length_text_from n s) as H2.
    unfold Lexer.ahead, len, at_pos. cbn [source curPos]. lia.
Qed.

(** X6. Blanks before a token are ignored: when the characters from the
    current position on start with spaces, tabs or carriage returns,
    [getToken] gives what it gives from the position after them. *)
Theorem getToken_ignores_leading_blanks (pre blanks rest : string) :
  let s := pre +:+ blanks +:+ rest in
  Forall (fun c => c ∈ Lexer.WHITESPACE) (list_ascii_of_string blanks) ->
  Lexer.getToken (at_pos s (String.length pre))
  = Lexer.getToken (at_pos s (String.length pre + String.length blanks)).
Proof.
  intros s Hall.
  set (ws := fun c : ascii => bool_decide (c ∈ Lexer.WHITESPACE)).
  assert (Hall' : Forall (fun c => ws c = true) (list_ascii_of_string blanks)).
  { eapply Forall_impl; [exact Hall|]. intros c Hc. unfold ws.
    apply bool_decide_eq_true_2. exact Hc. }
  assert (E : text_from (String.length pre) s = blanks +:+ rest)
    by apply text_from_length_app.
  assert (E' : text_from (String.length pre + String.length blanks) s = rest).
  { rewrite text_from_add, E. apply text_from_length_app. }
  unfold Lexer.getToken.
  rewrite (bind_of_Ret _ _ _ _ _ (skipWhitespace_at s (String.length pre))).
  rewrite (bind_of_Ret _ _ _ _ _
             (skipWhitespace_at s (String.length pre + String.length blanks))).
  fold ws. rewrite E, E', (run_of_app ws _ _ Hall'), length_append.
  rewrite Nat.add_assoc. reflexivity.
Qed.

Lemma getToken_ignores_leading_blanks_witness :
  Lexer.getToken (at_pos ("LET" +:+ String " " (String TAB "") +:+ "a=1") 3)
  = Lexer.getToken (at_pos ("LET" +:+ String " " (String TAB "") +:+ "a=1") 5).
Proof.
  apply (getToken_ignores_leading_blanks "LET" (String " " (String TAB "")) "a=1").
  repeat constructor; set_solver.
Defined.

(** X7. A comment is lexed as the newline that ends it: when the current
    character is a hash mark and the first newline after it is found after
    the characters [comment], [getToken] returns the NEWLINE token and the
    lexer stops just after that newline; nothing of the comment is read as
    a token. *)
Theorem getToken_comment (pre comment rest : string) :
  let s := pre +:+ String "#" (comment +:+ String LF rest) in
  Forall (fun c => c <> LF) (list_ascii_of_string comment) ->
  Lexer.getToken (at_pos s (String.length pre))
  = Ret (mkToken (str LF) TokenType.NEWLINE)
        (at_pos s (String.length pre + String.length comment + 2)).
Proof.
  intros s Hall.
  set (n := String.length pre).
  set (f := fun c => negb (Ascii.eqb c Lexer.NEWLINE)).
  assert (Hall' : Forall (fun c => f c = true)
                    (list_ascii_of_string (String "#" comment))).
  { cbn [list_ascii_of_string]. apply Forall_cons. split; [reflexivity|].
    eapply Forall_impl; [exact Hall|]. intros c Hc. unfold f.
    apply Ascii.eqb_neq in Hc. change Lexer.NEWLINE with LF. rewrite Hc.
    reflexivity. }
  assert (E : text_from n s = String "#" comment +:+ String LF rest)
    by apply text_from_length_app.
  pose proof (char_or_eof_text_from _ _ _ _ E) as Hc.
  assert (Hws : Lexer.skipWhitespace (at_pos s n) = Ret tt (at_pos s n)).
  { unfold Lexer.skipWhitespace, while_within, Lexer.ahead. cbn [while].
    rewrite bind_gets.
    change (curChar (at_pos s n)) with (char_or_eof s n). rewrite Hc.
    reflexivity. }
  assert (Hsc : Lexer.skipComment (at_pos s n)
                = Ret tt (at_pos s (n + S (String.length comment)))).
  { unfold Lexer.skipComment. rewrite bind_gets.
    change (curChar (at_pos s n)) with (char_or_eof s n). rewrite Hc.
    change (Ascii.eqb "#" Lexer.HASHMARK) with true. cbv iota.
    unfold while_within.
    pose proof (scan_cur f s (Lexer.ahead (at_pos s n)) n) as Hscan.
    rewrite E, (run_of_app f _ _ Hall'), (after_run_app f _ _ Hall') in Hscan.
    cbn [run_of after_run] in Hscan.
    change (f LF) with false in Hscan. cbv iota in Hscan.
    rewrite length_append in Hscan. cbn [String.length] in Hscan.
    rewrite Nat.add_0_r in Hscan. apply Hscan.
    - right. discriminate.
    - pose proof (length_text_from n s) as HL.
      rewrite E, length_append in HL. simpl in HL.
      unfold Lexer.ahead, len, at_pos. cbn [source curPos]. simpl. lia. }
  assert (E2 : text_from (n + S (String.length comment)) s = String LF rest).
  { rewrite text_from_add, E.
    apply (text_from_length_app (String "#" comment)). }
  unfold Lexer.getToken.
  rewrite (bind_of_Ret _ _ _ _ _ Hws), (bind_of_Ret _ _ _ _ _ Hsc).
  assert (Hcl : Lexer.classify (at_pos s (n + S (String.length comment)))
    = Ret (mkToken (str LF) TokenType.NEWLINE)
          (at_pos s (n + S (String.length comment)))).
  { unfold Lexer.classify. rewrite bind_gets.
    change (curChar (at_pos s ?m)) with (char_or_eof s m).
    rewrite (char_or_eof_text_from _ _ _ _ E2). reflexivity. }
  rewrite (bind_of_Ret _ _ _ _ _ Hcl).
  rewrite (bind_of_Ret _ _ _ _ _ (skipCurChar_at_pos s _)).
  unfold ret. do 2 f_equal. lia.
Qed.

Lemma getToken_comment_witness :
  Lexer.getToken (at_pos ("a " +:+ String "#" (" x" +:+ String LF "b")) 2)
  = Ret (mkToken (str LF) TokenType.NEWLINE)
        (at_pos ("a " +:+ String "#" (" x" +:+ String LF "b")) 6).
Proof.
  apply (getToken_comment "a " " x" "b").
  repeat constructor; discriminate.
Defined.

(** X8. A character that starts no token makes the lexer exit: when the
    current character is not a blank, not one of the characters
    [# + - * / = > < !], not a double quote, not a newline, not the end-of-input character,
    not a digit and not a letter, [getToken] exits with a message that
    names the character.  Parentheses, for instance, are such characters. *)
Theorem getToken_unknown_character (l : Lexer) :
  let c := curChar l in
  c ∉ Lexer.WHITESPACE ->
  c ∉ ["#"; "+"; "-"; "*"; "/"; LF; NUL; "="; ">"; "<"; "!"; QUOTE]%char ->
  isdigit c = false -> isalpha c = false ->
  Lexer.getToken l = SysExit ("Lexing error. Unknow token: " +:+ str c).
Proof.
  intros c Hw Hs Hd Ha.
  assert (Hne : forall x,
    In x ["#"; "+"; "-"; "*"; "/"; LF; NUL; "="; ">"; "<"; "!"; QUOTE]%char ->
    Ascii.eqb (curChar l) x = false).
  { intros x Hx. apply Ascii.eqb_neq. intros E. apply Hs.
    apply list_elem_of_In. fold c in E. rewrite E. exact Hx. }
  rewrite getToken_direct.
  - unfold bind at 1. unfold Lexer.classify. rewrite bind_gets.
    change Lexer.NEWLINE with LF. change Lexer.EOF with NUL.
    change Lexer.DOUBLEQUOTE with QUOTE.
    rewrite !Hne by (simpl; tauto).
    fold c. rewrite Hd, Ha. reflexivity.
  - apply bool_decide_eq_false_2. exact Hw.
  - apply Hne. simpl. tauto.
Qed.

Lemma getToken_unknown_character_witness :
  Lexer.getToken (at_pos ("(a)" +:+ str LF) 0)
  = SysExit "Lexing error. Unknow token: (".
Proof.
  apply (getToken_unknown_character (at_pos ("(a)" +:+ str LF) 0)).
  - apply (bool_decide_eq_false_1 _). reflexivity.
  - apply (bool_decide_eq_false_1 _). reflexivity.
  - reflexivity.
  - reflexivity.
Defined.

(** ** The token window, and the errors of the productions *)

(** X9. [skipCurToken] checks before it reads: when a kind is required
    and the current token is of another kind, the parser exits with
    [Expected ..., got ...] and the lexer is not consulted.  Otherwise the
    lookahead token becomes the current token and the lexer's next token
    becomes the lookahead; the tables and the emitter stay as they are,
    and an exit of the lexer is the exit of the call. *)
Theorem skipCurToken_shifts_the_window (p : Parser) (t : Token) :
  curToken p = Some t ->
  (forall required,
     required <> kind t ->
     Parser.skipCurToken (Some required) p
     = SysExit ("Error. Expected " +:+ TokenType.name required +:+ ", got "
                +:+ TokenType.name (kind t)))
  /\ (forall rt,
        rt = None \/ rt = Some (kind t) ->
        Parser.skipCurToken rt p
        = match Lexer.getToken (lexer p) with
          | Ret token l' =>
              Ret tt (mkParser l' (emitter p) (symbolsDeclared p)
                        (labelsDeclared p) (labelsGotoed p)
                        (peekToken p) (Some token))
          | SysExit msg => SysExit msg
          | PyRaise e => PyRaise e
          | OutOfFuel => OutOfFuel
          end).
Proof.
  intros Ht. split.
  - intros required Hne. unfold Parser.skipCurToken.
    unfold bind at 1. rewrite (bind_curTokeHasType _ _ _ _ Ht).
    rewrite (bool_decide_eq_false_2 _ Hne). cbn [negb].
    rewrite (bind_cur _ _ _ Ht). reflexivity.
  - intros rt Hrt.
    assert (Hshift : (modify (fun p => set_curToken (peekToken p) p) ;;
                      token <- Parser.on_lexer Lexer.getToken ;;
                      modify (set_peekToken (Some token))) p
      = match Lexer.getToken (lexer p) with
        | Ret token l' =>
            Ret tt (mkParser l' (emitter p) (symbolsDeclared p)
                      (labelsDeclared p) (labelsGotoed p)
                      (peekToken p) (Some token))
        | SysExit msg => SysExit msg
        | PyRaise e => PyRaise e
        | OutOfFuel => OutOfFuel
        end).
    { unfold bind, modify, Parser.on_lexer. cbn [lexer set_curToken].
      destruct (Lexer.getToken (lexer p)); reflexivity. }
    unfold Parser.skipCurToken. destruct Hrt as [->| ->].
    + unfold bind at 1. unfold ret at 1. exact Hshift.
    + unfold bind at 1. rewrite (bind_curTokeHasType _ _ _ _ Ht).
      rewrite (bool_decide_eq_true_2 _ eq_refl). cbn [negb].
      unfold ret at 1. exact Hshift.
Qed.

Lemma skipCurToken_shifts_the_window_witness :
  Parser.skipCurToken (Some TokenType.THEN)
    (mkParser (at_pos ("1" +:+ str LF) 1) (Emitter.init "out.c") ∅ ∅ ∅
       (Some (mkToken "1" TokenType.NUMBER))
       (Some (mkToken (str LF) TokenType.NEWLINE)))
  = SysExit "Error. Expected THEN, got NUMBER".
Proof.
  refine (proj1 (skipCurToken_shifts_the_window
                   (mkParser (at_pos ("1" +:+ str LF) 1) (Emitter.init "out.c")
                      ∅ ∅ ∅ (Some (mkToken "1" TokenType.NUMBER))
                      (Some (mkToken (str LF) TokenType.NEWLINE)))
                   (mkToken "1" TokenType.NUMBER) eq_refl)
                TokenType.THEN _).
  discriminate.
Defined.

Lemma bind_exit {St A B} (m : M St A) (k : A -> M St B) s msg :
  m s = SysExit msg -> bind m k s = SysExit msg.
Proof. unfold bind. intros ->. reflexivity. Qed.

Lemma unary_unsigned p t :
  curToken p = Some t ->
  kind t <> TokenType.PLUS -> kind t <> TokenType.MINUS ->
  Parser.unary p = Parser.primary p.
Proof.
  intros Ht Hp Hm. unfold Parser.unary.
  unfold bind at 1. rewrite (or_else_at _ _ _ _ Ht), (curTokeHasType_at _ _ _ Ht).
  rewrite (bool_decide_eq_false_2 _ (not_eq_sym Hp)).
  rewrite (bool_decide_eq_false_2 _ (not_eq_sym Hm)).
  unfold bind, ret. destruct (Parser.primary p); reflexivity.
Qed.

(** X10. An operand that cannot be read stops the compilation.  When the
    current token is an identifier that was not declared by a LET or an
    INPUT before, each of [primary], [unary], [term], [expression] and
    [comparison] exits with [Referencing variable before assignment];
    when it is neither a number, an identifier nor a sign, each of them
    exits with [Unexpected token]. *)
Theorem operand_errors (p : Parser) (t : Token) (production : M Parser unit) :
  curToken p = Some t ->
  In production [Parser.primary; Parser.unary; Parser.term;
                 Parser.expression; Parser.comparison] ->
  (kind t = TokenType.IDENT -> text t ∉ symbolsDeclared p ->
   production p
   = SysExit ("Error. Referencing variable before assignment: " +:+ text t))
  /\ (kind t ∉ [TokenType.NUMBER; TokenType.IDENT; TokenType.PLUS;
                TokenType.MINUS] ->
      production p = SysExit ("Error. Unexpected token at " +:+ text t)).
Proof.
  intros Ht Hin.
  assert (Hall : forall msg,
    kind t <> TokenType.PLUS -> kind t <> TokenType.MINUS ->
    Parser.primary p = SysExit msg -> production p = SysExit msg).
  { intros msg Hp Hm H.
    assert (Hu : Parser.unary p = SysExit msg)
      by (rewrite (unary_unsigned p t Ht Hp Hm); exact H).
    assert (Hte : Parser.term p = SysExit msg)
      by (unfold Parser.term; apply bind_exit, Hu).
    assert (He : Parser.expression p = SysExit msg)
      by (unfold Parser.expression; apply bind_exit, Hte).
    assert (Hc : Parser.comparison p = SysExit msg)
      by (unfold Parser.comparison; apply bind_exit, He).
    simpl in Hin.
    destruct Hin as [<-|[<-|[<-|[<-|[<-|[]]]]]]; assumption. }
  split.
  - intros Hk Hx. apply Hall; try (rewrite Hk; discriminate).
    unfold Parser.primary.
    rewrite (bind_curTokeHasType _ _ _ _ Ht), Hk.
    rewrite (bool_decide_eq_false_2 _) by discriminate.
    rewrite (bind_curTokeHasType _ _ _ _ Ht), Hk.
    rewrite (bool_decide_eq_true_2 _ eq_refl).
    rewrite (bind_cur _ _ _ Ht), bind_gets.
    rewrite (bool_decide_eq_false_2 _ Hx). reflexivity.
  - intros Hk.
    assert (Hne : forall k, In k [TokenType.NUMBER; TokenType.IDENT;
                                  TokenType.PLUS; TokenType.MINUS] ->
                            k <> kind t).
    { intros k Hk' E. apply Hk. apply list_elem_of_In. rewrite <- E. exact Hk'. }
    apply Hall.
    + apply not_eq_sym, Hne. simpl. tauto.
    + apply not_eq_sym, Hne. simpl. tauto.
    + assert (Hn : TokenType.NUMBER <> kind t) by (apply Hne; simpl; tauto).
      assert (Hi : TokenType.IDENT <> kind t) by (apply Hne; simpl; tauto).
      unfold Parser.primary.
      rewrite (bind_curTokeHasType _ _ _ _ Ht).
      rewrite (bool_decide_eq_false_2 _ Hn).
      rewrite (bind_curTokeHasType _ _ _ _ Ht).
      rewrite (bool_decide_eq_false_2 _ Hi).
      rewrite (bind_cur _ _ _ Ht). reflexivity.
Qed.

Lemma operand_errors_witness :
  Parser.expression
    (mkParser (at_pos ("y" +:+ str LF) 2) (Emitter.init "out.c") ∅ ∅ ∅
       (Some (mkToken "y" TokenType.IDENT))
       (Some (mkToken (str LF) TokenType.NEWLINE)))
  = SysExit "Error. Referencing variable before assignment: y".
Proof.
  refine (proj1 (operand_errors
                   (mkParser (at_pos ("y" +:+ str LF) 2) (Emitter.init "out.c")
                      ∅ ∅ ∅ (Some (mkToken "y" TokenType.IDENT))
                      (Some (mkToken (str LF) TokenType.NEWLINE)))
                   (mkToken "y" TokenType.IDENT) Parser.expression eq_refl _)
                eq_refl _).
  - simpl. tauto.
  - simpl. set_solver.
Defined.

(** ** What parsing an expression leaves alone *)

Lemma same_tables_refl p : same_tables p p.
Proof. repeat split. Qed.

Lemma same_tables_trans p1 p2 p3 :
  same_tables p1 p2 -> same_tables p2 p3 -> same_tables p1 p3.
Proof.
  intros (A1 & A2 & A3) (B1 & B2 & B3). repeat split; congruence.
Qed.

Lemma getToken_same_tables :
  steps same_tables (Parser.on_lexer Lexer.getToken).
Proof. apply on_lexer_steps. intros p l. repeat split. Qed.

Ltac same_tables_side :=
  first [ exact same_tables_refl | exact same_tables_trans
        | exact getToken_same_tables
        | intros; repeat split ].

Lemma skipCurToken_same_tables rt :
  steps same_tables (Parser.skipCurToken rt).
Proof. apply skipCurToken_steps; same_tables_side. Qed.

Lemma nl_same_tables : steps same_tables Parser.nl.
Proof. apply nl_steps; same_tables_side. Qed.

Lemma primary_same_tables : steps same_tables Parser.primary.
Proof. apply primary_steps; same_tables_side. Qed.

Lemma unary_same_tables : steps same_tables Parser.unary.
Proof. apply unary_steps; same_tables_side. Qed.

Lemma term_same_tables : steps same_tables Parser.term.
Proof. apply term_steps; same_tables_side. Qed.

Lemma expression_same_tables : steps same_tables Parser.expression.
Proof. apply expression_steps; same_tables_side. Qed.

Lemma comparison_same_tables : steps same_tables Parser.comparison.
Proof. apply comparison_steps; same_tables_side. Qed.

(** X11. Reading tokens and parsing expressions declares nothing: when
    [skipCurToken], [nl], [primary], [unary], [term], [expression] or
    [comparison] returns, the set of declared variables, the set of
    declared labels and the set of GOTO targets are what they were.  Only
    the LABEL, GOTO, LET and INPUT branches of [statement] write to them. *)
Theorem expressions_declare_nothing (production : M Parser unit)
  (p p' : Parser) :
  In production [Parser.skipCurToken None; Parser.nl; Parser.primary;
                 Parser.unary; Parser.term; Parser.expression;
                 Parser.comparison] ->
  production p = Ret tt p' ->
  symbolsDeclared p' = symbolsDeclared p
  /\ labelsDeclared p' = labelsDeclared p
  /\ labelsGotoed p' = labelsGotoed p.
Proof.
  intros Hin H. simpl in Hin.
  destruct Hin as [<-|[<-|[<-|[<-|[<-|[<-|[<-|[]]]]]]]]; revert H.
  - apply skipCurToken_same_tables.
  - apply nl_same_tables.
  - apply primary_same_tables.
  - apply unary_same_tables.
  - apply term_same_tables.
  - apply expression_same_tables.
  - apply comparison_same_tables.
Qed.

Lemma expressions_declare_nothing_witness :
  let p0 := mkParser (at_pos ("1+y" +:+ str LF) 2) (Emitter.init "out.c")
              {["y"]} ∅ ∅
              (Some (mkToken "1" TokenType.NUMBER))
              (Some (mkToken "+" TokenType.PLUS)) in
  exists p1,
    Parser.expression p0 = Ret tt p1
    /\ symbolsDeclared p1 = symbolsDeclared p0
    /\ labelsDeclared p1 = labelsDeclared p0
    /\ labelsGotoed p1 = labelsGotoed p0.
Proof.
  intros p0.
  destruct (Parser.expression p0) as [[] p1| | |] eqn:E.
  - exists p1. split; [reflexivity|].
    apply (expressions_declare_nothing Parser.expression p0 p1);
      [simpl; tauto | exact E].
  - vm_compute in E. discriminate E.
  - vm_compute in E. discriminate E.
  - vm_compute in E. discriminate E.
Defined.

(** ** The LABEL branch, and the statement that is none *)

Lemma skipCurToken_None_at p token l' :
  Lexer.getToken (lexer p) = Ret token l' ->
  Parser.skipCurToken None p
  = Ret tt (mkParser l' (emitter p) (symbolsDeclared p) (labelsDeclared p)
              (labelsGotoed p) (peekToken p) (Some token)).
Proof.
  intros H. unfold Parser.skipCurToken, bind, modify, ret, Parser.on_lexer.
  cbn [lexer set_curToken]. rewrite H. reflexivity.
Qed.

Lemma statement_label depth p t :
  curToken p = Some t -> kind t = TokenType.LABEL ->
  Parser.statement (S depth) p
  = ((Parser.skipCurToken None ;;
      t <- Parser.cur ;;
      declared <- gets labelsDeclared ;;
      (if bool_decide (text t ∈ declared)
       then Parser.abort ("Label already exists: " +:+ text t)
       else ret tt) ;;
      modify (fun p => set_labelsDeclared ({[text t]} ∪ labelsDeclared p) p) ;;
      Parser.emitLine (text t +:+ ":") ;;
      Parser.skipCurToken (Some TokenType.IDENT)) ;;
     Parser.nl) p.
Proof.
  intros Hcur Hk. cbn [Parser.statement]. apply bind_at.
  repeat (rewrite (bind_curTokeHasType _ _ _ _ Hcur), Hk;
          match goal with
          | |- context [bool_decide (?a = ?b)] =>
              let v := eval vm_compute in (bool_decide (a = b)) in
              change (bool_decide (a = b)) with v
          end;
          cbv iota).
  reflexivity.
Qed.

(** X12. A label is declared once, and by an identifier.  At a LABEL
    token whose operand is already among the declared labels, [statement]
    exits with [Label already exists] (the lexer having delivered the next
    token).  When [statement] returns from a LABEL token, the operand is an
    identifier that was not a declared label before; it is one afterwards,
    and nothing else was added to the tables. *)
Theorem label_is_declared_once (depth : nat) (p : Parser) (t name : Token) :
  curToken p = Some t -> kind t = TokenType.LABEL ->
  peekToken p = Some name ->
  (forall token l',
     Lexer.getToken (lexer p) = Ret token l' ->
     text name ∈ labelsDeclared p ->
     Parser.statement (S depth) p
     = SysExit ("Error. Label already exists: " +:+ text name))
  /\ (forall p',
        Parser.statement (S depth) p = Ret tt p' ->
        kind name = TokenType.IDENT
        /\ (text name ∉ labelsDeclared p)
        /\ labelsDeclared p' = {[text name]} ∪ labelsDeclared p
        /\ symbolsDeclared p' = symbolsDeclared p
        /\ labelsGotoed p' = labelsGotoed p).
Proof.
  intros Hcur Hk Hpeek. split.
  - intros token l' Hg Hin.
    rewrite (statement_label depth p t Hcur Hk).
    apply bind_exit.
    rewrite (bind_of_Ret _ _ _ _ _ (skipCurToken_None_at p token l' Hg)).
    rewrite (bind_cur _ _ name) by exact Hpeek.
    rewrite bind_gets. cbn [labelsDeclared].
    rewrite (bool_decide_eq_true_2 _ Hin). reflexivity.
  - intros p' H. rewrite (statement_label depth p t Hcur Hk) in H.
    apply bind_Ret in H as (u & p5 & H & Hnl).
    apply nl_same_tables in Hnl as (N1 & N2 & N3).
    apply bind_Ret in H as (u1 & p1 & H1 & H).
    apply skipCurToken_Ret in H1 as (Hc & Hs & Hl & Hg & _).
    rewrite Hpeek in Hc. rewrite (bind_cur _ _ _ Hc), bind_gets in H.
    destruct (bool_decide (text name ∈ labelsDeclared p1)) eqn:Hd.
    { discriminate H. }
    apply bool_decide_eq_false_1 in Hd.
    unfold bind at 1 in H. unfold ret at 1 in H.
    apply bind_Ret in H as (u2 & p2 & H2 & H).
    unfold modify in H2. injection H2 as _ <-.
    apply bind_Ret in H as (u3 & p3 & H3 & H).
    unfold Parser.emitLine, Parser.on_emitter, modify in H3.
    injection H3 as _ <-.
    pose proof (skipCurToken_lexer _ _ _ _ H) as (tok & _ & _ & _ & Hreq).
    destruct (Hreq _ eq_refl) as (t' & Ht' & Hkind).
    cbn [curToken set_emitter set_labelsDeclared] in Ht'.
    rewrite Hc in Ht'. injection Ht' as <-.
    apply skipCurToken_same_tables in H as (S1 & S2 & S3).
    cbn [symbolsDeclared labelsDeclared labelsGotoed set_emitter
         set_labelsDeclared] in S1, S2, S3.
    split; [exact Hkind|]. split; [rewrite <- Hl; exact Hd|].
    repeat split; congruence.
Qed.

Lemma label_is_declared_once_witness :
  Parser.statement 1
    (mkParser (at_pos ("LABEL a" +:+ str LF) 7) (Emitter.init "out.c")
       ∅ {["a"]} ∅
       (Some (mkToken "LABEL" TokenType.LABEL))
       (Some (mkToken "a" TokenType.IDENT)))
  = SysExit "Error. Label already exists: a".
Proof.
  refine (proj1 (label_is_declared_once 0
                   (mkParser (at_pos ("LABEL a" +:+ str LF) 7)
                      (Emitter.init "out.c") ∅ {["a"]} ∅
                      (Some (mkToken "LABEL" TokenType.LABEL))
                      (Some (mkToken "a" TokenType.IDENT)))
                   (mkToken "LABEL" TokenType.LABEL)
                   (mkToken "a" TokenType.IDENT) eq_refl eq_refl eq_refl)
                (mkToken (str LF) TokenType.NEWLINE)
                (at_pos ("LABEL a" +:+ str LF) 8) _ _).
  - vm_compute. reflexivity.
  - simpl. set_solver.
Defined.

(** X13. A line that starts with no statement keyword stops the
    compilation: when the current token is not PRINT, IF, WHILE, LABEL,
    GOTO, LET or INPUT, [statement] exits with [Invalid statement at],
    naming the token's text and kind.  An assignment without LET is such a
    line. *)
Theorem statement_needs_a_keyword (depth : nat) (p : Parser) (t : Token) :
  curToken p = Some t ->
  kind t ∉ [TokenType.PRINT; TokenType.IF; TokenType.WHILE; TokenType.LABEL;
            TokenType.GOTO; TokenType.LET; TokenType.INPUT] ->
  Parser.statement (S depth) p
  = SysExit ("Error. Invalid statement at " +:+ text t +:+ " ("
             +:+ TokenType.name (kind t) +:+ ")").
Proof.
  intros Hcur Hk.
  assert (Hne : forall k,
    In k [TokenType.PRINT; TokenType.IF; TokenType.WHILE; TokenType.LABEL;
          TokenType.GOTO; TokenType.LET; TokenType.INPUT] ->
    bool_decide (k = kind t) = false).
  { intros k Hin. apply bool_decide_eq_false_2. intros E. apply Hk.
    apply list_elem_of_In. rewrite <- E. exact Hin. }
  cbn [Parser.statement]. apply bind_exit.
  repeat (rewrite (bind_curTokeHasType _ _ _ _ Hcur), Hne by (simpl; tauto)).
  rewrite (bind_cur _ _ _ Hcur). reflexivity.
Qed.

Lemma statement_needs_a_keyword_witness :
  Parser.statement 1
    (mkParser (at_pos ("x = 1" +:+ str LF) 3) (Emitter.init "out.c") ∅ ∅ ∅
       (Some (mkToken "x" TokenType.IDENT))
       (Some (mkToken "=" TokenType.EQ)))
  = SysExit "Error. Invalid statement at x (IDENT)".
Proof.
  apply (statement_needs_a_keyword 0
           (mkParser (at_pos ("x = 1" +:+ str LF) 3) (Emitter.init "out.c")
              ∅ ∅ ∅ (Some (mkToken "x" TokenType.IDENT))
              (Some (mkToken "=" TokenType.EQ)))
           (mkToken "x" TokenType.IDENT) eq_refl).
  apply (bool_decide_eq_false_1 _). reflexivity.
Defined.

(** ** Where the loops of the parser stop *)

Lemma while_Ret_cond {St} (cond : M St bool) (body : M St unit) :
  (forall s b s1, cond s = Ret b s1 -> s1 = s) ->
  forall fuel s u s',
    while fuel cond body s = Ret u s' -> cond s' = Ret false s'.
Proof.
  intros Hpure fuel. induction fuel as [|fuel IH]; intros s u s' H;
    cbn [while] in H; apply bind_Ret in H as (b & s1 & Hc & H);
    pose proof (Hpure _ _ _ Hc) as ->; destruct b; try discriminate H.
  - injection H as _ <-. exact Hc.
  - apply bind_Ret in H as (u1 & s2 & _ & H). apply (IH _ _ _ H).
  - injection H as _ <-. exact Hc.
Qed.

Lemma curTokeHasType_Ret k p b p1 :
  Parser.curTokeHasType k p = Ret b p1 ->
  p1 = p /\ exists t, curToken p = Some t /\ b = bool_decide (k = kind t).
Proof.
  unfold Parser.curTokeHasType, bind, Parser.cur.
  destruct (curToken p) as [t|]; [|discriminate].
  intros [= <- <-]. split; [reflexivity|]. exists t. split; reflexivity.
Qed.

Lemma nl_stops p u p' :
  Parser.nl p = Ret u p' ->
  exists t, curToken p' = Some t /\ kind t <> TokenType.NEWLINE.
Proof.
  intros H. unfold Parser.nl in H.
  apply bind_Ret in H as (u1 & p1 & _ & H). unfold while_within in H.
  apply while_Ret_cond in H.
  - apply curTokeHasType_Ret in H as (_ & t & Ht & Hb).
    exists t. split; [exact Ht|]. intros E. symmetry in Hb.
    apply bool_decide_eq_false_1 in Hb. apply Hb. symmetry. exact E.
  - intros s b s1 Hs. apply curTokeHasType_Ret in Hs as [-> _]. reflexivity.
Qed.

(** X14. A statement that is parsed takes its whole line, and no more than
    the blank lines after it: when [statement] returns, the lexer has
    moved forward in the same text and the current token is not a NEWLINE
    (the newline that ends the statement and the newlines that follow it
    have been consumed). *)
Theorem statement_ends_its_line (depth : nat) (p p' : Parser) :
  Parser.statement depth p = Ret tt p' ->
  (exists t, curToken p' = Some t /\ kind t <> TokenType.NEWLINE)
  /\ source (lexer p') = source (lexer p)
  /\ (curPos (lexer p) < curPos (lexer p'))%Z.
Proof.
  intros H. split.
  - destruct depth as [|depth]; [discriminate H|].
    cbn [Parser.statement] in H.
    apply bind_Ret in H as (u1 & p1 & _ & H). apply (nl_stops _ _ _ H).
  - apply (statement_pmoves depth _ _ _ H).
Qed.

Lemma statement_ends_its_line_witness :
  let p0 := mkParser (at_pos ("GOTO a" +:+ str LF +:+ str LF +:+ "LABEL a"
                              +:+ str LF) 6)
              (Emitter.init "out.c") ∅ ∅ ∅
              (Some (mkToken "GOTO" TokenType.GOTO))
              (Some (mkToken "a" TokenType.IDENT)) in
  exists p1,
    Parser.statement 1 p0 = Ret tt p1
    /\ (exists t, curToken p1 = Some t /\ kind t <> TokenType.NEWLINE)
    /\ source (lexer p1) = source (lexer p0)
    /\ (curPos (lexer p0) < curPos (lexer p1))%Z.
Proof.
  intros p0.
  destruct (Parser.statement 1 p0) as [[] p1| | |] eqn:E.
  - exists p1. split; [reflexivity|].
    apply (statement_ends_its_line 1 p0 p1 E).
  - vm_compute in E. discriminate E.
  - vm_compute in E. discriminate E.
  - vm_compute in E. discriminate E.
Defined.

(** X15. A compilation that succeeds has read its input to the end-of-input
    token: when [compile] returns, the current token of the parser is of
    kind EOF.  The statement loop of [program] stops nowhere else, and the
    check of the GOTO targets and the closing lines read no token. *)
Theorem success_stops_at_end_of_input (order : gset string -> list string)
  (source : string) (p : Parser) :
  compile order source = Ret tt p ->
  exists t, curToken p = Some t /\ kind t = TokenType.EOF.
Proof.
  intros H. unfold compile in H.
  destruct (Lexer.init source) as [u0 l0| | |]; try discriminate H.
  destruct (Parser.init l0 (Emitter.init "out.c")) as [u1 p0| | |];
    try discriminate H.
  unfold Parser.program in H.
  apply bind_Ret in H as (u2 & p1 & Hs & H).
  apply bind_Ret in H as (u3 & p2 & Hc & H).
  apply check_labels_same in Hc as ->.
  apply bind_Ret in H as (u4 & p3 & H3 & H).
  unfold Parser.emitLine, Parser.on_emitter, modify in H3, H.
  injection H3 as _ <-. injection H as <-.
  cbn [curToken set_emitter].
  unfold Parser.program_statements in Hs.
  apply bind_Ret in Hs as (u5 & q1 & _ & Hs).
  apply bind_Ret in Hs as (u6 & q2 & _ & Hs).
  apply bind_Ret in Hs as (u7 & q3 & _ & Hs).
  apply while_Ret_cond in Hs.
  - apply bind_Ret in Hs as (b & q4 & Hb & Hs).
    apply curTokeHasType_Ret in Hb as (-> & t & Ht & ->).
    injection Hs as Hs. exists t. split; [exact Ht|].
    apply negb_false_iff in Hs. apply bool_decide_eq_true_1 in Hs.
    symmetry. exact Hs.
  - intros s b s1 Hb. apply bind_Ret in Hb as (b' & s2 & Hb & Hr).
    apply curTokeHasType_Ret in Hb as [-> _]. injection Hr as _ <-.
    reflexivity.
Qed.

Lemma success_stops_at_end_of_input_witness :
  exists p t,
    compile elements "PRINT 1" = Ret tt p
    /\ curToken p = Some t /\ kind t = TokenType.EOF.
Proof.
  destruct (compile elements "PRINT 1") as [[] p| | |] eqn:E.
  - destruct (success_stops_at_end_of_input elements "PRINT 1" p E)
      as (t & Ht & Hk).
    exists p, t. split; [reflexivity|]. split; assumption.
  - vm_compute in E. discriminate E.
  - vm_compute in E. discriminate E.
  - vm_compute in E. discriminate E.
Defined.

(** ** The constructor of the parser, and the length of the token stream *)

(** X16. The constructor of the parser reads two tokens: the first token
    of the lexer becomes the current token and the second the lookahead,
    the three tables are empty and the emitter is the one given.  When the
    lexer exits on the first or on the second token, the constructor
    exits with it, before any production runs. *)
Theorem init_reads_two_tokens (l : Lexer) (e : Emitter) :
  Parser.init l e
  = match Lexer.getToken l with
    | Ret first l1 =>
        match Lexer.getToken l1 with
        | Ret second l2 =>
            Ret tt (mkParser l2 e ∅ ∅ ∅ (Some first) (Some second))
        | SysExit msg => SysExit msg
        | PyRaise exn => PyRaise exn
        | OutOfFuel => OutOfFuel
        end
    | SysExit msg => SysExit msg
    | PyRaise exn => PyRaise exn
    | OutOfFuel => OutOfFuel
    end.
Proof.
  unfold Parser.init.
  destruct (Lexer.getToken l) as [first l1| | |] eqn:E1.
  - rewrite (bind_of_Ret _ _ _ _ _
               (skipCurToken_None_at (mkParser l e ∅ ∅ ∅ None None) first l1 E1)).
    cbn [emitter symbolsDeclared labelsDeclared labelsGotoed peekToken].
    destruct (Lexer.getToken l1) as [second l2| | |] eqn:E2.
    + rewrite (skipCurToken_None_at _ second l2) by exact E2. reflexivity.
    + unfold Parser.skipCurToken, bind, modify, ret, Parser.on_lexer.
      cbn [lexer set_curToken]. rewrite E2. reflexivity.
    + unfold Parser.skipCurToken, bind, modify, ret, Parser.on_lexer.
      cbn [lexer set_curToken]. rewrite E2. reflexivity.
    + unfold Parser.skipCurToken, bind, modify, ret, Parser.on_lexer.
      cbn [lexer set_curToken]. rewrite E2. reflexivity.
  - unfold bind at 1.
    unfold Parser.skipCurToken, bind, modify, ret, Parser.on_lexer.
    cbn [lexer set_curToken]. rewrite E1. reflexivity.
  - unfold bind at 1.
    unfold Parser.skipCurToken, bind, modify, ret, Parser.on_lexer.
    cbn [lexer set_curToken]. rewrite E1. reflexivity.
  - unfold bind at 1.
    unfold Parser.skipCurToken, bind, modify, ret, Parser.on_lexer.
    cbn [lexer set_curToken]. rewrite E1. reflexivity.
Qed.

Lemma pull_reaches_eof s :
  ends_nl s ->
  forall k n,
    0 < k -> String.length s < n + k ->
    length (pull k (at_pos s n)) < k
    \/ exists i t, pull k (at_pos s n) !! i = Some t
                   /\ kind t = TokenType.EOF.
Proof.
  intros Hs k. induction k as [|k IH]; intros n Hk Hlen; [lia|].
  cbn [pull]. pose proof (getToken_total s n Hs) as H.
  destruct (Lexer.getToken (at_pos s n)) as [t l'| | |]; simpl in H;
    try contradiction; try (left; simpl; lia).
  destruct H as (n' & -> & Hlt & _ & Hin).
  destruct (TokenType.eq_dec (kind t) TokenType.EOF) as [Heof|Hne].
  - right. exists 0, t. split; [reflexivity | exact Heof].
  - specialize (Hin Hne).
    destruct (IH n') as [Hshort | (i & t' & Hi & Ht')]; try lia.
    + left. simpl. lia.
    + right. exists (S i), t'. split; assumption.
Qed.

(** X17. The token stream of a text is finite: whatever the source text,
    among the first [len(source) + 2] calls of [getToken] on a new lexer
    there is one that returns no token (the stream breaks off there), or
    one that returns an EOF token.  So a loop that asks for tokens until
    EOF ends. *)
Theorem token_stream_ends (src : string) :
  exists l0,
    Lexer.init src = Ret tt l0
    /\ (length (pull (String.length src + 2) l0) < String.length src + 2
        \/ exists i t, pull (String.length src + 2) l0 !! i = Some t
                       /\ kind t = TokenType.EOF).
Proof.
  exists (at_pos (src +:+ str Lexer.NEWLINE) 0).
  split; [apply init_at_pos|].
  apply pull_reaches_eof; [apply ends_nl_init | lia |].
  rewrite length_append. simpl. lia.
Qed.

(** ** The operands of GOTO, LET and INPUT *)

Lemma declare_on_first_use_tables ident p u p' :
  Parser.declare_on_first_use ident p = Ret u p' ->
  symbolsDeclared p' = {[ident]} ∪ symbolsDeclared p
  /\ labelsDeclared p' = labelsDeclared p
  /\ labelsGotoed p' = labelsGotoed p
  /\ curToken p' = curToken p.
Proof.
  unfold Parser.declare_on_first_use. rewrite bind_gets.
  destruct (bool_decide (ident ∈ symbolsDeclared p)) eqn:E.
  - apply bool_decide_eq_true in E. intros [= _ <-].
    repeat split. apply set_eq. intros x.
    rewrite elem_of_union, elem_of_singleton.
    split; [auto | intros [->|Hx]; assumption].
  - intros [= _ <-]. repeat split.
Qed.

Lemma skipCurToken_required k p u p' :
  Parser.skipCurToken (Some k) p = Ret u p' ->
  exists t, curToken p = Some t /\ kind t = k.
Proof.
  intros H. apply skipCurToken_lexer in H as (tok & _ & _ & _ & Hreq).
  apply (Hreq k eq_refl).
Qed.

Ltac branch_of Hcur Hk :=
  cbn [Parser.statement]; apply bind_at;
  repeat (rewrite (bind_curTokeHasType _ _ _ _ Hcur), Hk;
          match goal with
          | |- context [bool_decide (?a = ?b)] =>
              let v := eval vm_compute in (bool_decide (a = b)) in
              change (bool_decide (a = b)) with v
          end;
          cbv iota);
  reflexivity.

Lemma statement_goto depth p t :
  curToken p = Some t -> kind t = TokenType.GOTO ->
  Parser.statement (S depth) p
  = ((Parser.skipCurToken None ;;
      t <- Parser.cur ;;
      modify (fun p => set_labelsGotoed ({[text t]} ∪ labelsGotoed p) p) ;;
      Parser.emitLine ("goto " +:+ text t +:+ ";") ;;
      Parser.skipCurToken (Some TokenType.IDENT)) ;;
     Parser.nl) p.
Proof. intros Hcur Hk. branch_of Hcur Hk. Qed.

Lemma statement_let depth p t :
  curToken p = Some t -> kind t = TokenType.LET ->
  Parser.statement (S depth) p
  = ((Parser.let_head ;; Parser.expression ;; Parser.emitLine ";") ;;
     Parser.nl) p.
Proof. intros Hcur Hk. branch_of Hcur Hk. Qed.

Lemma statement_input depth p t :
  curToken p = Some t -> kind t = TokenType.INPUT ->
  Parser.statement (S depth) p
  = ((Parser.skipCurToken None ;;
      t <- Parser.cur ;;
      Parser.declare_on_first_use (text t) ;;
      Parser.emitLine ("if(0 == scanf(" +:+ str QUOTE +:+ "%f" +:+ str QUOTE
                       +:+ ", &" +:+ text t +:+ ")) {") ;;
      Parser.emitLine (text t +:+ " = 0;") ;;
      Parser.emit ("scanf(" +:+ str QUOTE +:+ "%") ;;
      Parser.emitLine ("*s" +:+ str QUOTE +:+ ");") ;;
      Parser.emitLine "}" ;;
      Parser.skipCurToken (Some TokenType.IDENT)) ;;
     Parser.nl) p.
Proof. intros Hcur Hk. branch_of Hcur Hk. Qed.

(** Inverts one call of the emitter at the head of [H]. *)
Ltac emitted H :=
  let u := fresh "u" in
  let q := fresh "q" in
  let E := fresh "E" in
  apply bind_Ret in H as (u & q & E & H);
  unfold Parser.emitLine, Parser.emit, Parser.on_emitter, modify in E;
  injection E as _ <-.

(** X18. GOTO, LET and INPUT take an identifier and record exactly it.
    When [statement] returns from a GOTO, LET or INPUT token, the token
    after the keyword is an identifier; a GOTO has added its text to the
    set of GOTO targets (whether or not the label is declared yet) and
    left the declared variables alone, a LET or an INPUT has added it to
    the declared variables and left the GOTO targets alone; the declared
    labels are unchanged. *)
Theorem operand_is_recorded (depth : nat) (p p' : Parser) (t name : Token) :
  curToken p = Some t -> peekToken p = Some name ->
  In (kind t) [TokenType.GOTO; TokenType.LET; TokenType.INPUT] ->
  Parser.statement (S depth) p = Ret tt p' ->
  kind name = TokenType.IDENT
  /\ labelsDeclared p' = labelsDeclared p
  /\ labelsGotoed p'
     = (if bool_decide (kind t = TokenType.GOTO)
        then {[text name]} ∪ labelsGotoed p else labelsGotoed p)
  /\ symbolsDeclared p'
     = (if bool_decide (kind t = TokenType.GOTO)
        then symbolsDeclared p else {[text name]} ∪ symbolsDeclared p).
Proof.
  intros Hcur Hpeek Hin H. simpl in Hin.
  destruct Hin as [Hk|[Hk|[Hk|[]]]]; symmetry in Hk; rewrite Hk;
    match goal with
    | |- context [bool_decide (?a = ?b)] =>
        let v := eval vm_compute in (bool_decide (a = b)) in
        change (bool_decide (a = b)) with v
    end; cbv iota.
  - rewrite (statement_goto depth p t Hcur Hk) in H.
    apply bind_Ret in H as (u & p5 & H & Hnl).
    apply nl_same_tables in Hnl as (N1 & N2 & N3).
    apply bind_Ret in H as (u1 & p1 & H1 & H).
    apply skipCurToken_Ret in H1 as (Hc & Hs & Hl & Hg & _).
    rewrite Hpeek in Hc. rewrite (bind_cur _ _ _ Hc) in H.
    apply bind_Ret in H as (u2 & p2 & H2 & H).
    unfold modify in H2. injection H2 as _ <-.
    emitted H.
    destruct (skipCurToken_required _ _ _ _ H) as (t' & Ht' & Hkind).
    cbn [curToken set_emitter set_labelsGotoed] in Ht'.
    rewrite Hc in Ht'. injection Ht' as <-.
    apply skipCurToken_same_tables in H as (S1 & S2 & S3).
    cbn [symbolsDeclared labelsDeclared labelsGotoed set_emitter
         set_labelsGotoed] in S1, S2, S3.
    split; [exact Hkind|]. repeat split; congruence.
  - rewrite (statement_let depth p t Hcur Hk) in H.
    apply bind_Ret in H as (u & p5 & H & Hnl).
    apply nl_same_tables in Hnl as (N1 & N2 & N3).
    apply bind_Ret in H as (u0 & p4 & Hh & H).
    apply bind_Ret in H as (u1 & p6 & He & H).
    apply expression_same_tables in He as (X1 & X2 & X3).
    unfold Parser.emitLine, Parser.on_emitter, modify in H.
    injection H as _ <-.
    cbn [symbolsDeclared labelsDeclared labelsGotoed set_emitter]
      in N1, N2, N3.
    unfold Parser.let_head in Hh. rename Hh into H.
    apply bind_Ret in H as (u2 & p1 & H1 & H).
    apply skipCurToken_Ret in H1 as (Hc & Hs & Hl & Hg & _).
    rewrite Hpeek in Hc. rewrite (bind_cur _ _ _ Hc) in H.
    apply bind_Ret in H as (u3 & p2 & Hd & H).
    apply declare_on_first_use_tables in Hd as (D1 & D2 & D3 & D4).
    emitted H.
    apply bind_Ret in H as (v4 & p3 & Hi & H).
    destruct (skipCurToken_required _ _ _ _ Hi) as (t' & Ht' & Hkind).
    cbn [curToken set_emitter] in Ht'.
    rewrite D4, Hc in Ht'. injection Ht' as <-.
    apply skipCurToken_same_tables in Hi as (S1 & S2 & S3).
    cbn [symbolsDeclared labelsDeclared labelsGotoed set_emitter]
      in S1, S2, S3.
    apply skipCurToken_same_tables in H as (T1 & T2 & T3).
    split; [exact Hkind|]. repeat split; congruence.
  - rewrite (statement_input depth p t Hcur Hk) in H.
    apply bind_Ret in H as (u & p5 & H & Hnl).
    apply nl_same_tables in Hnl as (N1 & N2 & N3).
    apply bind_Ret in H as (u1 & p1 & H1 & H).
    apply skipCurToken_Ret in H1 as (Hc & Hs & Hl & Hg & _).
    rewrite Hpeek in Hc. rewrite (bind_cur _ _ _ Hc) in H.
    apply bind_Ret in H as (u3 & p2 & Hd & H).
    apply declare_on_first_use_tables in Hd as (D1 & D2 & D3 & D4).
    emitted H. emitted H. emitted H. emitted H. emitted H.
    destruct (skipCurToken_required _ _ _ _ H) as (t' & Ht' & Hkind).
    cbn [curToken set_emitter] in Ht'.
    rewrite D4, Hc in Ht'. injection Ht' as <-.
    apply skipCurToken_same_tables in H as (S1 & S2 & S3).
    cbn [symbolsDeclared labelsDeclared labelsGotoed set_emitter]
      in S1, S2, S3.
    split; [exact Hkind|]. repeat split; congruence.
Qed.

Lemma operand_is_recorded_witness :
  let p0 := mkParser (at_pos ("INPUT n" +:+ str LF) 7)
              (Emitter.init "out.c") ∅ ∅ ∅
              (Some (mkToken "INPUT" TokenType.INPUT))
              (Some (mkToken "n" TokenType.IDENT)) in
  exists p1,
    Parser.statement 1 p0 = Ret tt p1
    /\ symbolsDeclared p1 = {["n"]} ∪ symbolsDeclared p0.
Proof.
  intros p0.
  destruct (Parser.statement 1 p0) as [[] p1| | |] eqn:E.
  - exists p1. split; [reflexivity|].
    refine (proj2 (proj2 (proj2
              (operand_is_recorded 0 p0 p1 (mkToken "INPUT" TokenType.INPUT)
                 (mkToken "n" TokenType.IDENT) eq_refl eq_refl _ E)))).
    simpl. tauto.
  - vm_compute in E. discriminate E.
  - vm_compute in E. discriminate E.
  - vm_compute in E. discriminate E.
Defined.
